(** * A shallow embedding of the TeenyJVM interpreter ([src/jvm.c])

    The development models the function [execute] of [jvm.c]: the dispatch
    loop over the bytecode of a method, its operand stack, its locals, the
    calling convention of [invokestatic] and the integer-array heap.
    The process entry [main] is modelled over what it takes from the C
    library and the class reader.

    Conventions.
    - A C integer is a [Z]; every conversion to a fixed-width type is written
      out ([to_int32], [to_int16], [to_int8], [to_uint32], [to_size_t]).
    - Signed arithmetic is that of the host the program is built for
      (two's complement, 32-bit [int]): [+], [-], [*] wrap around; [/] and
      [%] trap, and so are undefined, for a zero divisor and for
      [INT_MIN / -1]; a shift takes its count from the low five bits of the
      right operand, as the host's 32-bit shift instructions do; [>>] on a
      signed operand is arithmetic.
    - A C array is a [list]; an access outside its bounds is undefined
      behaviour and is reported as [Undefined].
    - A failed [assert] is reported as [AssertFail].
    - [execute] recurses at [invokestatic] and loops; the model takes fuel
      and reports [OutOfFuel] when it is exhausted. *)

From Stdlib Require Import ZArith Lia Bool.
From stdpp Require Import base numbers list strings.

Open Scope Z_scope.

(** ** Fixed-width integers *)

Definition to_int32 (z : Z) : Z := (z + 2147483648) mod 4294967296 - 2147483648.
Definition to_int16 (z : Z) : Z := (z + 32768) mod 65536 - 32768.
Definition to_int8 (z : Z) : Z := (z + 128) mod 256 - 128.
Definition to_uint32 (z : Z) : Z := z mod 4294967296.
(** [size_t] is taken to be 64 bits wide. *)
Definition to_size_t (z : Z) : Z := z mod 18446744073709551616.

Definition INT32_MIN : Z := -2147483648.
Definition INT32_MAX : Z := 2147483647.

Definition is_int32 (z : Z) : Prop := INT32_MIN <= z <= INT32_MAX.

(** ** Outcomes of running C code *)

Inductive result (A : Type) : Type :=
| Ok (a : A)
| AssertFail
| Undefined
| OutOfFuel.

Arguments Ok {A} a.
Arguments AssertFail {A}.
Arguments Undefined {A}.
Arguments OutOfFuel {A}.

Definition bind {A B : Type} (c : result A) (k : A -> result B) : result B :=
  match c with
  | Ok a => k a
  | AssertFail => AssertFail
  | Undefined => Undefined
  | OutOfFuel => OutOfFuel
  end.

Notation "x <- c ;; k" := (bind c (fun x => k))
  (at level 100, c at next level, right associativity).

(** [assert(b)]. *)
Definition c_assert (b : bool) : result unit :=
  if b then Ok tt else AssertFail.

(** A partial C operation: [None] is undefined behaviour. *)
Definition defined {A : Type} (o : option A) : result A :=
  match o with
  | Some a => Ok a
  | None => Undefined
  end.

(** ** C arrays *)

Definition load {A : Type} (a : list A) (i : Z) : option A :=
  if (0 <=? i) && (i <? Z.of_nat (length a)) then a !! Z.to_nat i else None.

Definition store {A : Type} (a : list A) (i : Z) (v : A) : option (list A) :=
  if (0 <=? i) && (i <? Z.of_nat (length a)) then Some (<[Z.to_nat i := v]> a) else None.

(** [calloc(n, sizeof(int32_t))] with [n] already converted to [size_t] by
    the caller's arithmetic; a count that is not positive yields no usable
    cell. Memory exhaustion is not modelled. *)
Definition calloc (n : Z) : list Z := replicate (Z.to_nat n) 0.

(** ** Signed C operators on [int32_t] *)

Definition c_div (a b : Z) : option Z :=
  if (b =? 0) || ((a =? INT32_MIN) && (b =? -1)) then None else Some (Z.quot a b).

Definition c_rem (a b : Z) : option Z :=
  if (b =? 0) || ((a =? INT32_MIN) && (b =? -1)) then None else Some (Z.rem a b).

(** The count a 32-bit shift of the host uses: [jvm.c] writes [a << b] and
    [a >> b] with no mask of its own and relies on the shift instruction,
    which reads the low five bits of the count. *)
Definition shift_count (b : Z) : Z := Z.land b 0x1F.

(** [a << b]. *)
Definition c_shl (a b : Z) : option Z :=
  Some (to_int32 (Z.shiftl a (shift_count b))).

(** [a >> b] on a signed [a]. *)
Definition c_shr (a b : Z) : option Z :=
  Some (Z.shiftr a (shift_count b)).

(** [((uint32_t) a) >> b], converted back to [int32_t]. *)
Definition c_ushr (a b : Z) : option Z :=
  Some (to_int32 (Z.shiftr (to_uint32 a) (shift_count b))).

(** ** The instruction set *)

(** Modelled from the spec: the enumeration of opcodes of [jvm.h], which is
    not among the sources, from [i_nop] to [i_arraylength] below. The spec
    names the instructions of the Java Virtual Machine; the numbers are
    those of the JVM instruction set. *)
Definition i_nop : Z := 0x00.
Definition i_iconst_m1 : Z := 0x02.
Definition i_iconst_0 : Z := 0x03.
Definition i_iconst_1 : Z := 0x04.
Definition i_iconst_2 : Z := 0x05.
Definition i_iconst_3 : Z := 0x06.
Definition i_iconst_4 : Z := 0x07.
Definition i_iconst_5 : Z := 0x08.
Definition i_bipush : Z := 0x10.
Definition i_sipush : Z := 0x11.
Definition i_ldc : Z := 0x12.
Definition i_iload : Z := 0x15.
Definition i_aload : Z := 0x19.
Definition i_iload_0 : Z := 0x1a.
Definition i_iload_3 : Z := 0x1d.
Definition i_aload_0 : Z := 0x2a.
Definition i_aload_3 : Z := 0x2d.
Definition i_iaload : Z := 0x2e.
Definition i_istore : Z := 0x36.
Definition i_astore : Z := 0x3a.
Definition i_istore_0 : Z := 0x3b.
Definition i_istore_3 : Z := 0x3e.
Definition i_astore_0 : Z := 0x4b.
Definition i_astore_3 : Z := 0x4e.
Definition i_iastore : Z := 0x4f.
Definition i_dup : Z := 0x59.
Definition i_iadd : Z := 0x60.
Definition i_isub : Z := 0x64.
Definition i_imul : Z := 0x68.
Definition i_idiv : Z := 0x6c.
Definition i_irem : Z := 0x70.
Definition i_ineg : Z := 0x74.
Definition i_ishl : Z := 0x78.
Definition i_ishr : Z := 0x7a.
Definition i_iushr : Z := 0x7c.
Definition i_iand : Z := 0x7e.
Definition i_ior : Z := 0x80.
Definition i_ixor : Z := 0x82.
Definition i_iinc : Z := 0x84.
Definition i_ifeq : Z := 0x99.
Definition i_ifne : Z := 0x9a.
Definition i_iflt : Z := 0x9b.
Definition i_ifge : Z := 0x9c.
Definition i_ifgt : Z := 0x9d.
Definition i_ifle : Z := 0x9e.
Definition i_if_icmpeq : Z := 0x9f.
Definition i_if_icmpne : Z := 0xa0.
Definition i_if_icmplt : Z := 0xa1.
Definition i_if_icmpge : Z := 0xa2.
Definition i_if_icmpgt : Z := 0xa3.
Definition i_if_icmple : Z := 0xa4.
Definition i_goto : Z := 0xa7.
Definition i_ireturn : Z := 0xac.
Definition i_areturn : Z := 0xb0.
Definition i_return : Z := 0xb1.
Definition i_getstatic : Z := 0xb2.
Definition i_invokevirtual : Z := 0xb6.
Definition i_invokestatic : Z := 0xb8.
Definition i_newarray : Z := 0xbc.
Definition i_arraylength : Z := 0xbe.

(** ** The class view *)

(** Modelled from the spec: [code_t] of [read_class.h], which is not among
    the sources. A method's code attribute carries the code buffer,
    [code_length], [max_stack] and [max_locals]. *)
Record code_t : Type := {
  max_stack : Z;
  max_locals : Z;
  code_length : Z;
  code : list Z
}.

(** Modelled from the spec: [method_t] and [get_number_of_parameters] of
    [read_class.h], which are not among the sources. A method carries its
    code attribute (the field [code] of the C structure, named [method_code]
    here as the local variable of [execute] is) and a descriptor from which a
    parameter count is derived; the count stands for the descriptor. *)
Record method_t : Type := {
  method_code : code_t;
  get_number_of_parameters : Z
}.

(** Modelled from the spec: [class_file_t] and [find_method_from_index] of
    [read_class.h], which are not among the sources. The class resolves a
    constant-pool index to a method and exposes, for each constant-pool
    entry, the raw 32-bit integer its [info] points to. *)
Record class_file_t : Type := {
  constant_pool : list Z;
  find_method_from_index : Z -> option method_t
}.

(** ** The heap *)

(** Modelled from the spec: [heap_t] of [heap.h], which is not among the
    sources: an ordered sequence of owned integer arrays, appended to. *)
Definition heap_t : Type := list (list Z).

(** Modelled from the spec: [heap_init] of [heap.h]; the heap initially
    holds no array. *)
Definition heap_init : heap_t := [].

(** Modelled from the spec: [heap_add] of [heap.h]; the array is appended
    and its reference is the append position. *)
Definition heap_add (heap : heap_t) (arr : list Z) : heap_t * Z :=
  (heap ++ [arr], Z.of_nat (length heap)).

(** Modelled from the spec: [heap_get] of [heap.h]; the behaviour is
    unspecified on a reference the heap did not produce. *)
Definition heap_get (heap : heap_t) (ref : Z) : option (list Z) :=
  load heap ref.

(** Modelled from the spec: [heap_get] returns a mutable view of the stored
    array, so a write through the pointer it returned updates the array the
    heap owns. *)
Definition heap_set (heap : heap_t) (ref : Z) (arr : list Z) : option heap_t :=
  store heap ref arr.

(** ** Frames and the world *)

(** [optional_value_t] of [jvm.c]. *)
Record optional_value_t : Type := {
  has_value : bool;
  value : Z
}.

(** The per-invocation variables of [execute]. *)
Record frame : Type := {
  pc : Z;
  stack_index : Z;
  stack : list Z;
  locals : list Z
}.

(** What outlives a frame: the heap and the lines printed so far. *)
Record world : Type := {
  heap : heap_t;
  stdout : list Z
}.

(** One iteration of the dispatch loop either goes on or returns. *)
Inductive status : Type :=
| Running (f : frame) (w : world)
| Returned (r : optional_value_t) (w : world).

Definition set_pc (f : frame) (p : Z) : frame :=
  {| pc := p; stack_index := stack_index f; stack := stack f; locals := locals f |}.

(** [stack[stack_index] = v; stack_index++; pc += n]. *)
Definition push (f : frame) (w : world) (v : Z) (n : Z) : result status :=
  st <- defined (store (stack f) (stack_index f) v) ;;
  Ok (Running {| pc := to_size_t (pc f + n);
                 stack_index := to_size_t (stack_index f + 1);
                 stack := st;
                 locals := locals f |} w).

(** [locals[i] = stack[stack_index - 1]; stack_index--; pc += n]. *)
Definition pop_to_local (f : frame) (w : world) (i : Z) (n : Z) : result status :=
  v <- defined (load (stack f) (to_size_t (stack_index f - 1))) ;;
  ls <- defined (store (locals f) i v) ;;
  Ok (Running {| pc := to_size_t (pc f + n);
                 stack_index := to_size_t (stack_index f - 1);
                 stack := stack f;
                 locals := ls |} w).

(** The arithmetic, shift and bitwise instructions share one shape:
    [assert(stack_index >= 2); c = a OP b; stack[stack_index - 2] = c;
    stack_index--; pc++]. The divisions assert a non-zero divisor first. *)
Definition binary (op : Z -> Z -> option Z) (nonzero : bool)
    (f : frame) (w : world) : result status :=
  _ <- c_assert (2 <=? stack_index f) ;;
  b <- defined (load (stack f) (to_size_t (stack_index f - 1))) ;;
  _ <- c_assert (negb nonzero || negb (b =? 0)) ;;
  a <- defined (load (stack f) (to_size_t (stack_index f - 2))) ;;
  c <- defined (op a b) ;;
  st <- defined (store (stack f) (to_size_t (stack_index f - 2)) c) ;;
  Ok (Running {| pc := to_size_t (pc f + 1);
                 stack_index := to_size_t (stack_index f - 1);
                 stack := st;
                 locals := locals f |} w).

(** [(int16_t)(code[pc + 1] << 8) | code[pc + 2]]: the cast binds tighter
    than [|]. *)
Definition branch_offset (code : list Z) (pc : Z) : result Z :=
  hi <- defined (load code (to_size_t (pc + 1))) ;;
  lo <- defined (load code (to_size_t (pc + 2))) ;;
  Ok (Z.lor (to_int16 (Z.shiftl hi 8)) lo).

(** [pc += (size_t) offset]. *)
Definition jump (code : list Z) (f : frame) : result Z :=
  off <- branch_offset code (pc f) ;;
  Ok (to_size_t (pc f + to_size_t off)).

(** [ifeq] .. [ifle]: [assert(stack_index > 0)], compare the top with 0,
    jump or advance by 3, [stack_index--]. *)
Definition if_zero (test : Z -> bool) (code : list Z) (f : frame) (w : world)
    : result status :=
  _ <- c_assert (0 <? stack_index f) ;;
  a <- defined (load (stack f) (to_size_t (stack_index f - 1))) ;;
  p <- (if test a then jump code f else Ok (to_size_t (pc f + 3))) ;;
  Ok (Running {| pc := p;
                 stack_index := to_size_t (stack_index f - 1);
                 stack := stack f;
                 locals := locals f |} w).

(** [if_icmpeq] .. [if_icmple]: [assert(stack_index >= 2)], compare the two
    topmost values, jump or advance by 3, [stack_index -= 2]. *)
Definition if_icmp (test : Z -> Z -> bool) (code : list Z) (f : frame) (w : world)
    : result status :=
  _ <- c_assert (2 <=? stack_index f) ;;
  a <- defined (load (stack f) (to_size_t (stack_index f - 2))) ;;
  b <- defined (load (stack f) (to_size_t (stack_index f - 1))) ;;
  p <- (if test a b then jump code f else Ok (to_size_t (pc f + 3))) ;;
  Ok (Running {| pc := p;
                 stack_index := to_size_t (stack_index f - 2);
                 stack := stack f;
                 locals := locals f |} w).

(** ** [invokestatic] *)

(** The loop [for (int16_t i = 0; i < parameters; i++)
    local_temp[parameters - i - 1] = stack[stack_index - i - 1];]
    with [n] iterations left. *)
Fixpoint copy_parameters (n : nat) (i : Z) (parameters : Z)
    (stack : list Z) (stack_index : Z) (local_temp : list Z) : option (list Z) :=
  match n with
  | O => Some local_temp
  | S n' =>
      match load stack (to_size_t (stack_index - i - 1)) with
      | None => None
      | Some v =>
          match store local_temp (parameters - i - 1) v with
          | None => None
          | Some local_temp' =>
              copy_parameters n' (i + 1) parameters stack stack_index local_temp'
          end
      end
  end.

Definition invokestatic
    (exec : method_t -> list Z -> world -> result (optional_value_t * world))
    (class : class_file_t) (code : list Z) (f : frame) (w : world) : result status :=
  hi <- defined (load code (to_size_t (pc f + 1))) ;;
  lo <- defined (load code (to_size_t (pc f + 2))) ;;
  let pool_index := to_int16 (Z.lor (to_int16 (Z.shiftl hi 8)) lo) in
  m <- defined (find_method_from_index class pool_index) ;;
  let parameters := to_int16 (get_number_of_parameters m) in
  let local_temp := calloc (max_locals (method_code m)) in
  local_temp <- defined (copy_parameters (Z.to_nat parameters) 0 parameters
                           (stack f) (stack_index f) local_temp) ;;
  let stack_index' := to_size_t (stack_index f - parameters) in
  val <- exec m local_temp w ;;
  let '(val, w') := val in
  if has_value val then
    st <- defined (store (stack f) stack_index' (value val)) ;;
    Ok (Running {| pc := to_size_t (pc f + 3);
                   stack_index := to_size_t (stack_index' + 1);
                   stack := st;
                   locals := locals f |} w')
  else
    Ok (Running {| pc := to_size_t (pc f + 3);
                   stack_index := stack_index';
                   stack := stack f;
                   locals := locals f |} w').

(** ** Arrays *)

(** The loop [for (int32_t i = 1; i < n + 1; i++) arr[i] = 0;] with [k]
    iterations left. *)
Fixpoint zero_fill (k : nat) (i : Z) (arr : list Z) : option (list Z) :=
  match k with
  | O => Some arr
  | S k' =>
      match store arr i 0 with
      | None => None
      | Some arr' => zero_fill k' (i + 1) arr'
      end
  end.

Definition newarray (f : frame) (w : world) : result status :=
  n <- defined (load (stack f) (to_size_t (stack_index f - 1))) ;;
  let count := to_int32 (n + 1) in
  arr <- defined (zero_fill (Z.to_nat (count - 1)) 1 (calloc count)) ;;
  arr <- defined (store arr 0 n) ;;
  let '(heap', ref) := heap_add (heap w) arr in
  st <- defined (store (stack f) (to_size_t (stack_index f - 1)) ref) ;;
  Ok (Running {| pc := to_size_t (pc f + 2);
                 stack_index := stack_index f;
                 stack := st;
                 locals := locals f |}
              {| heap := heap'; stdout := stdout w |}).

Definition arraylength (f : frame) (w : world) : result status :=
  ref <- defined (load (stack f) (to_size_t (stack_index f - 1))) ;;
  arr <- defined (heap_get (heap w) ref) ;;
  n <- defined (load arr 0) ;;
  st <- defined (store (stack f) (to_size_t (stack_index f - 1)) n) ;;
  Ok (Running {| pc := to_size_t (pc f + 1);
                 stack_index := stack_index f;
                 stack := st;
                 locals := locals f |} w).

Definition iastore (f : frame) (w : world) : result status :=
  ref <- defined (load (stack f) (to_size_t (stack_index f - 3))) ;;
  arr <- defined (heap_get (heap w) ref) ;;
  i <- defined (load (stack f) (to_size_t (stack_index f - 2))) ;;
  v <- defined (load (stack f) (to_size_t (stack_index f - 1))) ;;
  arr' <- defined (store arr (to_int32 (i + 1)) v) ;;
  heap' <- defined (heap_set (heap w) ref arr') ;;
  Ok (Running {| pc := to_size_t (pc f + 1);
                 stack_index := to_size_t (stack_index f - 3);
                 stack := stack f;
                 locals := locals f |}
              {| heap := heap'; stdout := stdout w |}).

Definition iaload (f : frame) (w : world) : result status :=
  ref <- defined (load (stack f) (to_size_t (stack_index f - 2))) ;;
  arr <- defined (heap_get (heap w) ref) ;;
  i <- defined (load (stack f) (to_size_t (stack_index f - 1))) ;;
  v <- defined (load arr (to_int32 (i + 1))) ;;
  st <- defined (store (stack f) (to_size_t (stack_index f - 2)) v) ;;
  Ok (Running {| pc := to_size_t (pc f + 1);
                 stack_index := to_size_t (stack_index f - 1);
                 stack := st;
                 locals := locals f |} w).

(** ** The dispatch loop *)

Definition void : optional_value_t := {| has_value := false; value := 0 |}.

Definition between (lo x hi : Z) : bool := (lo <=? x) && (x <=? hi).

(** The body of the [while] loop of [execute]: the chain of tests on
    [instruction], in the order of the source. An instruction that no test
    matches leaves every variable as it was. *)
Definition step
    (exec : method_t -> list Z -> world -> result (optional_value_t * world))
    (class : class_file_t) (method : method_t) (f : frame) (w : world)
    : result status :=
  let code := code (method_code method) in
  instruction <- defined (load code (pc f)) ;;
  if instruction =? i_return then
    Ok (Returned void w)
  else if instruction =? i_ireturn then
    v <- defined (load (stack f) (to_size_t (stack_index f - 1))) ;;
    Ok (Returned {| has_value := true; value := v |} w)
  else if instruction =? i_invokestatic then
    invokestatic exec class code f w
  else if instruction =? i_bipush then
    b <- defined (load code (to_size_t (pc f + 1))) ;;
    push f w (to_int8 b) 2
  else if instruction =? i_iadd then
    binary (fun a b => Some (to_int32 (a + b))) false f w
  else if instruction =? i_isub then
    binary (fun a b => Some (to_int32 (a - b))) false f w
  else if instruction =? i_imul then
    binary (fun a b => Some (to_int32 (a * b))) false f w
  else if instruction =? i_idiv then
    binary c_div true f w
  else if instruction =? i_irem then
    binary c_rem true f w
  else if instruction =? i_ineg then
    a <- defined (load (stack f) (to_size_t (stack_index f - 1))) ;;
    st <- defined (store (stack f) (to_size_t (stack_index f - 1)) (to_int32 (a * -1))) ;;
    Ok (Running {| pc := to_size_t (pc f + 1);
                   stack_index := stack_index f;
                   stack := st;
                   locals := locals f |} w)
  else if instruction =? i_ishl then
    binary c_shl false f w
  else if instruction =? i_ishr then
    binary c_shr false f w
  else if instruction =? i_iushr then
    binary c_ushr false f w
  else if instruction =? i_iand then
    binary (fun a b => Some (Z.land a b)) false f w
  else if instruction =? i_ior then
    binary (fun a b => Some (Z.lor a b)) false f w
  else if instruction =? i_ixor then
    binary (fun a b => Some (Z.lxor a b)) false f w
  else if instruction =? i_getstatic then
    Ok (Running (set_pc f (to_size_t (pc f + 3))) w)
  else if instruction =? i_invokevirtual then
    _ <- c_assert (0 <? stack_index f) ;;
    let stack_index' := to_size_t (stack_index f - 1) in
    v <- defined (load (stack f) stack_index') ;;
    Ok (Running {| pc := to_size_t (pc f + 3);
                   stack_index := stack_index';
                   stack := stack f;
                   locals := locals f |}
                {| heap := heap w; stdout := stdout w ++ [v] |})
  else if between i_iconst_m1 instruction i_iconst_5 then
    push f w (instruction - i_iconst_0) 1
  else if instruction =? i_sipush then
    hi <- defined (load code (to_size_t (pc f + 1))) ;;
    lo <- defined (load code (to_size_t (pc f + 2))) ;;
    push f w (to_int16 (Z.lor (Z.shiftl hi 8) lo)) 3
  else if instruction =? i_iload then
    i <- defined (load code (to_size_t (pc f + 1))) ;;
    v <- defined (load (locals f) i) ;;
    push f w v 2
  else if instruction =? i_istore then
    i <- defined (load code (to_size_t (pc f + 1))) ;;
    pop_to_local f w i 2
  else if instruction =? i_iinc then
    i <- defined (load code (to_size_t (pc f + 1))) ;;
    d <- defined (load code (to_size_t (pc f + 2))) ;;
    v <- defined (load (locals f) i) ;;
    ls <- defined (store (locals f) i (to_int32 (v + to_int8 d))) ;;
    Ok (Running {| pc := to_size_t (pc f + 3);
                   stack_index := stack_index f;
                   stack := stack f;
                   locals := ls |} w)
  else if between i_iload_0 instruction i_iload_3 then
    v <- defined (load (locals f) (instruction - i_iload_0)) ;;
    push f w v 1
  else if between i_istore_0 instruction i_istore_3 then
    pop_to_local f w (instruction - i_istore_0) 1
  else if instruction =? i_ldc then
    b <- defined (load code (to_size_t (pc f + 1))) ;;
    v <- defined (load (constant_pool class) (b - 1)) ;;
    push f w v 2
  else if instruction =? i_ifeq then
    if_zero (fun a => a =? 0) code f w
  else if instruction =? i_ifne then
    if_zero (fun a => negb (a =? 0)) code f w
  else if instruction =? i_iflt then
    if_zero (fun a => a <? 0) code f w
  else if instruction =? i_ifge then
    if_zero (fun a => a >=? 0) code f w
  else if instruction =? i_ifgt then
    if_zero (fun a => a >? 0) code f w
  else if instruction =? i_ifle then
    if_zero (fun a => a <=? 0) code f w
  else if instruction =? i_if_icmpeq then
    if_icmp (fun a b => a =? b) code f w
  else if instruction =? i_if_icmpne then
    if_icmp (fun a b => negb (a =? b)) code f w
  else if instruction =? i_if_icmplt then
    if_icmp (fun a b => a <? b) code f w
  else if instruction =? i_if_icmpge then
    if_icmp (fun a b => a >=? b) code f w
  else if instruction =? i_if_icmpgt then
    if_icmp (fun a b => a >? b) code f w
  else if instruction =? i_if_icmple then
    if_icmp (fun a b => a <=? b) code f w
  else if instruction =? i_goto then
    p <- jump code f ;;
    Ok (Running (set_pc f p) w)
  else if instruction =? i_nop then
    Ok (Running (set_pc f (to_size_t (pc f + 1))) w)
  else if instruction =? i_dup then
    v <- defined (load (stack f) (to_size_t (stack_index f - 1))) ;;
    push f w v 1
  else if instruction =? i_newarray then
    newarray f w
  else if instruction =? i_arraylength then
    arraylength f w
  else if instruction =? i_areturn then
    v <- defined (load (stack f) (to_size_t (stack_index f - 1))) ;;
    Ok (Returned {| has_value := true; value := v |} w)
  else if instruction =? i_iastore then
    iastore f w
  else if instruction =? i_iaload then
    iaload f w
  else if instruction =? i_aload then
    i <- defined (load code (to_size_t (pc f + 1))) ;;
    v <- defined (load (locals f) i) ;;
    push f w v 2
  else if instruction =? i_astore then
    i <- defined (load code (to_size_t (pc f + 1))) ;;
    pop_to_local f w i 2
  else if between i_aload_0 instruction i_aload_3 then
    v <- defined (load (locals f) (instruction - i_aload_0)) ;;
    push f w v 1
  else if between i_astore_0 instruction i_astore_3 then
    pop_to_local f w (instruction - i_astore_0) 1
  else
    Ok (Running f w).

(** The frame [execute] starts from: [pc = 0], [stack_index = 0] and a
    stack of [max_stack] zeroed cells. *)
Definition initial_frame (method : method_t) (locals : list Z) : frame :=
  {| pc := 0;
     stack_index := 0;
     stack := calloc (max_stack (method_code method));
     locals := locals |}.

(** [while (pc < method_code.code_length) { ... }] followed by the void
    return, from frame [f]; [fuel] bounds the iterations of the loop and the
    depth of the calls together. *)
Fixpoint run (fuel : nat) (class : class_file_t) (method : method_t)
    (f : frame) (w : world) : result (optional_value_t * world) :=
  match fuel with
  | O => OutOfFuel
  | S fuel' =>
      if pc f <? code_length (method_code method) then
        s <- step (fun m ls w' => run fuel' class m (initial_frame m ls) w')
                  class method f w ;;
        match s with
        | Running f' w' => run fuel' class method f' w'
        | Returned r w' => Ok (r, w')
        end
      else Ok (void, w)
  end.

(** [execute(method, locals, class, heap)]. *)
Definition execute (fuel : nat) (method : method_t) (locals : list Z)
    (class : class_file_t) (w : world) : result (optional_value_t * world) :=
  run fuel class method (initial_frame method locals) w.

(** ** Well-formed methods and frames *)

(** The ranges of the class-file types: [max_stack] and [max_locals] are
    [u2], [code_length] is [u4] and counts the bytes ([u1]) of [code]. *)
Definition wf_method (m : method_t) : bool :=
  let c := method_code m in
  between 0 (max_stack c) 65535
  && between 0 (max_locals c) 65535
  && between 0 (code_length c) 4294967295
  && (Z.of_nat (length (code c)) =? code_length c)
  && forallb (fun b => between 0 b 255) (code c).

(** At the head of the loop the stack has [max_stack] cells, of which the
    lower [stack_index] are in use. *)
Definition wf_frame (m : method_t) (f : frame) : bool :=
  between 0 (stack_index f) (max_stack (method_code m))
  && (Z.of_nat (length (stack f)) =? max_stack (method_code m)).

(** The frame after a binary instruction that computed [c]. *)
Definition binary_result (f : frame) (c : Z) : frame :=
  {| pc := pc f + 1;
     stack_index := stack_index f - 1;
     stack := <[Z.to_nat (stack_index f - 2) := c]> (stack f);
     locals := locals f |}.

(** A callee executor for methods that make no call. *)
Definition no_call (m : method_t) (ls : list Z) (w : world)
    : result (optional_value_t * world) := OutOfFuel.

(** The world [main] starts in: an empty heap and nothing printed. *)
Definition empty_world : world := {| heap := heap_init; stdout := [] |}.

(** A method with [max_stack = ms], [max_locals = ml], the code [c] and a
    descriptor of [p] parameters. *)
Definition method_of (ms ml : Z) (c : list Z) (p : Z) : method_t :=
  {| method_code := {| max_stack := ms; max_locals := ml;
                       code_length := Z.of_nat (length c); code := c |};
     get_number_of_parameters := p |}.

(** ** Sample programs *)

(** A class with no constant and no method. *)
Definition empty_class : class_file_t :=
  {| constant_pool := []; find_method_from_index := fun _ => None |}.

(** [iconst_1; bipush count; ishl; ireturn]. *)
Definition shl_program (count : Z) : method_t :=
  method_of 2 1 [i_iconst_1; i_bipush; count; i_ishl; i_ireturn] 0.

(** [ldc #1; iconst_m1; op; ireturn] over a constant pool whose first entry
    is [INT32_MIN]. *)
Definition min_by_minus_one (op : Z) : method_t :=
  method_of 2 1 [i_ldc; 1; i_iconst_m1; op; i_ireturn] 0.

(** A class whose constant pool holds [INT32_MIN] at entry 1. *)
Definition min_class : class_file_t :=
  {| constant_pool := [INT32_MIN]; find_method_from_index := fun _ => None |}.

(** A frame of a two-cell stack holding [a] below [b], about to run the
    one-instruction method [op]. *)
Definition two_operands (a b : Z) : frame :=
  {| pc := 0; stack_index := 2; stack := [a; b]; locals := [] |}.

(** The one-instruction method [op] with a two-cell stack. *)
Definition one_instruction (op : Z) : method_t := method_of 2 0 [op] 0.

(** ** Branches *)

(** The predicate of each of [ifeq] .. [ifle] on the popped value. *)
Definition zero_predicate (instruction a : Z) : Prop :=
  (instruction = i_ifeq /\ a = 0)
  \/ (instruction = i_ifne /\ a <> 0)
  \/ (instruction = i_iflt /\ a < 0)
  \/ (instruction = i_ifge /\ a >= 0)
  \/ (instruction = i_ifgt /\ a > 0)
  \/ (instruction = i_ifle /\ a <= 0).

(** The frame after a branch instruction that popped [popped] values and
    set the program counter to [target]. *)
Definition after_branch (f : frame) (target popped : Z) : frame :=
  {| pc := target;
     stack_index := stack_index f - popped;
     stack := stack f;
     locals := locals f |}.

(** The predicate of each of [if_icmpeq] .. [if_icmple] on the popped
    values, [a] below [b]. *)
Definition compare_predicate (instruction a b : Z) : Prop :=
  (instruction = i_if_icmpeq /\ a = b)
  \/ (instruction = i_if_icmpne /\ a <> b)
  \/ (instruction = i_if_icmplt /\ a < b)
  \/ (instruction = i_if_icmpge /\ a >= b)
  \/ (instruction = i_if_icmpgt /\ a > b)
  \/ (instruction = i_if_icmple /\ a <= b).

(** [nop; nop; nop; ifeq -3]: a conditional branch back to the start. *)
Definition backward_branch : method_t :=
  method_of 1 0 [i_nop; i_nop; i_nop; i_ifeq; 0xFF; 0xFD] 0.

(** At the [ifeq] of [backward_branch], with a zero on the stack. *)
Definition at_backward_branch : frame :=
  {| pc := 3; stack_index := 1; stack := [0]; locals := [] |}.

(** ** The state machine of a frame *)

(** The instructions some test of the dispatch chain matches. *)
Definition supported (instruction : Z) : bool :=
  (instruction =? i_return) || (instruction =? i_ireturn)
  || (instruction =? i_invokestatic) || (instruction =? i_bipush)
  || (instruction =? i_iadd) || (instruction =? i_isub) || (instruction =? i_imul)
  || (instruction =? i_idiv) || (instruction =? i_irem) || (instruction =? i_ineg)
  || (instruction =? i_ishl) || (instruction =? i_ishr) || (instruction =? i_iushr)
  || (instruction =? i_iand) || (instruction =? i_ior) || (instruction =? i_ixor)
  || (instruction =? i_getstatic) || (instruction =? i_invokevirtual)
  || between i_iconst_m1 instruction i_iconst_5
  || (instruction =? i_sipush) || (instruction =? i_iload) || (instruction =? i_istore)
  || (instruction =? i_iinc)
  || between i_iload_0 instruction i_iload_3
  || between i_istore_0 instruction i_istore_3
  || (instruction =? i_ldc)
  || (instruction =? i_ifeq) || (instruction =? i_ifne) || (instruction =? i_iflt)
  || (instruction =? i_ifge) || (instruction =? i_ifgt) || (instruction =? i_ifle)
  || (instruction =? i_if_icmpeq) || (instruction =? i_if_icmpne)
  || (instruction =? i_if_icmplt) || (instruction =? i_if_icmpge)
  || (instruction =? i_if_icmpgt) || (instruction =? i_if_icmple)
  || (instruction =? i_goto) || (instruction =? i_nop) || (instruction =? i_dup)
  || (instruction =? i_newarray) || (instruction =? i_arraylength)
  || (instruction =? i_areturn) || (instruction =? i_iastore) || (instruction =? i_iaload)
  || (instruction =? i_aload) || (instruction =? i_astore)
  || between i_aload_0 instruction i_aload_3
  || between i_astore_0 instruction i_astore_3.

(** A method whose only byte, [0x01], is matched by no test. *)
Definition unsupported_program : method_t := method_of 0 0 [0x01] 0.

(** The iteration of the loop went on to a next one. *)
Definition is_running (s : status) : Prop := exists f w, s = Running f w.

(** A frame at [pc = 0] whose one-cell stack holds [v]. *)
Definition one_operand (v : Z) : frame :=
  {| pc := 0; stack_index := 1; stack := [v]; locals := [] |}.

(** The one-instruction method [op] with a one-cell stack. *)
Definition one_cell (op : Z) : method_t := method_of 1 0 [op] 0.

(** The frame of [one_cell op] once [pc] has moved past its last byte. *)
Definition past_the_end : frame :=
  {| pc := 1; stack_index := 0; stack := [0]; locals := [] |}.

(** ** The calling convention *)

(** The [parameters] topmost values of the operand stack, deepest first. *)
Definition arguments (f : frame) (parameters : Z) : list Z :=
  take (Z.to_nat parameters)
       (drop (Z.to_nat (stack_index f - parameters)) (stack f)).

(** The locals [invokestatic] hands to the callee: the arguments in the
    order they were pushed, then zeros up to [max_locals]. *)
Definition callee_locals (f : frame) (callee : method_t) : list Z :=
  arguments f (get_number_of_parameters callee)
  ++ replicate
       (Z.to_nat (max_locals (method_code callee) - get_number_of_parameters callee)) 0.

(** The caller's frame after the callee returned [val]. *)
Definition after_call (f : frame) (parameters : Z) (val : optional_value_t) : frame :=
  {| pc := pc f + 3;
     stack_index := stack_index f - parameters + (if has_value val then 1 else 0);
     stack := if has_value val
              then <[Z.to_nat (stack_index f - parameters) := value val]> (stack f)
              else stack f;
     locals := locals f |}.

(** [iload_0; ireturn] with two parameters: returns its first parameter. *)
Definition first_of_two : method_t := method_of 1 2 [i_iload_0; i_ireturn] 2.

(** A class whose constant-pool entry 2 is [first_of_two]. *)
Definition caller_class : class_file_t :=
  {| constant_pool := [];
     find_method_from_index := fun i => if i =? 2 then Some first_of_two else None |}.

(** [invokestatic #2], about to run with 10 pushed before 3. *)
Definition caller : method_t := method_of 2 0 [i_invokestatic; 0; 2] 0.

(** At the [invokestatic] of [caller], with 10 below 3 on the stack. *)
Definition at_call : frame :=
  {| pc := 0; stack_index := 2; stack := [10; 3]; locals := [] |}.

(** ** Arrays *)

(** The frame after [newarray] replaced the length on top by [ref]. *)
Definition after_newarray (f : frame) (ref : Z) : frame :=
  {| pc := pc f + 2;
     stack_index := stack_index f;
     stack := <[Z.to_nat (stack_index f - 1) := ref]> (stack f);
     locals := locals f |}.

(** The frame after [arraylength] replaced the reference on top by [n]. *)
Definition after_arraylength (f : frame) (n : Z) : frame :=
  {| pc := pc f + 1;
     stack_index := stack_index f;
     stack := <[Z.to_nat (stack_index f - 1) := n]> (stack f);
     locals := locals f |}.

(** The frame after [iastore] popped reference, index and value. *)
Definition after_iastore (f : frame) : frame :=
  {| pc := pc f + 1;
     stack_index := stack_index f - 3;
     stack := stack f;
     locals := locals f |}.

(** [allocated class w allocs w']: from world [w], a sequence of executions
    of [newarray], in any frames, was asked for the lengths and returned
    the references paired in [allocs], and left the world [w']. *)
Inductive allocated (class : class_file_t) : world -> list (Z * Z) -> world -> Prop :=
| allocated_nil (w : world) : allocated class w [] w
| allocated_cons
    (exec : method_t -> list Z -> world -> result (optional_value_t * world))
    (method : method_t) (f f' : frame) (w w' w'' : world) (L r : Z)
    (rest : list (Z * Z)) :
    wf_method method = true ->
    wf_frame method f = true ->
    load (code (method_code method)) (pc f) = Some i_newarray ->
    load (stack f) (stack_index f - 1) = Some L ->
    0 <= L < INT32_MAX ->
    step exec class method f w = Ok (Running f' w') ->
    load (stack f') (stack_index f' - 1) = Some r ->
    allocated class w' rest w'' ->
    allocated class w ((L, r) :: rest) w''.

(** [newarray int]. *)
Definition newarray_method : method_t := method_of 1 0 [i_newarray; 10] 0.

(** The world after [newarray] was asked for 3 cells, then for 2. *)
Definition two_arrays : world :=
  {| heap := [[3; 0; 0; 0]; [2; 0; 0]]; stdout := [] |}.

(** ** The depth of the operand stack *)

(** From [f] to [f'] the depth changed by [d], the stack kept its
    [max_stack] cells and the depth stayed within them. *)
Definition depth_change (m : method_t) (f f' : frame) (d : Z) : Prop :=
  stack_index f' = stack_index f + d
  /\ Z.of_nat (length (stack f')) = max_stack (method_code m)
  /\ 0 <= stack_index f' <= max_stack (method_code m).

(** The net change of the operand-stack depth of each instruction other
    than [invokestatic] and the returns, read off the table of the
    instruction set: a push is [+1], a pop [-1]; an instruction that pops
    and pushes as many, or touches only locals or [pc], is [0]. *)
Definition stack_effect (instruction : Z) : Z :=
  if between i_iconst_m1 instruction i_iconst_5
     || existsb (Z.eqb instruction) [i_bipush; i_sipush; i_ldc; i_iload; i_aload]
     || between i_iload_0 instruction i_iload_3
     || between i_aload_0 instruction i_aload_3
     || (instruction =? i_dup)
  then 1
  else if existsb (Z.eqb instruction) [i_istore; i_astore]
     || between i_istore_0 instruction i_istore_3
     || between i_astore_0 instruction i_astore_3
     || existsb (Z.eqb instruction)
          [i_iadd; i_isub; i_imul; i_idiv; i_irem; i_iand; i_ior; i_ixor;
           i_ishl; i_ishr; i_iushr]
     || existsb (Z.eqb instruction) [i_ifeq; i_ifne; i_iflt; i_ifge; i_ifgt; i_ifle]
     || (instruction =? i_invokevirtual)
     || (instruction =? i_iaload)
  then -1
  else if existsb (Z.eqb instruction)
            [i_if_icmpeq; i_if_icmpne; i_if_icmplt; i_if_icmpge; i_if_icmpgt;
             i_if_icmple]
  then -2
  else if instruction =? i_iastore then -3
  else 0.

(** The parameter count of every method the class resolves is a
    non-negative [int16_t]. *)
Definition wf_class (class : class_file_t) : Prop :=
  forall (i : Z) (callee : method_t),
    find_method_from_index class i = Some callee ->
    0 <= get_number_of_parameters callee <= 32767.

(** [reaches exec class method ls w0 f w]: the loop of [execute], started on
    [method] with locals [ls] in world [w0], is at the head of an iteration
    with frame [f] and world [w]. *)
Inductive reaches
    (exec : method_t -> list Z -> world -> result (optional_value_t * world))
    (class : class_file_t) (method : method_t) (ls : list Z) (w0 : world)
    : frame -> world -> Prop :=
| reaches_start : reaches exec class method ls w0 (initial_frame method ls) w0
| reaches_step (f f' : frame) (w w' : world) :
    reaches exec class method ls w0 f w ->
    pc f < code_length (method_code method) ->
    step exec class method f w = Ok (Running f' w') ->
    reaches exec class method ls w0 f' w'.

(** [iconst_1; iconst_2; iadd]. *)
Definition add_program : method_t :=
  method_of 2 0 [i_iconst_1; i_iconst_2; i_iadd] 0.

(** At the [iadd] of [add_program]. *)
Definition before_add : frame :=
  {| pc := 2; stack_index := 2; stack := [1; 2]; locals := [] |}.

(** After the [iadd] of [add_program]. *)
Definition after_add : frame :=
  {| pc := 3; stack_index := 1; stack := [3; 2]; locals := [] |}.

(** ** Whole programs *)

(** [static int fact(int n) { return n == 0 ? 1 : n * fact(n - 1); }]:
    [iload_0; ifne +5; iconst_1; ireturn; iload_0; iload_0; iconst_1; isub;
    invokestatic #2; imul; ireturn]. *)
Definition fact : method_t :=
  method_of 3 1
    [i_iload_0; i_ifne; 0; 5; i_iconst_1; i_ireturn;
     i_iload_0; i_iload_0; i_iconst_1; i_isub; i_invokestatic; 0; 2;
     i_imul; i_ireturn] 1.

(** [static int sub(int a, int b) { return a - b; }]. *)
Definition sub : method_t :=
  method_of 2 2 [i_iload_0; 0x1b; i_isub; i_ireturn] 2.

(** A class whose constant-pool entries 2 and 3 are [fact] and [sub]. *)
Definition program_class : class_file_t :=
  {| constant_pool := [];
     find_method_from_index :=
       fun i => if i =? 2 then Some fact else if i =? 3 then Some sub else None |}.

(** [main]: print [fact(5)]; print [sub(10, 3)]; allocate [int[3]], store 42
    at index 0, print the element and the length; print [-8 >> 1] and
    [-8 >>> 1]; return. *)
Definition program_main : method_t :=
  method_of 4 2
    [i_bipush; 5; i_invokestatic; 0; 2; i_getstatic; 0; 0; i_invokevirtual; 0; 0;
     i_bipush; 10; i_bipush; 3; i_invokestatic; 0; 3; i_invokevirtual; 0; 0;
     i_iconst_3; i_newarray; 10; 0x4c;
     0x2b; i_iconst_0; i_bipush; 42; i_iastore;
     0x2b; i_iconst_0; i_iaload; i_invokevirtual; 0; 0;
     0x2b; i_arraylength; i_invokevirtual; 0; 0;
     i_bipush; 0xf8; i_iconst_1; i_ishr; i_invokevirtual; 0; 0;
     i_bipush; 0xf8; i_iconst_1; i_iushr; i_invokevirtual; 0; 0;
     i_return] 1.

(** [main]: sum 1 .. 10 into local 1 with [iinc], [if_icmpge] and a backward
    [goto], then print it. *)
Definition sum_loop : method_t :=
  method_of 2 3
    [i_iconst_0; 0x3c; i_iconst_1; 0x3d;
     0x1c; i_bipush; 11; i_if_icmpge; 0; 13;
     0x1b; 0x1c; i_iadd; 0x3c; i_iinc; 2; 1; i_goto; 0xff; 0xf3;
     0x1b; i_invokevirtual; 0; 0; i_return] 1.

(** A method with [max_stack = 0] whose body is [return]. *)
Definition just_return : method_t := method_of 0 1 [i_return] 1.

(** ** Frames after an instruction *)

(** The frame after [v] was pushed and [pc] advanced by [n]. *)
Definition after_push (f : frame) (v n : Z) : frame :=
  {| pc := pc f + n;
     stack_index := stack_index f + 1;
     stack := <[Z.to_nat (stack_index f) := v]> (stack f);
     locals := locals f |}.

(** The frame after the top [v] was popped into local [k] and [pc]
    advanced by [n]. *)
Definition after_store (f : frame) (k v n : Z) : frame :=
  {| pc := pc f + n;
     stack_index := stack_index f - 1;
     stack := stack f;
     locals := <[Z.to_nat k := v]> (locals f) |}.

(** The local index of [istore_<k>] and [astore_<k>]. *)
Definition short_store_index (instruction : Z) : option Z :=
  if between i_istore_0 instruction i_istore_3 then Some (instruction - i_istore_0)
  else if between i_astore_0 instruction i_astore_3 then Some (instruction - i_astore_0)
  else None.

(** The local index of [iload_<k>] and [aload_<k>]. *)
Definition short_load_index (instruction : Z) : option Z :=
  if between i_iload_0 instruction i_iload_3 then Some (instruction - i_iload_0)
  else if between i_aload_0 instruction i_aload_3 then Some (instruction - i_aload_0)
  else None.

(** The frame after the top [v] went to local [k] and came back: the stack
    is as before, [pc] advanced by [n]. *)
Definition after_load_back (f : frame) (k v n : Z) : frame :=
  {| pc := pc f + n;
     stack_index := stack_index f;
     stack := stack f;
     locals := <[Z.to_nat k := v]> (locals f) |}.

(** The frame with the locals [ls], [pc] advanced by [n]. *)
Definition with_locals (f : frame) (n : Z) (ls : list Z) : frame :=
  {| pc := pc f + n;
     stack_index := stack_index f;
     stack := stack f;
     locals := ls |}.

(** The frame with the top of the stack replaced by [v], [pc] advanced by
    [n]. *)
Definition with_top (f : frame) (n : Z) (v : Z) : frame :=
  {| pc := pc f + n;
     stack_index := stack_index f;
     stack := <[Z.to_nat (stack_index f - 1) := v]> (stack f);
     locals := locals f |}.

(** A frame at [pc = 0] with [depth] values on the stack [st] and the
    locals [ls]. *)
Definition frame_of (depth : Z) (st ls : list Z) : frame :=
  {| pc := 0; stack_index := depth; stack := st; locals := ls |}.

(** ** The heap and the output *)

(** The world an iteration of the loop ended in. *)
Definition world_of (s : status) : world :=
  match s with
  | Running _ w => w
  | Returned _ w => w
  end.

(** From [w] to [w'] the output only grew at its end, and every reference
    of [w] still designates an array of as many cells. *)
Definition extends (w w' : world) : Prop :=
  (exists out : list Z, stdout w' = stdout w ++ out)
  /\ (forall (r : Z) (arr : list Z),
        load (heap w) r = Some arr ->
        exists arr' : list Z,
          load (heap w') r = Some arr' /\ length arr' = length arr).

(** The instructions whose branch passes the heap on or writes [stdout]. *)
Definition touches_world (instruction : Z) : bool :=
  (instruction =? i_invokestatic) || (instruction =? i_invokevirtual)
  || (instruction =? i_newarray) || (instruction =? i_iastore).

(** ** The footprint of an instruction *)

(** The instructions that may set [pc] from a branch offset. *)
Definition is_branch (instruction : Z) : bool :=
  existsb (Z.eqb instruction)
    [i_ifeq; i_ifne; i_iflt; i_ifge; i_ifgt; i_ifle;
     i_if_icmpeq; i_if_icmpne; i_if_icmplt; i_if_icmpge; i_if_icmpgt; i_if_icmple;
     i_goto].

(** The instructions that assign to a cell of [locals]. *)
Definition writes_local (instruction : Z) : bool :=
  existsb (Z.eqb instruction) [i_istore; i_astore; i_iinc]
  || between i_istore_0 instruction i_istore_3
  || between i_astore_0 instruction i_astore_3.

(** The bytes an instruction and its operands take in [code]; an
    instruction that no test of the dispatch chain matches takes none. *)
Definition instruction_width (instruction : Z) : Z :=
  if existsb (Z.eqb instruction)
       [i_bipush; i_ldc; i_iload; i_aload; i_istore; i_astore; i_newarray]
  then 2
  else if existsb (Z.eqb instruction)
            [i_sipush; i_iinc; i_getstatic; i_invokevirtual; i_invokestatic]
          || is_branch instruction
  then 3
  else if supported instruction then 1
  else 0.

(** ** 32-bit values *)

(** Every cell of the operand stack and of the locals holds an [int32_t]. *)
Definition int32_frame (f : frame) : Prop :=
  Forall is_int32 (stack f) /\ Forall is_int32 (locals f).

(** Every cell of every array of the heap, and every printed value, is an
    [int32_t]. *)
Definition int32_world (w : world) : Prop :=
  Forall (Forall is_int32) (heap w) /\ Forall is_int32 (stdout w).

(** The frame or the returned value, and the world, an iteration ended in
    hold [int32_t] values only. *)
Definition int32_status (s : status) : Prop :=
  match s with
  | Running f w => int32_frame f /\ int32_world w
  | Returned r w => is_int32 (value r) /\ int32_world w
  end.

(** The references [heap_add] has handed out so far fit [int32_t]. *)
Definition references_fit (w : world) : Prop :=
  Z.of_nat (length (heap w)) <= INT32_MAX + 1.

(** ** [main] *)

(** [MAIN_METHOD] of [jvm.c]. *)
Definition MAIN_METHOD : string := "main".

(** [MAIN_DESCRIPTOR] of [jvm.c]. *)
Definition MAIN_DESCRIPTOR : string := "([Ljava/lang/String;)V".

(** Modelled from the spec: [find_method] and [get_class] of [read_class.h],
    which are not among the sources. [find_method] looks a method up by its
    exact name and descriptor and may find none; [get_class] parses the
    class from the opened stream. With them the record holds what [main]
    takes from the C library: whether [fopen] returned a stream, and the
    value [fclose] returned. *)
Record host : Type := {
  fopen : bool;
  get_class : class_file_t;
  fclose : Z;
  find_method : string -> string -> class_file_t -> option method_t
}.

(** How the process ends: the value [main] returns, whether the usage line
    went to [stderr], and the lines printed on [stdout]. *)
Record process : Type := {
  exit_code : Z;
  usage : bool;
  printed : list Z
}.

(** [main(argc, argv)]. The array [locals] has [max_locals] cells and is
    zeroed by [memset]. Falling off the end of [main] returns 0. *)
Definition main (fuel : nat) (argc : Z) (h : host) : result process :=
  if negb (argc =? 2) then
    Ok {| exit_code := 1; usage := true; printed := [] |}
  else
    _ <- c_assert (fopen h) ;;
    let class := get_class h in
    _ <- c_assert (fclose h =? 0) ;;
    let heap := heap_init in
    main_method <- (match find_method h MAIN_METHOD MAIN_DESCRIPTOR class with
                    | Some m => Ok m
                    | None => AssertFail
                    end) ;;
    let locals := replicate (Z.to_nat (max_locals (method_code main_method))) 0 in
    result <- execute fuel main_method locals class {| heap := heap; stdout := [] |} ;;
    let '(result, w) := result in
    _ <- c_assert (negb (has_value result)) ;;
    Ok {| exit_code := 0; usage := false; printed := stdout w |}.

(** A host whose class file opens, parses to [program_class] and closes,
    and in which [main] resolves to [program_main]. *)
Definition program_host : host :=
  {| fopen := true;
     get_class := program_class;
     fclose := 0;
     find_method := fun name descriptor _ =>
       if bool_decide (name = MAIN_METHOD /\ descriptor = MAIN_DESCRIPTOR)
       then Some program_main else None |}.

(** * Basic facts *)

Lemma to_size_t_small (z : Z) :
  0 <= z < 18446744073709551616 -> to_size_t z = z.
Proof. intros H. unfold to_size_t. apply Z.mod_small. exact H. Qed.

Lemma to_int32_small (z : Z) : is_int32 z -> to_int32 z = z.
Proof.
  unfold is_int32, INT32_MIN, INT32_MAX, to_int32. intros H.
  rewrite Z.mod_small by lia. lia.
Qed.

Lemma to_int32_range (z : Z) : is_int32 (to_int32 z).
Proof.
  unfold is_int32, INT32_MIN, INT32_MAX, to_int32.
  pose proof (Z.mod_pos_bound (z + 2147483648) 4294967296). lia.
Qed.

Lemma between_spec (lo x hi : Z) : between lo x hi = true <-> lo <= x <= hi.
Proof. unfold between. rewrite andb_true_iff, !Z.leb_le. tauto. Qed.

Lemma load_inv {A : Type} (a : list A) (i : Z) (v : A) :
  load a i = Some v ->
  0 <= i < Z.of_nat (length a) /\ a !! Z.to_nat i = Some v.
Proof.
  unfold load. destruct (0 <=? i) eqn:H0; [|discriminate].
  destruct (i <? Z.of_nat (length a)) eqn:H1; [|discriminate].
  simpl. intros H. split; [lia | exact H].
Qed.

Lemma load_lookup {A : Type} (a : list A) (i : Z) :
  0 <= i < Z.of_nat (length a) -> load a i = a !! Z.to_nat i.
Proof.
  intros H. unfold load.
  replace (0 <=? i) with true by lia.
  replace (i <? Z.of_nat (length a)) with true by lia.
  reflexivity.
Qed.

Lemma store_in {A : Type} (a : list A) (i : Z) (v : A) :
  0 <= i < Z.of_nat (length a) -> store a i v = Some (<[Z.to_nat i := v]> a).
Proof.
  intros H. unfold store.
  replace (0 <=? i) with true by lia.
  replace (i <? Z.of_nat (length a)) with true by lia.
  reflexivity.
Qed.

Lemma store_inv {A : Type} (a a' : list A) (i : Z) (v : A) :
  store a i v = Some a' ->
  0 <= i < Z.of_nat (length a) /\ a' = <[Z.to_nat i := v]> a.
Proof.
  unfold store. destruct (0 <=? i) eqn:H0; [|discriminate].
  destruct (i <? Z.of_nat (length a)) eqn:H1; [|discriminate].
  simpl. intros H. injection H as <-. split; [lia | reflexivity].
Qed.

Lemma load_store_same {A : Type} (a a' : list A) (i : Z) (v : A) :
  store a i v = Some a' -> load a' i = Some v.
Proof.
  intros H. apply store_inv in H as [Hi ->].
  rewrite load_lookup by (rewrite length_insert; exact Hi).
  apply list_lookup_insert_eq. lia.
Qed.

Lemma load_store_other {A : Type} (a a' : list A) (i j : Z) (v : A) :
  store a i v = Some a' -> i <> j -> load a' j = load a j.
Proof.
  intros H Hij. apply store_inv in H as [Hi ->].
  unfold load. rewrite length_insert.
  destruct ((0 <=? j) && (j <? Z.of_nat (length a))) eqn:Hj; [|reflexivity].
  apply list_lookup_insert_ne. lia.
Qed.

Lemma bind_Ok {A B : Type} (c : result A) (k : A -> result B) (b : B) :
  bind c k = Ok b -> exists a, c = Ok a /\ k a = Ok b.
Proof. destruct c; simpl; intros H; try discriminate. eauto. Qed.

Lemma defined_Ok {A : Type} (o : option A) (a : A) :
  defined o = Ok a -> o = Some a.
Proof. destruct o; simpl; intros H; [injection H as -> | discriminate]. reflexivity. Qed.

Lemma c_assert_Ok (b : bool) (u : unit) : c_assert b = Ok u -> b = true.
Proof. destruct b; simpl; [reflexivity | discriminate]. Qed.

Lemma wf_method_inv (m : method_t) :
  wf_method m = true ->
  0 <= max_stack (method_code m) <= 65535
  /\ 0 <= max_locals (method_code m) <= 65535
  /\ 0 <= code_length (method_code m) <= 4294967295
  /\ Z.of_nat (length (code (method_code m))) = code_length (method_code m)
  /\ Forall (fun b => 0 <= b <= 255) (code (method_code m)).
Proof.
  unfold wf_method. rewrite !andb_true_iff, !between_spec, Z.eqb_eq.
  intros [[[[H1 H2] H3] H4] H5]. repeat split; try lia.
  apply Forall_forall. intros b Hb.
  rewrite forallb_forall in H5. apply between_spec, H5.
  apply list_elem_of_In, Hb.
Qed.

Lemma wf_frame_inv (m : method_t) (f : frame) :
  wf_frame m f = true ->
  0 <= stack_index f <= max_stack (method_code m)
  /\ Z.of_nat (length (stack f)) = max_stack (method_code m).
Proof.
  unfold wf_frame. rewrite andb_true_iff, between_spec, Z.eqb_eq. tauto.
Qed.

(** The byte at a position of a well-formed method's code is a [u1], and
    the position fits [code_length]. *)
Lemma code_byte (m : method_t) (i b : Z) :
  wf_method m = true ->
  load (code (method_code m)) i = Some b ->
  0 <= i < 4294967295 /\ 0 <= b <= 255.
Proof.
  intros Hm Hb. apply wf_method_inv in Hm as (_ & _ & Hl & Hlen & Hall).
  apply load_inv in Hb as [Hi Hb]. split; [lia|].
  rewrite Forall_forall in Hall. apply Hall.
  eapply list_elem_of_lookup_2, Hb.
Qed.

(** Evaluation of the tests of the dispatch chain on a known opcode. *)
Ltac eval_tests :=
  repeat match goal with
  | |- context [Z.eqb ?a ?b] =>
      let r := eval vm_compute in (Z.eqb a b) in
      match r with
      | true => change (Z.eqb a b) with true
      | false => change (Z.eqb a b) with false
      end
  | |- context [between ?a ?b ?c] =>
      let r := eval vm_compute in (between a b c) in
      match r with
      | true => change (between a b c) with true
      | false => change (between a b c) with false
      end
  end; cbv iota.

Ltac dispatch H :=
  unfold step; rewrite H; cbn [defined bind]; eval_tests.

(** * Binary instructions *)

Lemma binary_ok (op : Z -> Z -> option Z) (nonzero : bool)
    (method : method_t) (f : frame) (w : world) (i a b c : Z) :
  wf_method method = true ->
  wf_frame method f = true ->
  load (code (method_code method)) (pc f) = Some i ->
  load (stack f) (stack_index f - 2) = Some a ->
  load (stack f) (stack_index f - 1) = Some b ->
  (nonzero = true -> b <> 0) ->
  op a b = Some c ->
  binary op nonzero f w = Ok (Running (binary_result f c) w).
Proof.
  intros Hm Hf Hi Ha Hb Hnz Hop.
  destruct (code_byte _ _ _ Hm Hi) as [Hpc _].
  apply wf_method_inv in Hm as (Hms & _).
  apply wf_frame_inv in Hf as (Hsi & Hlen).
  pose proof (load_inv _ _ _ Ha) as [Hia _].
  unfold binary.
  replace (2 <=? stack_index f) with true by lia. cbn [c_assert bind].
  rewrite !to_size_t_small by lia.
  rewrite Hb. cbn [defined bind].
  replace (negb nonzero || negb (b =? 0)) with true.
  2:{ destruct nonzero; [|reflexivity]. simpl. specialize (Hnz eq_refl).
      symmetry. apply negb_true_iff. apply Z.eqb_neq. exact Hnz. }
  cbn [c_assert bind]. rewrite Ha. cbn [defined bind]. rewrite Hop. cbn [defined bind].
  rewrite store_in by lia. cbn [defined bind]. reflexivity.
Qed.

Lemma pow2_pos (b : Z) : 0 <= b -> 0 < 2 ^ b.
Proof. intros H. apply Z.pow_pos_nonneg; lia. Qed.

Lemma shr_range (a b : Z) : is_int32 a -> 0 <= b -> is_int32 (a / 2 ^ b).
Proof.
  unfold is_int32, INT32_MIN, INT32_MAX. intros Ha Hb.
  pose proof (pow2_pos b Hb) as Hpow. split.
  - apply Z.div_le_lower_bound; [lia|]. nia.
  - apply Z.lt_succ_r. apply Z.div_lt_upper_bound; [lia|]. nia.
Qed.

Lemma shift_count_range (b : Z) : 0 <= shift_count b < 32.
Proof.
  unfold shift_count. change 0x1F with (Z.ones 5). rewrite Z.land_ones by lia.
  change (2 ^ 5) with 32. apply Z.mod_pos_bound. lia.
Qed.

Lemma shift_count_small (b : Z) : 0 <= b < 32 -> shift_count b = b.
Proof.
  intros Hb. unfold shift_count. change 0x1F with (Z.ones 5).
  rewrite Z.land_ones by lia. apply Z.mod_small. exact Hb.
Qed.




(** [iconst_1; bipush 33; ishl; ireturn] returns 2, as with a count of 1. *)
Example shl_program_33 :
  execute 5 (shl_program 33) [0] empty_class empty_world
  = Ok ({| has_value := true; value := 2 |}, empty_world)
  /\ execute 5 (shl_program 1) [0] empty_class empty_world
     = Ok ({| has_value := true; value := 2 |}, empty_world).
Proof. split; vm_compute; reflexivity. Qed.

Lemma c_div_defined (a b : Z) :
  b <> 0 -> ~ (a = INT32_MIN /\ b = -1) -> c_div a b = Some (Z.quot a b).
Proof.
  intros Hb Hov. unfold c_div.
  destruct (b =? 0) eqn:E0; [lia|].
  destruct (a =? INT32_MIN) eqn:E1; destruct (b =? -1) eqn:E2; simpl;
    try reflexivity.
  exfalso. apply Hov. split; lia.
Qed.

Lemma c_rem_defined (a b : Z) :
  b <> 0 -> ~ (a = INT32_MIN /\ b = -1) -> c_rem a b = Some (Z.rem a b).
Proof.
  intros Hb Hov. unfold c_rem.
  destruct (b =? 0) eqn:E0; [lia|].
  destruct (a =? INT32_MIN) eqn:E1; destruct (b =? -1) eqn:E2; simpl;
    try reflexivity.
  exfalso. apply Hov. split; lia.
Qed.

Lemma quot_range (a b : Z) :
  is_int32 a -> is_int32 b -> b <> 0 -> ~ (a = INT32_MIN /\ b = -1) ->
  is_int32 (Z.quot a b).
Proof.
  unfold is_int32, INT32_MIN, INT32_MAX. intros Ha Hb Hnz Hov.
  pose proof (Z.quot_rem' a b) as Hqr.
  pose proof (Z.rem_bound_abs a b Hnz) as Hr.
  assert (Hq : Z.abs (Z.quot a b) <= Z.abs a).
  { rewrite <- Z.quot_abs by exact Hnz.
    apply Z.quot_le_upper_bound; [lia|]. nia. }
  destruct (Z.eq_dec b (-1)) as [->|Hb1].
  - assert (a <> -2147483648) by (intros ->; apply Hov; split; reflexivity).
    lia.
  - destruct (Z.eq_dec b 1) as [->|Hb2]; [rewrite Z.quot_1_r; lia|].
    assert (Hq2 : 2 * Z.abs (Z.quot a b) <= Z.abs a).
    { rewrite <- Z.quot_abs by exact Hnz.
      apply Z.le_trans with (Z.abs b * Z.quot (Z.abs a) (Z.abs b)); [|apply Z.mul_quot_le; lia].
      pose proof (Z.quot_pos (Z.abs a) (Z.abs b)). nia. }
    lia.
Qed.

(** C5 (as amended): for every 32-bit [a] and every non-zero 32-bit [b]
    other than the pair [a = -2^31], [b = -1], [idiv] pops [b] then [a] and
    pushes the quotient truncated toward zero, and [irem] pops [b] then [a]
    and pushes the remainder, smaller than [b] in magnitude and, when not
    zero, of the sign of the dividend [a]. *)
Theorem idiv_irem_truncate
    (exec : method_t -> list Z -> world -> result (optional_value_t * world))
    (class : class_file_t) (method : method_t) (f : frame) (w : world) (a b : Z) :
  wf_method method = true ->
  wf_frame method f = true ->
  load (stack f) (stack_index f - 2) = Some a ->
  load (stack f) (stack_index f - 1) = Some b ->
  is_int32 a ->
  is_int32 b ->
  b <> 0 ->
  ~ (a = INT32_MIN /\ b = -1) ->
  (load (code (method_code method)) (pc f) = Some i_idiv ->
   step exec class method f w = Ok (Running (binary_result f (Z.quot a b)) w))
  /\ (load (code (method_code method)) (pc f) = Some i_irem ->
      step exec class method f w = Ok (Running (binary_result f (Z.rem a b)) w))
  /\ is_int32 (Z.quot a b)
  /\ Z.abs (Z.quot a b) = Z.abs a / Z.abs b
  /\ Z.sgn (Z.quot a b) * Z.sgn a * Z.sgn b >= 0
  /\ a = b * Z.quot a b + Z.rem a b
  /\ Z.abs (Z.rem a b) < Z.abs b
  /\ (Z.rem a b <> 0 -> Z.sgn (Z.rem a b) = Z.sgn a).
Proof.
  intros Hm Hf Ha Hb Hra Hrb Hnz Hov.
  repeat split.
  - intros Hi. dispatch Hi.
    apply (binary_ok _ _ method f w i_idiv a b _ Hm Hf Hi Ha Hb); [intros _; exact Hnz|].
    apply c_div_defined; assumption.
  - intros Hi. dispatch Hi.
    apply (binary_ok _ _ method f w i_irem a b _ Hm Hf Hi Ha Hb); [intros _; exact Hnz|].
    apply c_rem_defined; assumption.
  - apply (quot_range a b Hra Hrb Hnz Hov).
  - apply (quot_range a b Hra Hrb Hnz Hov).
  - rewrite <- Z.quot_abs by exact Hnz.
    apply Z.quot_div_nonneg; lia.
  - rewrite (Z.quot_div a b Hnz).
    pose proof (Z.div_pos (Z.abs a) (Z.abs b)).
    assert (0 <= Z.abs a / Z.abs b) by (apply Z.div_pos; lia).
    destruct (Z.sgn_spec a) as [[? ->]|[[? ->]|[? ->]]];
      destruct (Z.sgn_spec b) as [[? ->]|[[? ->]|[? ->]]];
      destruct (Z.sgn_spec (1 * 1 * (Z.abs a / Z.abs b))) as [[? ?]|[[? ?]|[? ?]]];
      nia.
  - apply Z.quot_rem'.
  - pose proof (Z.rem_bound_abs a b Hnz). lia.
  - intros Hr. apply Z.rem_sign_nz; assumption.
Qed.

(** [idiv] of [-7] by [2] pushes [-3]. *)
Lemma idiv_irem_truncate_witness :
  step no_call empty_class (one_instruction i_idiv) (two_operands (-7) 2) empty_world
  = Ok (Running {| pc := 1; stack_index := 1; stack := [-3; 2]; locals := [] |}
          empty_world).
Proof.
  refine (proj1
    (idiv_irem_truncate no_call empty_class (one_instruction i_idiv)
       (two_operands (-7) 2) empty_world (-7) 2 _ _ _ _ _ _ _ _) _);
    try reflexivity;
    try (unfold is_int32, INT32_MIN, INT32_MAX; lia).
Defined.

(** C5 (as stated) fails at [a = -2^31], [b = -1], a non-zero divisor: the
    C division overflows, its behaviour is undefined, and neither [idiv] nor
    [irem] pushes a value. *)
Lemma idiv_irem_overflow_undefined :
  execute 5 (min_by_minus_one i_idiv) [0] min_class empty_world = Undefined
  /\ execute 5 (min_by_minus_one i_irem) [0] min_class empty_world = Undefined.
Proof. split; vm_compute; reflexivity. Qed.

Lemma c_ushr_defined (a b : Z) :
  0 <= b < 32 -> c_ushr a b = Some (to_int32 (to_uint32 a / 2 ^ b)).
Proof.
  intros Hb. unfold c_ushr. rewrite shift_count_small by exact Hb.
  rewrite Z.shiftr_div_pow2 by lia. reflexivity.
Qed.

Lemma ushr_zero_fill (a b : Z) :
  1 <= b < 32 -> 0 <= to_uint32 a / 2 ^ b < 2 ^ (32 - b).
Proof.
  intros Hb. unfold to_uint32.
  pose proof (Z.mod_pos_bound a 4294967296) as Hu.
  pose proof (pow2_pos b) as Hpow.
  split.
  - apply Z.div_pos; lia.
  - apply Z.div_lt_upper_bound; [lia|].
    rewrite <- Z.pow_add_r by lia.
    replace (b + (32 - b)) with 32 by lia. change (2 ^ 32) with 4294967296. lia.
Qed.

(** C6: [ishr] of [-1] by [1] is [-1] and [iushr] of [-1] by [1] is
    [0x7FFFFFFF]; in general, for a 32-bit [a] and a count [b] in [0, 31],
    [iushr] pops the count then [a] and pushes the shift of the unsigned
    interpretation of [a], whose vacated high bits are zero, while [ishr]
    pushes the arithmetic shift. *)
Theorem iushr_logical_ishr_arithmetic
    (exec : method_t -> list Z -> world -> result (optional_value_t * world))
    (class : class_file_t) (method : method_t) (f : frame) (w : world) (a b : Z) :
  wf_method method = true ->
  wf_frame method f = true ->
  load (stack f) (stack_index f - 2) = Some a ->
  load (stack f) (stack_index f - 1) = Some b ->
  is_int32 a ->
  0 <= b < 32 ->
  (load (code (method_code method)) (pc f) = Some i_iushr ->
   step exec class method f w
   = Ok (Running (binary_result f (to_int32 (to_uint32 a / 2 ^ b))) w))
  /\ (load (code (method_code method)) (pc f) = Some i_ishr ->
      step exec class method f w = Ok (Running (binary_result f (a / 2 ^ b)) w))
  /\ (1 <= b ->
      to_int32 (to_uint32 a / 2 ^ b) = to_uint32 a / 2 ^ b
      /\ 0 <= to_uint32 a / 2 ^ b < 2 ^ (32 - b))
  /\ (a = -1 -> b = 1 ->
      to_int32 (to_uint32 a / 2 ^ b) = 0x7FFFFFFF /\ a / 2 ^ b = -1).
Proof.
  intros Hm Hf Ha Hb Hra Hrb.
  split; [|split; [|split]].
  - intros Hi. dispatch Hi.
    apply (binary_ok _ _ method f w i_iushr a b _ Hm Hf Hi Ha Hb); [discriminate|].
    apply c_ushr_defined. exact Hrb.
  - intros Hi. dispatch Hi.
    apply (binary_ok _ _ method f w i_ishr a b _ Hm Hf Hi Ha Hb); [discriminate|].
    unfold c_shr. rewrite shift_count_small by exact Hrb.
    rewrite Z.shiftr_div_pow2 by lia. reflexivity.
  - intros Hb1.
    pose proof (ushr_zero_fill a b (conj Hb1 (proj2 Hrb))) as Hz.
    split; [|exact Hz].
    apply to_int32_small. unfold is_int32, INT32_MIN, INT32_MAX.
    assert (2 ^ (32 - b) <= 2 ^ 31) by (apply Z.pow_le_mono_r; lia).
    change (2 ^ 31) with 2147483648 in *. lia.
  - intros -> ->. split; reflexivity.
Qed.

(** [iushr] of [-1] by [1] pushes [0x7FFFFFFF]. *)
Lemma iushr_logical_ishr_arithmetic_witness :
  step no_call empty_class (one_instruction i_iushr) (two_operands (-1) 1) empty_world
  = Ok (Running {| pc := 1; stack_index := 1; stack := [0x7FFFFFFF; 1]; locals := [] |}
          empty_world).
Proof.
  refine (proj1
    (iushr_logical_ishr_arithmetic no_call empty_class (one_instruction i_iushr)
       (two_operands (-1) 1) empty_world (-1) 1 _ _ _ _ _ _) _);
    try reflexivity;
    try (unfold is_int32, INT32_MIN, INT32_MAX; lia); lia.
Defined.

(** * Branches *)

Lemma lor_low_byte (k lo : Z) : 0 <= lo <= 255 -> Z.lor (k * 256) lo = k * 256 + lo.
Proof.
  intros Hlo. symmetry. apply Z.add_nocarry_lor.
  apply Z.bits_inj'. intros n Hn. rewrite Z.land_spec, Z.bits_0.
  destruct (Z.lt_ge_cases n 8) as [Hlt|Hge].
  - replace (k * 256) with (Z.shiftl k 8) by (rewrite Z.shiftl_mul_pow2; lia).
    rewrite Z.shiftl_spec_low by lia. reflexivity.
  - destruct (Z.eq_dec lo 0) as [->|Hnz]; [rewrite Z.bits_0; apply andb_false_r|].
    rewrite (Z.bits_above_log2 lo n); [apply andb_false_r | lia |].
    apply Z.lt_le_trans with 8; [|exact Hge].
    apply Z.log2_lt_pow2; [lia|]. change (2 ^ 8) with 256. lia.
Qed.

Lemma s16_big_endian (hi lo : Z) :
  0 <= hi <= 255 -> 0 <= lo <= 255 ->
  Z.lor (to_int16 (Z.shiftl hi 8)) lo = to_int16 (hi * 256 + lo).
Proof.
  intros Hhi Hlo. rewrite Z.shiftl_mul_pow2 by lia. change (2 ^ 8) with 256.
  destruct (Z.lt_ge_cases hi 128) as [H|H].
  - replace (to_int16 (hi * 256)) with (hi * 256)
      by (unfold to_int16; rewrite Z.mod_small by lia; lia).
    rewrite lor_low_byte by exact Hlo.
    unfold to_int16. rewrite Z.mod_small by lia. lia.
  - replace (to_int16 (hi * 256)) with ((hi - 256) * 256).
    2:{ unfold to_int16.
        replace (hi * 256 + 32768) with ((hi * 256 - 32768) + 1 * 65536) by lia.
        rewrite Z.mod_add by lia. rewrite Z.mod_small by lia. lia. }
    rewrite lor_low_byte by exact Hlo.
    unfold to_int16.
    replace (hi * 256 + lo + 32768) with ((hi * 256 + lo - 32768) + 1 * 65536) by lia.
    rewrite Z.mod_add by lia. rewrite Z.mod_small by lia. lia.
Qed.

Lemma to_int16_range (z : Z) : -32768 <= to_int16 z <= 32767.
Proof.
  unfold to_int16. pose proof (Z.mod_pos_bound (z + 32768) 65536). lia.
Qed.

Lemma jump_ok (method : method_t) (f : frame) (i hi lo : Z) :
  wf_method method = true ->
  load (code (method_code method)) (pc f) = Some i ->
  load (code (method_code method)) (pc f + 1) = Some hi ->
  load (code (method_code method)) (pc f + 2) = Some lo ->
  branch_offset (code (method_code method)) (pc f) = Ok (to_int16 (hi * 256 + lo))
  /\ jump (code (method_code method)) f
     = Ok (to_size_t (pc f + to_int16 (hi * 256 + lo))).
Proof.
  intros Hm Hi Hhi Hlo.
  destruct (code_byte _ _ _ Hm Hi) as [Hpc _].
  destruct (code_byte _ _ _ Hm Hhi) as [_ Hh].
  destruct (code_byte _ _ _ Hm Hlo) as [_ Hl].
  assert (Hoff : branch_offset (code (method_code method)) (pc f)
                 = Ok (to_int16 (hi * 256 + lo))).
  { unfold branch_offset. rewrite !to_size_t_small by lia.
    rewrite Hhi, Hlo. cbn [defined bind].
    rewrite s16_big_endian by assumption. reflexivity. }
  split; [exact Hoff|].
  unfold jump. rewrite Hoff. cbn [bind]. f_equal.
  unfold to_size_t. rewrite Z.add_mod_idemp_r by lia. reflexivity.
Qed.

Lemma if_zero_ok (test : Z -> bool) (method : method_t) (f : frame) (w : world)
    (i hi lo a : Z) :
  wf_method method = true ->
  wf_frame method f = true ->
  load (code (method_code method)) (pc f) = Some i ->
  load (code (method_code method)) (pc f + 1) = Some hi ->
  load (code (method_code method)) (pc f + 2) = Some lo ->
  load (stack f) (stack_index f - 1) = Some a ->
  if_zero test (code (method_code method)) f w
  = Ok (Running (after_branch f
         (if test a then to_size_t (pc f + to_int16 (hi * 256 + lo)) else pc f + 3) 1) w).
Proof.
  intros Hm Hf Hi Hhi Hlo Ha.
  destruct (jump_ok method f i hi lo Hm Hi Hhi Hlo) as [_ Hj].
  destruct (code_byte _ _ _ Hm Hi) as [Hpc _].
  apply wf_method_inv in Hm as (Hms & _).
  apply wf_frame_inv in Hf as (Hsi & Hlen).
  pose proof (load_inv _ _ _ Ha) as [Hia _].
  unfold if_zero.
  replace (0 <? stack_index f) with true by lia. cbn [c_assert bind].
  rewrite !to_size_t_small by lia.
  rewrite Ha. cbn [defined bind].
  destruct (test a); [rewrite Hj|]; reflexivity.
Qed.

Lemma if_icmp_ok (test : Z -> Z -> bool) (method : method_t) (f : frame) (w : world)
    (i hi lo a b : Z) :
  wf_method method = true ->
  wf_frame method f = true ->
  load (code (method_code method)) (pc f) = Some i ->
  load (code (method_code method)) (pc f + 1) = Some hi ->
  load (code (method_code method)) (pc f + 2) = Some lo ->
  load (stack f) (stack_index f - 2) = Some a ->
  load (stack f) (stack_index f - 1) = Some b ->
  if_icmp test (code (method_code method)) f w
  = Ok (Running (after_branch f
         (if test a b then to_size_t (pc f + to_int16 (hi * 256 + lo)) else pc f + 3) 2) w).
Proof.
  intros Hm Hf Hi Hhi Hlo Ha Hb.
  destruct (jump_ok method f i hi lo Hm Hi Hhi Hlo) as [_ Hj].
  destruct (code_byte _ _ _ Hm Hi) as [Hpc _].
  apply wf_method_inv in Hm as (Hms & _).
  apply wf_frame_inv in Hf as (Hsi & Hlen).
  pose proof (load_inv _ _ _ Ha) as [Hia _].
  unfold if_icmp.
  replace (2 <=? stack_index f) with true by lia. cbn [c_assert bind].
  rewrite !to_size_t_small by lia.
  rewrite Ha, Hb. cbn [defined bind].
  destruct (test a b); [rewrite Hj|]; reflexivity.
Qed.

Ltac opcodes :=
  unfold i_ifeq, i_ifne, i_iflt, i_ifge, i_ifgt, i_ifle, i_if_icmpeq, i_if_icmpne,
    i_if_icmplt, i_if_icmpge, i_if_icmpgt, i_if_icmple, i_goto in *.

Ltac branch_case lem Hi p :=
  dispatch Hi; rewrite lem;
  match goal with
  | |- context [if ?t then _ else _] =>
      replace t with p by (unfold zero_predicate, compare_predicate in *; opcodes; lia)
  end; reflexivity.

(** C4: a branch target is [pc + s16], where [s16] is the big-endian 16-bit
    value of the two bytes after the opcode, sign-extended; the sum is taken
    in [size_t] and equals [pc + s16] whenever that is not negative, so a
    negative offset jumps backward. Each of [ifeq], [ifne], [iflt], [ifge],
    [ifgt], [ifle] pops one value and jumps by that offset exactly when its
    predicate holds against 0, and otherwise advances [pc] by 3; the
    two-operand comparisons and [goto] use the same target. *)
Theorem branch_targets
    (exec : method_t -> list Z -> world -> result (optional_value_t * world))
    (class : class_file_t) (method : method_t) (f : frame) (w : world)
    (instruction hi lo : Z) :
  wf_method method = true ->
  wf_frame method f = true ->
  load (code (method_code method)) (pc f) = Some instruction ->
  load (code (method_code method)) (pc f + 1) = Some hi ->
  load (code (method_code method)) (pc f + 2) = Some lo ->
  let s16 := to_int16 (hi * 256 + lo) in
  let target := to_size_t (pc f + s16) in
  branch_offset (code (method_code method)) (pc f) = Ok s16
  /\ (0 <= pc f + s16 -> target = pc f + s16)
  /\ (forall a : Z,
       In instruction [i_ifeq; i_ifne; i_iflt; i_ifge; i_ifgt; i_ifle] ->
       load (stack f) (stack_index f - 1) = Some a ->
       (zero_predicate instruction a ->
        step exec class method f w = Ok (Running (after_branch f target 1) w))
       /\ (~ zero_predicate instruction a ->
           step exec class method f w = Ok (Running (after_branch f (pc f + 3) 1) w)))
  /\ (forall a b : Z,
       In instruction [i_if_icmpeq; i_if_icmpne; i_if_icmplt;
                       i_if_icmpge; i_if_icmpgt; i_if_icmple] ->
       load (stack f) (stack_index f - 2) = Some a ->
       load (stack f) (stack_index f - 1) = Some b ->
       (compare_predicate instruction a b ->
        step exec class method f w = Ok (Running (after_branch f target 2) w))
       /\ (~ compare_predicate instruction a b ->
           step exec class method f w = Ok (Running (after_branch f (pc f + 3) 2) w)))
  /\ (instruction = i_goto ->
      step exec class method f w = Ok (Running (after_branch f target 0) w)).
Proof.
  intros Hm Hf Hi Hhi Hlo s16 target.
  destruct (jump_ok method f instruction hi lo Hm Hi Hhi Hlo) as [Hoff Hj].
  destruct (code_byte _ _ _ Hm Hi) as [Hpc _].
  pose proof (to_int16_range (hi * 256 + lo)) as Hr. fold s16 in Hr.
  split; [exact Hoff|]. split; [|split; [|split]].
  - intros H. unfold target. apply to_size_t_small. lia.
  - intros a Hin Ha.
    pose proof (fun t => if_zero_ok t method f w instruction hi lo a Hm Hf Hi Hhi Hlo Ha)
      as Hz.
    fold s16 in Hz. fold target in Hz.
    simpl in Hin.
    destruct Hin as [<-|[<-|[<-|[<-|[<-|[<-|[]]]]]]]; split; intros Hp.
    all: first [ branch_case Hz Hi true | branch_case Hz Hi false ].
  - intros a b Hin Ha Hb.
    pose proof (fun t => if_icmp_ok t method f w instruction hi lo a b Hm Hf Hi Hhi Hlo Ha Hb)
      as Hz.
    fold s16 in Hz. fold target in Hz.
    simpl in Hin.
    destruct Hin as [<-|[<-|[<-|[<-|[<-|[<-|[]]]]]]]; split; intros Hp.
    all: first [ branch_case Hz Hi true | branch_case Hz Hi false ].
  - intros ->. dispatch Hi. rewrite Hj. cbn [bind].
    unfold set_pc, after_branch. rewrite Z.sub_0_r. reflexivity.
Qed.

(** [ifeq] at [pc = 3] with offset [0xFFFD = -3] and a zero on the stack
    jumps back to [pc = 0]; [goto] at [pc = 2] with offset [0xFFFF = -1]
    jumps back to [pc = 1] and leaves the stack as it is. *)
Lemma branch_targets_witness :
  step no_call empty_class backward_branch at_backward_branch empty_world
  = Ok (Running {| pc := 0; stack_index := 0; stack := [0]; locals := [] |}
          empty_world)
  /\ step no_call empty_class (method_of 1 0 [i_nop; i_nop; i_goto; 0xFF; 0xFF] 0)
       {| pc := 2; stack_index := 1; stack := [7]; locals := [] |} empty_world
     = Ok (Running {| pc := 1; stack_index := 1; stack := [7]; locals := [] |}
             empty_world).
Proof.
  split.
  - refine (proj1 (proj1 (proj2 (proj2
      (branch_targets no_call empty_class backward_branch at_backward_branch
         empty_world i_ifeq 0xFF 0xFD _ _ _ _ _))) 0 _ _) _);
      try reflexivity.
    + left. reflexivity.
    + left. split; reflexivity.
  - refine (proj2 (proj2 (proj2 (proj2
      (branch_targets no_call empty_class
         (method_of 1 0 [i_nop; i_nop; i_goto; 0xFF; 0xFF] 0)
         {| pc := 2; stack_index := 1; stack := [7]; locals := [] |}
         empty_world i_goto 0xFF 0xFF _ _ _ _ _)))) _);
      reflexivity.
Defined.

(** * The state machine of a frame *)

Lemma unsupported_step
    (exec : method_t -> list Z -> world -> result (optional_value_t * world))
    (class : class_file_t) (method : method_t) (f : frame) (w : world)
    (instruction : Z) :
  load (code (method_code method)) (pc f) = Some instruction ->
  supported instruction = false ->
  step exec class method f w = Ok (Running f w).
Proof.
  intros Hi Hs. unfold supported in Hs.
  repeat (apply orb_false_iff in Hs; destruct Hs as [Hs ?]).
  unfold step. rewrite Hi. cbn [defined bind].
  repeat match goal with
  | H : ?t = false |- context [if ?t then _ else _] => rewrite H
  end.
  reflexivity.
Qed.

Lemma unsupported_loops (class : class_file_t) (method : method_t) (f : frame)
    (w : world) (instruction : Z) (fuel : nat) :
  pc f < code_length (method_code method) ->
  load (code (method_code method)) (pc f) = Some instruction ->
  supported instruction = false ->
  run fuel class method f w = OutOfFuel.
Proof.
  intros Hpc Hi Hs. induction fuel as [|fuel IH]; [reflexivity|].
  cbn [run]. replace (pc f <? code_length (method_code method)) with true by lia.
  rewrite (unsupported_step _ class method f w instruction Hi Hs).
  cbn [bind]. exact IH.
Qed.

(** C9 (the code falls short of it): on the byte [0x01], which no test of
    the dispatch chain matches, an iteration of the loop changes nothing,
    and [execute] neither aborts nor returns, whatever the fuel. *)
Theorem unsupported_opcode_never_aborts (fuel : nat) :
  step no_call empty_class unsupported_program
    (initial_frame unsupported_program []) empty_world
  = Ok (Running (initial_frame unsupported_program []) empty_world)
  /\ execute fuel unsupported_program [] empty_class empty_world = OutOfFuel.
Proof.
  split; [reflexivity|].
  apply (unsupported_loops empty_class unsupported_program _ _ 0x01);
    reflexivity.
Qed.

(** C10: once [pc] has reached or passed [code_length], [execute] leaves
    the loop and returns the void result ([has_value = false]) with the
    world as it is; in particular an instruction other than a return that
    moves [pc] there makes [execute] return void. *)
Theorem fall_off_returns_void (fuel : nat) (class : class_file_t)
    (method : method_t) (f : frame) (w : world) :
  code_length (method_code method) <= pc f ->
  run (S fuel) class method f w = Ok (void, w)
  /\ has_value void = false
  /\ (forall (f0 : frame) (w0 : world),
        pc f0 < code_length (method_code method) ->
        step (fun m ls w1 => execute (S fuel) m ls class w1) class method f0 w0
        = Ok (Running f w) ->
        run (S (S fuel)) class method f0 w0 = Ok (void, w)).
Proof.
  intros Hpc.
  assert (Hrun : run (S fuel) class method f w = Ok (void, w)).
  { cbn [run]. replace (pc f <? code_length (method_code method)) with false by lia.
    reflexivity. }
  split; [exact Hrun|]. split; [reflexivity|].
  intros f0 w0 Hpc0 Hstep.
  change (run (S (S fuel)) class method f0 w0) with
    (if pc f0 <? code_length (method_code method)
     then s <- step (fun m ls w1 => execute (S fuel) m ls class w1) class method f0 w0 ;;
          match s with
          | Running f' w' => run (S fuel) class method f' w'
          | Returned r w' => Ok (r, w')
          end
     else Ok (void, w0)).
  replace (pc f0 <? code_length (method_code method)) with true by lia.
  rewrite Hstep. cbn [bind]. exact Hrun.
Qed.

(** [run] on a frame past the end of a one-byte method returns void. *)
Lemma fall_off_returns_void_witness :
  run 1 empty_class (one_cell i_nop) past_the_end empty_world
  = Ok (void, empty_world).
Proof.
  refine (proj1 (fall_off_returns_void 0 empty_class (one_cell i_nop)
                   past_the_end empty_world _)).
  simpl. lia.
Defined.

Ltac bind_inv H :=
  repeat match type of H with
  | bind ?c ?k = Ok _ =>
      let a := fresh "x" in
      let Ha := fresh "Hx" in
      apply bind_Ok in H; destruct H as (a & Ha & H)
  | (let '(_, _) := ?p in _) = Ok _ => destruct p
  | (if ?b then _ else _) = Ok _ => destruct b eqn:?
  end.

Ltac running :=
  match goal with
  | H : _ = Ok ?s |- is_running ?s =>
      bind_inv H; injection H as <-; eexists; eexists; reflexivity
  end.

Lemma push_running f w v n s : push f w v n = Ok s -> is_running s.
Proof. unfold push. intros H. running. Qed.

Lemma pop_to_local_running f w i n s : pop_to_local f w i n = Ok s -> is_running s.
Proof. unfold pop_to_local. intros H. running. Qed.

Lemma binary_running op nz f w s : binary op nz f w = Ok s -> is_running s.
Proof. unfold binary. intros H. running. Qed.

Lemma if_zero_running t c f w s : if_zero t c f w = Ok s -> is_running s.
Proof. unfold if_zero. intros H. running. Qed.

Lemma if_icmp_running t c f w s : if_icmp t c f w = Ok s -> is_running s.
Proof. unfold if_icmp. intros H. running. Qed.

Lemma invokestatic_running exec class c f w s :
  invokestatic exec class c f w = Ok s -> is_running s.
Proof. unfold invokestatic. intros H. running. Qed.

Lemma newarray_running f w s : newarray f w = Ok s -> is_running s.
Proof. unfold newarray. intros H. running. Qed.

Lemma arraylength_running f w s : arraylength f w = Ok s -> is_running s.
Proof. unfold arraylength. intros H. running. Qed.

Lemma iastore_running f w s : iastore f w = Ok s -> is_running s.
Proof. unfold iastore. intros H. running. Qed.

Lemma iaload_running f w s : iaload f w = Ok s -> is_running s.
Proof. unfold iaload. intros H. running. Qed.

Lemma step_running exec class method f w instruction s :
  load (code (method_code method)) (pc f) = Some instruction ->
  instruction <> i_return -> instruction <> i_ireturn -> instruction <> i_areturn ->
  step exec class method f w = Ok s -> is_running s.
Proof.
  intros Hi H1 H2 H3. unfold step. rewrite Hi. cbn [defined bind].
  apply Z.eqb_neq in H1, H2, H3. rewrite H1, H2, H3.
  repeat match goal with
  | |- (if ?b then _ else _) = Ok _ -> _ => destruct b
  end; intros H;
  first [ apply push_running in H; exact H
        | apply pop_to_local_running in H; exact H
        | apply binary_running in H; exact H
        | apply if_zero_running in H; exact H
        | apply if_icmp_running in H; exact H
        | apply invokestatic_running in H; exact H
        | apply newarray_running in H; exact H
        | apply arraylength_running in H; exact H
        | apply iastore_running in H; exact H
        | apply iaload_running in H; exact H
        | idtac ].
  all: try (bind_inv H;
            first [ apply push_running in H; exact H
                  | apply pop_to_local_running in H; exact H
                  | injection H as <-; eexists; eexists; reflexivity ]).
Qed.

Ltac dispatch_in H Hi :=
  unfold step in H; rewrite Hi in H; cbn [defined bind] in H;
  repeat match type of H with
  | context [Z.eqb ?a ?b] =>
      let r := eval vm_compute in (Z.eqb a b) in
      match r with
      | true => change (Z.eqb a b) with true in H
      | false => change (Z.eqb a b) with false in H
      end
  | context [between ?a ?b ?c] =>
      let r := eval vm_compute in (between a b c) in
      match r with
      | true => change (between a b c) with true in H
      | false => change (between a b c) with false in H
      end
  end; cbv iota in H.

Lemma run_unfold (fuel : nat) (class : class_file_t) (method : method_t)
    (f : frame) (w : world) :
  run (S fuel) class method f w
  = if pc f <? code_length (method_code method)
    then s <- step (fun m ls w1 => execute fuel m ls class w1) class method f w ;;
         match s with
         | Running f' w' => run fuel class method f' w'
         | Returned r w' => Ok (r, w')
         end
    else Ok (void, w).
Proof. reflexivity. Qed.

Lemma step_returned exec class method f w r w' :
  step exec class method f w = Ok (Returned r w') ->
  exists instruction,
    load (code (method_code method)) (pc f) = Some instruction
    /\ w' = w
    /\ ((instruction = i_return /\ r = void)
        \/ ((instruction = i_ireturn \/ instruction = i_areturn)
            /\ exists top,
                 load (stack f) (to_size_t (stack_index f - 1)) = Some top
                 /\ r = {| has_value := true; value := top |})).
Proof.
  intros H.
  destruct (load (code (method_code method)) (pc f)) as [instruction|] eqn:Hi.
  2:{ unfold step in H. rewrite Hi in H. discriminate. }
  exists instruction. split; [reflexivity|].
  destruct (Z.eq_dec instruction i_return) as [E1|N1].
  { subst. dispatch_in H Hi. injection H as <- <-. auto. }
  destruct (Z.eq_dec instruction i_ireturn) as [E2|N2].
  { subst. dispatch_in H Hi. bind_inv H.
    apply defined_Ok in Hx. injection H as <- <-. eauto 10. }
  destruct (Z.eq_dec instruction i_areturn) as [E3|N3].
  { subst. dispatch_in H Hi. bind_inv H.
    apply defined_Ok in Hx. injection H as <- <-. eauto 10. }
  destruct (step_running _ _ _ _ _ _ _ Hi N1 N2 N3 H) as (f' & w0 & Hs).
  discriminate.
Qed.

Lemma run_result (fuel : nat) (class : class_file_t) (method : method_t)
    (f : frame) (w : world) (r : optional_value_t) (w' : world) :
  run fuel class method f w = Ok (r, w') -> r = void \/ has_value r = true.
Proof.
  revert method f w. induction fuel as [|fuel IH]; intros method f w H;
    [discriminate|].
  rewrite run_unfold in H.
  destruct (pc f <? code_length (method_code method)).
  - apply bind_Ok in H as (s & Hs & H). destruct s as [f' w0|r0 w0].
    + apply IH in H. exact H.
    + injection H as -> ->.
      apply step_returned in Hs as (i & _ & _ & [[_ ->]|[_ (top & _ & ->)]]);
        [left|right]; reflexivity.
  - injection H as <- _. left. reflexivity.
Qed.

(** C7: in every frame, [return] makes [execute] yield the void result,
    [ireturn] and [areturn] make it yield the value at the top of the
    operand stack, and an iteration on any other opcode that completes
    leaves the frame running; a returned state ends [execute] with that
    result, a running state goes on with the loop, and the result of
    [execute] is either void or a value. *)
Theorem frame_state_machine
    (exec : method_t -> list Z -> world -> result (optional_value_t * world))
    (class : class_file_t) (method : method_t) (f : frame) (w : world)
    (instruction : Z) :
  load (code (method_code method)) (pc f) = Some instruction ->
  (instruction = i_return -> step exec class method f w = Ok (Returned void w))
  /\ (instruction = i_ireturn \/ instruction = i_areturn ->
      wf_method method = true -> wf_frame method f = true ->
      forall top : Z,
        load (stack f) (stack_index f - 1) = Some top ->
        step exec class method f w
        = Ok (Returned {| has_value := true; value := top |} w))
  /\ (instruction <> i_return -> instruction <> i_ireturn ->
      instruction <> i_areturn ->
      forall s : status, step exec class method f w = Ok s -> is_running s)
  /\ (forall (fuel : nat) (r : optional_value_t) (w' : world),
        pc f < code_length (method_code method) ->
        step (fun m ls w1 => execute fuel m ls class w1) class method f w
        = Ok (Returned r w') ->
        run (S fuel) class method f w = Ok (r, w'))
  /\ (forall (fuel : nat) (f' : frame) (w' : world),
        pc f < code_length (method_code method) ->
        step (fun m ls w1 => execute fuel m ls class w1) class method f w
        = Ok (Running f' w') ->
        run (S fuel) class method f w = run fuel class method f' w')
  /\ (forall (fuel : nat) (r : optional_value_t) (w' : world),
        run fuel class method f w = Ok (r, w') ->
        r = void \/ has_value r = true).
Proof.
  intros Hi. repeat apply conj.
  - intros ->. dispatch Hi. reflexivity.
  - intros Hop Hm Hf top Htop.
    apply wf_method_inv in Hm as (Hms & _).
    apply wf_frame_inv in Hf as (Hsi & Hlen).
    pose proof (load_inv _ _ _ Htop) as [Hia _].
    destruct Hop as [-> | ->]; dispatch Hi;
      rewrite to_size_t_small by lia; rewrite Htop; reflexivity.
  - intros N1 N2 N3 s Hs. exact (step_running _ _ _ _ _ _ _ Hi N1 N2 N3 Hs).
  - intros fuel r w' Hpc Hs. rewrite run_unfold.
    replace (pc f <? code_length (method_code method)) with true by lia.
    rewrite Hs. reflexivity.
  - intros fuel f' w' Hpc Hs. rewrite run_unfold.
    replace (pc f <? code_length (method_code method)) with true by lia.
    rewrite Hs. reflexivity.
  - intros fuel r w' H. exact (run_result _ _ _ _ _ _ _ H).
Qed.

(** [ireturn] on a stack holding 42 returns 42. *)
Lemma frame_state_machine_witness :
  step no_call empty_class (one_cell i_ireturn) (one_operand 42) empty_world
  = Ok (Returned {| has_value := true; value := 42 |} empty_world).
Proof.
  refine (proj1 (proj2
    (frame_state_machine no_call empty_class (one_cell i_ireturn) (one_operand 42)
       empty_world i_ireturn _)) _ _ _ 42 _);
    try reflexivity.
  left. reflexivity.
Defined.

(** * The calling convention *)

Lemma load_in {A : Type} (a : list A) (i : Z) :
  0 <= i < Z.of_nat (length a) -> exists v, load a i = Some v.
Proof.
  intros H. rewrite load_lookup by exact H.
  destruct (lookup_lt_is_Some_2 a (Z.to_nat i)) as [v Hv]; [lia|].
  exists v. exact Hv.
Qed.

Lemma to_int16_small (z : Z) : -32768 <= z <= 32767 -> to_int16 z = z.
Proof. intros H. unfold to_int16. rewrite Z.mod_small by lia. lia. Qed.

Lemma copy_parameters_ok (n : nat) (i P : Z) (stack : list Z) (si : Z)
    (local_temp : list Z) :
  0 <= i -> i + Z.of_nat n = P -> P <= si -> si <= Z.of_nat (length stack) ->
  si < 18446744073709551616 -> P <= Z.of_nat (length local_temp) ->
  exists local_temp',
    copy_parameters n i P stack si local_temp = Some local_temp'
    /\ length local_temp' = length local_temp
    /\ (forall j, 0 <= j < P - i -> load local_temp' j = load stack (si - P + j))
    /\ (forall j, P - i <= j -> load local_temp' j = load local_temp j).
Proof.
  revert i local_temp. induction n as [|n IH]; intros i lt Hi Hn HP Hsi Hmax Hlt.
  - exists lt. cbn [copy_parameters].
    split; [reflexivity|]. split; [reflexivity|]. split; [|reflexivity].
    intros j Hj. lia.
  - cbn [copy_parameters]. rewrite to_size_t_small by lia.
    destruct (load_in stack (si - i - 1)) as [v Hv]; [lia|]. rewrite Hv.
    assert (Hst : store lt (P - i - 1) v = Some (<[Z.to_nat (P - i - 1) := v]> lt))
      by (apply store_in; lia).
    rewrite Hst.
    destruct (IH (i + 1) (<[Z.to_nat (P - i - 1) := v]> lt)) as (lt' & Hc & Hl & Hlow & Hhigh);
      try lia; try (rewrite length_insert; lia).
    exists lt'. split; [exact Hc|]. split; [rewrite Hl; apply length_insert|]. split.
    + intros j Hj. destruct (Z.eq_dec j (P - i - 1)) as [->|Hne].
      * rewrite Hhigh by lia. rewrite (load_store_same _ _ _ _ Hst).
        rewrite <- Hv. f_equal. lia.
      * apply Hlow. lia.
    + intros j Hj. rewrite Hhigh by lia.
      apply (load_store_other _ _ _ _ _ Hst). lia.
Qed.

Lemma copy_parameters_locals (f : frame) (callee : method_t) :
  let P := get_number_of_parameters callee in
  0 <= P -> P <= stack_index f -> stack_index f <= Z.of_nat (length (stack f)) ->
  stack_index f < 18446744073709551616 ->
  P <= max_locals (method_code callee) ->
  copy_parameters (Z.to_nat P) 0 P (stack f) (stack_index f)
    (calloc (max_locals (method_code callee)))
  = Some (callee_locals f callee).
Proof.
  intros P HP Hsi Hlen Hmax Hml.
  destruct (copy_parameters_ok (Z.to_nat P) 0 P (stack f) (stack_index f)
              (calloc (max_locals (method_code callee))))
    as (lt & Hc & Hl & Hlow & Hhigh); try lia.
  { unfold calloc. rewrite length_replicate. lia. }
  rewrite Hc. f_equal.
  unfold calloc in *. rewrite length_replicate in Hl.
  assert (Hargs : length (arguments f P) = Z.to_nat P).
  { unfold arguments. rewrite length_take, length_drop. lia. }
  apply list_eq. intros k. unfold callee_locals. fold P.
  destruct (Nat.lt_ge_cases k (Z.to_nat P)) as [Hk|Hk].
  - rewrite lookup_app_l by lia.
    unfold arguments. rewrite lookup_take_lt by lia. rewrite lookup_drop.
    specialize (Hlow (Z.of_nat k)).
    rewrite !load_lookup in Hlow by lia.
    rewrite Nat2Z.id in Hlow. rewrite Hlow by lia. f_equal. lia.
  - rewrite lookup_app_r by lia. rewrite Hargs.
    destruct (Nat.lt_ge_cases k (Z.to_nat (max_locals (method_code callee)))) as [Hk2|Hk2].
    + specialize (Hhigh (Z.of_nat k)).
      rewrite !load_lookup in Hhigh by (rewrite ?length_replicate; lia).
      rewrite Nat2Z.id in Hhigh. rewrite Hhigh by lia.
      rewrite !lookup_replicate_2 by lia. reflexivity.
    + rewrite lookup_ge_None_2 by lia.
      rewrite lookup_ge_None_2 by (rewrite length_replicate; lia). reflexivity.
Qed.

Lemma arguments_length (f : frame) (P : Z) :
  0 <= P -> P <= stack_index f -> stack_index f <= Z.of_nat (length (stack f)) ->
  length (arguments f P) = Z.to_nat P.
Proof.
  intros HP Hsi Hlen. unfold arguments. rewrite length_take, length_drop. lia.
Qed.

Lemma callee_locals_spec (f : frame) (callee : method_t) :
  let P := get_number_of_parameters callee in
  0 <= P -> P <= stack_index f -> stack_index f <= Z.of_nat (length (stack f)) ->
  P <= max_locals (method_code callee) ->
  Z.of_nat (length (callee_locals f callee)) = max_locals (method_code callee)
  /\ (forall i : Z, 0 <= i < P ->
        load (callee_locals f callee) (P - 1 - i)
        = load (stack f) (stack_index f - 1 - i))
  /\ (forall j : Z, P <= j < max_locals (method_code callee) ->
        load (callee_locals f callee) j = Some 0).
Proof.
  intros P HP Hsi Hlen Hml.
  pose proof (arguments_length f P HP Hsi Hlen) as Hargs.
  assert (Hl : Z.of_nat (length (callee_locals f callee))
               = max_locals (method_code callee)).
  { unfold callee_locals. fold P. rewrite length_app, Hargs, length_replicate. lia. }
  split; [exact Hl|]. split.
  - intros i Hi. rewrite !load_lookup by lia.
    unfold callee_locals. fold P. rewrite lookup_app_l by lia.
    unfold arguments. rewrite lookup_take_lt by lia. rewrite lookup_drop.
    f_equal. lia.
  - intros j Hj. rewrite load_lookup by lia.
    unfold callee_locals. fold P. rewrite lookup_app_r by lia.
    apply lookup_replicate_2. lia.
Qed.

(** C1: at [invokestatic] with a callee of [P] parameters, the interpreter
    pops [P] values off the caller's stack into a callee-locals array of
    length [max_locals], zero beyond the parameters, in which the value
    popped first (the top) lands in slot [P - 1] and the value popped last in
    slot 0; after the callee returns, its value, if any, is pushed onto the
    caller's stack and the caller's [pc] advances by 3. *)
Theorem invokestatic_convention
    (exec : method_t -> list Z -> world -> result (optional_value_t * world))
    (class : class_file_t) (method : method_t) (f : frame) (w : world)
    (hi lo : Z) (callee : method_t) (val : optional_value_t) (w' : world) :
  wf_method method = true ->
  wf_frame method f = true ->
  load (code (method_code method)) (pc f) = Some i_invokestatic ->
  load (code (method_code method)) (pc f + 1) = Some hi ->
  load (code (method_code method)) (pc f + 2) = Some lo ->
  find_method_from_index class (to_int16 (hi * 256 + lo)) = Some callee ->
  0 <= get_number_of_parameters callee <= 32767 ->
  get_number_of_parameters callee <= stack_index f ->
  get_number_of_parameters callee <= max_locals (method_code callee) ->
  exec callee (callee_locals f callee) w = Ok (val, w') ->
  (has_value val = true ->
   stack_index f - get_number_of_parameters callee < max_stack (method_code method)) ->
  Z.of_nat (length (callee_locals f callee)) = max_locals (method_code callee)
  /\ (forall i : Z, 0 <= i < get_number_of_parameters callee ->
        load (callee_locals f callee) (get_number_of_parameters callee - 1 - i)
        = load (stack f) (stack_index f - 1 - i))
  /\ (forall j : Z,
        get_number_of_parameters callee <= j < max_locals (method_code callee) ->
        load (callee_locals f callee) j = Some 0)
  /\ step exec class method f w
     = Ok (Running (after_call f (get_number_of_parameters callee) val) w').
Proof.
  intros Hm Hf Hi Hhi Hlo Hfind HP Hsi Hml Hexec Hroom.
  destruct (code_byte _ _ _ Hm Hi) as [Hpc _].
  destruct (code_byte _ _ _ Hm Hhi) as [_ Hh].
  destruct (code_byte _ _ _ Hm Hlo) as [_ Hl].
  apply wf_method_inv in Hm as (Hms & _).
  apply wf_frame_inv in Hf as (Hsi0 & Hlen).
  destruct (callee_locals_spec f callee) as (H1 & H2 & H3); try lia.
  split; [exact H1|]. split; [exact H2|]. split; [exact H3|].
  dispatch Hi. unfold invokestatic.
  rewrite !to_size_t_small by lia.
  rewrite Hhi, Hlo. cbn [defined bind].
  rewrite s16_big_endian by assumption.
  rewrite (to_int16_small (to_int16 _)) by apply to_int16_range.
  rewrite Hfind. cbn [defined bind].
  rewrite (to_int16_small (get_number_of_parameters callee)) by lia.
  rewrite copy_parameters_locals by lia. cbn [defined bind].
  rewrite Hexec. cbn [bind].
  rewrite (to_size_t_small (stack_index f - _)) by lia.
  unfold after_call. destruct (has_value val) eqn:Hv.
  - rewrite store_in by (specialize (Hroom eq_refl); lia).
    cbn [defined bind]. rewrite to_size_t_small by lia. reflexivity.
  - rewrite Z.add_0_r. reflexivity.
Qed.

(** With 10 pushed before 3, a callee that returns its slot 0 returns 10,
    which replaces the two arguments on the caller's stack. *)
Lemma invokestatic_convention_witness :
  step (fun m ls w => execute 3 m ls caller_class w) caller_class caller at_call
    empty_world
  = Ok (Running {| pc := 3; stack_index := 1; stack := [10; 3]; locals := [] |}
          empty_world).
Proof.
  refine (proj2 (proj2 (proj2
    (invokestatic_convention (fun m ls w => execute 3 m ls caller_class w)
       caller_class caller at_call empty_world 0 2 first_of_two
       {| has_value := true; value := 10 |} empty_world _ _ _ _ _ _ _ _ _ _ _))));
    try reflexivity; simpl; lia.
Defined.

(** * Arrays *)

Lemma zero_fill_replicate (k : nat) (i : Z) (m : nat) :
  0 <= i -> i + Z.of_nat k <= Z.of_nat m ->
  zero_fill k i (replicate m 0) = Some (replicate m 0).
Proof.
  revert i. induction k as [|k IH]; intros i Hi Hk; [reflexivity|].
  cbn [zero_fill]. rewrite store_in by (rewrite length_replicate; lia).
  rewrite insert_replicate. apply IH; lia.
Qed.

Lemma newarray_ok (method : method_t) (f : frame) (w : world) (i n : Z) :
  wf_method method = true ->
  wf_frame method f = true ->
  load (code (method_code method)) (pc f) = Some i ->
  load (stack f) (stack_index f - 1) = Some n ->
  0 <= n < INT32_MAX ->
  newarray f w
  = Ok (Running (after_newarray f (Z.of_nat (length (heap w))))
          {| heap := heap w ++ [n :: replicate (Z.to_nat n) 0];
             stdout := stdout w |}).
Proof.
  intros Hm Hf Hi Hn Hr. unfold INT32_MAX in Hr.
  destruct (code_byte _ _ _ Hm Hi) as [Hpc _].
  apply wf_method_inv in Hm as (Hms & _).
  apply wf_frame_inv in Hf as (Hsi & Hlen).
  pose proof (load_inv _ _ _ Hn) as [Hin _].
  unfold newarray. rewrite !to_size_t_small by lia.
  rewrite Hn. cbn [defined bind].
  rewrite (to_int32_small (n + 1)) by (unfold is_int32, INT32_MIN, INT32_MAX; lia).
  unfold calloc. replace (n + 1 - 1) with n by lia.
  rewrite zero_fill_replicate by lia. cbn [defined bind].
  rewrite store_in by (rewrite length_replicate; lia).
  cbn [defined bind].
  replace (Z.to_nat (n + 1)) with (S (Z.to_nat n)) by lia.
  change (<[Z.to_nat 0 := n]> (replicate (S (Z.to_nat n)) 0))
    with (n :: replicate (Z.to_nat n) 0).
  unfold heap_add. rewrite store_in by lia. reflexivity.
Qed.

Lemma arraylength_ok (method : method_t) (f : frame) (w : world)
    (i ref n : Z) (elems : list Z) :
  wf_method method = true ->
  wf_frame method f = true ->
  load (code (method_code method)) (pc f) = Some i ->
  load (stack f) (stack_index f - 1) = Some ref ->
  load (heap w) ref = Some (n :: elems) ->
  arraylength f w = Ok (Running (after_arraylength f n) w).
Proof.
  intros Hm Hf Hi Hr Ha.
  destruct (code_byte _ _ _ Hm Hi) as [Hpc _].
  apply wf_method_inv in Hm as (Hms & _).
  apply wf_frame_inv in Hf as (Hsi & Hlen).
  pose proof (load_inv _ _ _ Hr) as [Hin _].
  unfold arraylength, heap_get. rewrite !to_size_t_small by lia.
  rewrite Hr. cbn [defined bind]. rewrite Ha. cbn [defined bind].
  change (load (n :: elems) 0) with (Some n). cbn [defined bind].
  rewrite store_in by lia. reflexivity.
Qed.

Lemma iaload_ok (method : method_t) (f : frame) (w : world)
    (i ref j v : Z) (arr : list Z) :
  wf_method method = true ->
  wf_frame method f = true ->
  load (code (method_code method)) (pc f) = Some i ->
  load (stack f) (stack_index f - 2) = Some ref ->
  load (stack f) (stack_index f - 1) = Some j ->
  load (heap w) ref = Some arr ->
  is_int32 (j + 1) ->
  load arr (j + 1) = Some v ->
  iaload f w = Ok (Running (binary_result f v) w).
Proof.
  intros Hm Hf Hi Hr Hj Ha Hj1 Hv.
  destruct (code_byte _ _ _ Hm Hi) as [Hpc _].
  apply wf_method_inv in Hm as (Hms & _).
  apply wf_frame_inv in Hf as (Hsi & Hlen).
  pose proof (load_inv _ _ _ Hr) as [Hin _].
  unfold iaload, heap_get. rewrite !to_size_t_small by lia.
  rewrite Hr. cbn [defined bind]. rewrite Ha. cbn [defined bind].
  rewrite Hj. cbn [defined bind]. rewrite to_int32_small by exact Hj1.
  rewrite Hv. cbn [defined bind].
  rewrite store_in by lia. reflexivity.
Qed.

Lemma iastore_ok (method : method_t) (f : frame) (w : world)
    (i ref j v : Z) (arr : list Z) :
  wf_method method = true ->
  wf_frame method f = true ->
  load (code (method_code method)) (pc f) = Some i ->
  load (stack f) (stack_index f - 3) = Some ref ->
  load (stack f) (stack_index f - 2) = Some j ->
  load (stack f) (stack_index f - 1) = Some v ->
  load (heap w) ref = Some arr ->
  is_int32 (j + 1) ->
  0 <= j + 1 < Z.of_nat (length arr) ->
  iastore f w
  = Ok (Running (after_iastore f)
          {| heap := <[Z.to_nat ref := <[Z.to_nat (j + 1) := v]> arr]> (heap w);
             stdout := stdout w |}).
Proof.
  intros Hm Hf Hi Hr Hj Hv Ha Hj1 Hin.
  destruct (code_byte _ _ _ Hm Hi) as [Hpc _].
  apply wf_method_inv in Hm as (Hms & _).
  apply wf_frame_inv in Hf as (Hsi & Hlen).
  pose proof (load_inv _ _ _ Hr) as [Hir _].
  pose proof (load_inv _ _ _ Ha) as [Hia _].
  unfold iastore, heap_get, heap_set. rewrite !to_size_t_small by lia.
  rewrite Hr. cbn [defined bind]. rewrite Ha. cbn [defined bind].
  rewrite Hj. cbn [defined bind]. rewrite Hv. cbn [defined bind].
  rewrite to_int32_small by exact Hj1.
  rewrite store_in by lia. cbn [defined bind].
  rewrite store_in by lia. reflexivity.
Qed.

Lemma load_app_l {A : Type} (a b : list A) (i : Z) (v : A) :
  load a i = Some v -> load (a ++ b) i = Some v.
Proof.
  intros H. apply load_inv in H as [Hi Hv].
  rewrite load_lookup by (rewrite length_app; lia).
  apply lookup_app_l_Some. exact Hv.
Qed.

Lemma load_app_new {A : Type} (a : list A) (x : A) :
  load (a ++ [x]) (Z.of_nat (length a)) = Some x.
Proof.
  rewrite load_lookup by (rewrite length_app; simpl; lia).
  rewrite Nat2Z.id. apply list_lookup_middle. reflexivity.
Qed.

Lemma allocated_heap (class : class_file_t) (w w' : world) (allocs : list (Z * Z)) :
  allocated class w allocs w' ->
  (forall (r : Z) (arr : list Z),
     load (heap w) r = Some arr -> load (heap w') r = Some arr)
  /\ (forall L r : Z, In (L, r) allocs ->
        0 <= L < INT32_MAX
        /\ load (heap w') r = Some (L :: replicate (Z.to_nat L) 0)).
Proof.
  induction 1 as [w | exec method f f' w w' w'' L r rest Hm Hf Hi HL Hr Hstep Href _ IH].
  - split; [auto|]. intros L r [].
  - destruct IH as [IHkeep IHin].
    dispatch_in Hstep Hi.
    rewrite (newarray_ok method f w i_newarray L Hm Hf Hi HL Hr) in Hstep.
    injection Hstep as <- <-.
    cbn [after_newarray stack stack_index heap] in *.
    pose proof (load_inv _ _ _ HL) as [Hin _].
    assert (Hstore : store (stack f) (stack_index f - 1) (Z.of_nat (length (heap w)))
                     = Some (<[Z.to_nat (stack_index f - 1) := Z.of_nat (length (heap w))]>
                               (stack f)))
      by (apply store_in; exact Hin).
    rewrite (load_store_same _ _ _ _ Hstore) in Href. injection Href as <-.
    split.
    + intros r arr Ha. apply IHkeep. apply load_app_l. exact Ha.
    + intros L0 r0 [Heq|Hin0].
      * injection Heq as <- <-. split; [exact Hr|].
        apply IHkeep. apply load_app_new.
      * apply IHin. exact Hin0.
Qed.

Lemma allocated_snoc (class : class_file_t) (w w' w'' : world)
    (allocs : list (Z * Z)) (L r : Z) :
  allocated class w allocs w' ->
  allocated class w' [(L, r)] w'' ->
  allocated class w (allocs ++ [(L, r)]) w''.
Proof.
  induction 1 as [w | exec method f f' w w' w0 L0 r0 rest Hm Hf Hi HL Hr Hstep Href _ IH];
    intros Hlast.
  - exact Hlast.
  - simpl. eapply allocated_cons; eauto.
Qed.

Lemma zeroed_array_load (L j : Z) :
  0 <= j < L -> load (L :: replicate (Z.to_nat L) 0) (j + 1) = Some 0.
Proof.
  intros Hj. rewrite load_lookup by (simpl; rewrite length_replicate; lia).
  replace (Z.to_nat (j + 1)) with (S (Z.to_nat j)) by lia.
  cbn [lookup list_lookup]. apply lookup_replicate_2. lia.
Qed.

(** C3: after any sequence of [newarray] executions with lengths
    [L1 .. Ln] (each at least 0 and below [INT32_MAX], so that the count
    [L + 1] is an [int]), every returned reference [r_i] refers to a zeroed
    array: [arraylength] on [r_i] yields [L_i], [iaload] yields 0 at every
    index in [0, L_i), and [iastore] of [v] at such an index [j] followed by
    [iaload] at [j] yields [v] and leaves the length as it was. A further
    [newarray] with such a length always succeeds and extends the
    sequence. *)
Theorem newarray_roundtrip (class : class_file_t) (w0 w : world)
    (allocs : list (Z * Z)) (L r : Z) :
  allocated class w0 allocs w ->
  In (L, r) allocs ->
  0 <= L
  /\ (forall exec method f,
        wf_method method = true -> wf_frame method f = true ->
        load (code (method_code method)) (pc f) = Some i_arraylength ->
        load (stack f) (stack_index f - 1) = Some r ->
        step exec class method f w = Ok (Running (after_arraylength f L) w))
  /\ (forall exec method f j,
        wf_method method = true -> wf_frame method f = true ->
        load (code (method_code method)) (pc f) = Some i_iaload ->
        load (stack f) (stack_index f - 2) = Some r ->
        load (stack f) (stack_index f - 1) = Some j ->
        0 <= j < L ->
        step exec class method f w = Ok (Running (binary_result f 0) w))
  /\ (forall exec method f j v,
        wf_method method = true -> wf_frame method f = true ->
        load (code (method_code method)) (pc f) = Some i_iastore ->
        load (stack f) (stack_index f - 3) = Some r ->
        load (stack f) (stack_index f - 2) = Some j ->
        load (stack f) (stack_index f - 1) = Some v ->
        0 <= j < L ->
        exists w1,
          step exec class method f w = Ok (Running (after_iastore f) w1)
          /\ (forall exec2 method2 f2,
                wf_method method2 = true -> wf_frame method2 f2 = true ->
                load (code (method_code method2)) (pc f2) = Some i_iaload ->
                load (stack f2) (stack_index f2 - 2) = Some r ->
                load (stack f2) (stack_index f2 - 1) = Some j ->
                step exec2 class method2 f2 w1
                = Ok (Running (binary_result f2 v) w1))
          /\ (forall exec2 method2 f2,
                wf_method method2 = true -> wf_frame method2 f2 = true ->
                load (code (method_code method2)) (pc f2) = Some i_arraylength ->
                load (stack f2) (stack_index f2 - 1) = Some r ->
                step exec2 class method2 f2 w1
                = Ok (Running (after_arraylength f2 L) w1)))
  /\ (forall exec method f L',
        wf_method method = true -> wf_frame method f = true ->
        load (code (method_code method)) (pc f) = Some i_newarray ->
        load (stack f) (stack_index f - 1) = Some L' ->
        0 <= L' < INT32_MAX ->
        exists f' w' r',
          step exec class method f w = Ok (Running f' w')
          /\ load (stack f') (stack_index f' - 1) = Some r'
          /\ allocated class w0 (allocs ++ [(L', r')]) w').
Proof.
  intros Hall Hin.
  destruct (allocated_heap class w0 w allocs Hall) as [_ Hh].
  destruct (Hh L r Hin) as [HL Harr]. unfold INT32_MAX in HL.
  split; [lia|]. split; [|split; [|split]].
  - intros exec method f Hm Hf Hi Hr. dispatch Hi.
    exact (arraylength_ok method f w _ r L _ Hm Hf Hi Hr Harr).
  - intros exec method f j Hm Hf Hi Hr Hj Hrange. dispatch Hi.
    apply (iaload_ok method f w _ r j 0 _ Hm Hf Hi Hr Hj Harr).
    + unfold is_int32, INT32_MIN, INT32_MAX. lia.
    + apply zeroed_array_load. exact Hrange.
  - intros exec method f j v Hm Hf Hi Hr Hj Hv Hrange.
    pose proof (load_inv _ _ _ Harr) as [Hir _].
    set (w1 := {| heap := <[Z.to_nat r := <[Z.to_nat (j + 1) := v]>
                              (L :: replicate (Z.to_nat L) 0)]> (heap w);
                  stdout := stdout w |}).
    assert (Hnew : load (heap w1) r
                   = Some (<[Z.to_nat (j + 1) := v]> (L :: replicate (Z.to_nat L) 0))).
    { apply (load_store_same (heap w)). apply store_in. exact Hir. }
    exists w1. split; [|split].
    + dispatch Hi.
      apply (iastore_ok method f w _ r j v _ Hm Hf Hi Hr Hj Hv Harr).
      * unfold is_int32, INT32_MIN, INT32_MAX. lia.
      * simpl. rewrite length_replicate. lia.
    + intros exec2 method2 f2 Hm2 Hf2 Hi2 Hr2 Hj2. dispatch Hi2.
      apply (iaload_ok method2 f2 w1 _ r j v _ Hm2 Hf2 Hi2 Hr2 Hj2 Hnew).
      * unfold is_int32, INT32_MIN, INT32_MAX. lia.
      * apply (load_store_same (L :: replicate (Z.to_nat L) 0)).
        apply store_in. simpl. rewrite length_replicate. lia.
    + intros exec2 method2 f2 Hm2 Hf2 Hi2 Hr2. dispatch Hi2.
      replace (Z.to_nat (j + 1)) with (S (Z.to_nat j)) in Hnew by lia.
      exact (arraylength_ok method2 f2 w1 _ r L _ Hm2 Hf2 Hi2 Hr2 Hnew).
  - intros exec method f L' Hm Hf Hi HL' Hrange.
    pose proof (newarray_ok method f w _ L' Hm Hf Hi HL' Hrange) as Hnew.
    assert (Hstep : step exec class method f w
                    = Ok (Running (after_newarray f (Z.of_nat (length (heap w))))
                            {| heap := heap w ++ [L' :: replicate (Z.to_nat L') 0];
                               stdout := stdout w |}))
      by (dispatch Hi; exact Hnew).
    pose proof (load_inv _ _ _ HL') as [Hil _].
    assert (Href : load (stack (after_newarray f (Z.of_nat (length (heap w)))))
                     (stack_index (after_newarray f (Z.of_nat (length (heap w)))) - 1)
                   = Some (Z.of_nat (length (heap w)))).
    { cbn [after_newarray stack stack_index].
      apply (load_store_same (stack f)). apply store_in. exact Hil. }
    eexists. eexists. eexists. split; [exact Hstep|]. split; [exact Href|].
    apply (allocated_snoc class w0 w _ allocs _ _ Hall).
    exact (allocated_cons class exec method f _ w _ _ L' _ [] Hm Hf Hi HL' Hrange
             Hstep Href (allocated_nil class _)).
Qed.

(** After [newarray 3] and [newarray 2], [arraylength] on the second
    reference yields 2. *)
Lemma newarray_roundtrip_witness :
  step no_call empty_class (one_cell i_arraylength) (one_operand 1) two_arrays
  = Ok (Running {| pc := 1; stack_index := 1; stack := [2]; locals := [] |}
          two_arrays).
Proof.
  refine (proj1 (proj2
    (newarray_roundtrip empty_class empty_world two_arrays [(3, 0); (2, 1)] 2 1 _ _))
    no_call (one_cell i_arraylength) (one_operand 1) _ _ _ _);
    try reflexivity.
  - apply (allocated_cons empty_class no_call newarray_method (one_operand 3)
             {| pc := 2; stack_index := 1; stack := [0]; locals := [] |}
             empty_world {| heap := [[3; 0; 0; 0]]; stdout := [] |} two_arrays);
      try reflexivity; [unfold INT32_MAX; lia|].
    apply (allocated_cons empty_class no_call newarray_method (one_operand 2)
             {| pc := 2; stack_index := 1; stack := [1]; locals := [] |}
             {| heap := [[3; 0; 0; 0]]; stdout := [] |} two_arrays two_arrays);
      try reflexivity; [unfold INT32_MAX; lia|].
    apply allocated_nil.
  - right. left. reflexivity.
Defined.

(** * The depth of the operand stack *)

Ltac facts :=
  repeat match goal with
  | H : defined _ = Ok _ |- _ => apply defined_Ok in H
  | H : c_assert _ = Ok _ |- _ => apply c_assert_Ok in H
  | H : store _ _ _ = Some _ |- _ => apply store_inv in H as [? ->]
  | H : load _ _ = Some _ |- _ => apply load_inv in H as [? _]
  end.

Ltac depth H :=
  bind_inv H; injection H as <- <-; facts;
  unfold depth_change; cbn [stack_index stack set_pc];
  rewrite ?length_insert;
  unfold to_size_t in *; Z.div_mod_to_equations; lia.

(** The reads of the copy loop stay inside the stack. *)
Lemma copy_parameters_reads (n : nat) (i P : Z) (stack : list Z) (si : Z)
    (lt lt' : list Z) :
  copy_parameters n i P stack si lt = Some lt' ->
  forall k : Z, i <= k < i + Z.of_nat n ->
    0 <= to_size_t (si - k - 1) < Z.of_nat (length stack).
Proof.
  revert i lt. induction n as [|n IH]; intros i lt H k Hk; [lia|].
  cbn [copy_parameters] in H.
  destruct (load stack (to_size_t (si - i - 1))) as [v|] eqn:Hv; [|discriminate].
  destruct (store lt (P - i - 1) v) as [lt0|]; [|discriminate].
  destruct (Z.eq_dec k i) as [->|Hne].
  - apply load_inv in Hv as [Hv _]. exact Hv.
  - apply (IH (i + 1) lt0 H). lia.
Qed.

(** One iteration from a frame whose depth is within the stack. *)
Section Depth.

Variable m : method_t.
Variable f : frame.
Hypothesis Hms : 0 <= max_stack (method_code m) <= 65535.
Hypothesis Hsi : 0 <= stack_index f <= max_stack (method_code m).
Hypothesis Hlen : Z.of_nat (length (stack f)) = max_stack (method_code m).

Lemma push_depth w v n f' w' :
  push f w v n = Ok (Running f' w') -> depth_change m f f' 1.
Proof using Hms Hsi Hlen. unfold push. intros H. depth H. Qed.

Lemma pop_to_local_depth w i n f' w' :
  pop_to_local f w i n = Ok (Running f' w') -> depth_change m f f' (-1).
Proof using Hms Hsi Hlen. unfold pop_to_local. intros H. depth H. Qed.

Lemma binary_depth op nz w f' w' :
  binary op nz f w = Ok (Running f' w') -> depth_change m f f' (-1).
Proof using Hms Hsi Hlen. unfold binary. intros H. depth H. Qed.

Lemma if_zero_depth t c w f' w' :
  if_zero t c f w = Ok (Running f' w') -> depth_change m f f' (-1).
Proof using Hms Hsi Hlen. unfold if_zero. intros H. depth H. Qed.

Lemma if_icmp_depth t c w f' w' :
  if_icmp t c f w = Ok (Running f' w') -> depth_change m f f' (-2).
Proof using Hms Hsi Hlen. unfold if_icmp. intros H. depth H. Qed.

Lemma newarray_depth w f' w' :
  newarray f w = Ok (Running f' w') -> depth_change m f f' 0.
Proof using Hms Hsi Hlen. unfold newarray. intros H. depth H. Qed.

Lemma arraylength_depth w f' w' :
  arraylength f w = Ok (Running f' w') -> depth_change m f f' 0.
Proof using Hms Hsi Hlen. unfold arraylength. intros H. depth H. Qed.

Lemma iastore_depth w f' w' :
  iastore f w = Ok (Running f' w') -> depth_change m f f' (-3).
Proof using Hms Hsi Hlen. unfold iastore. intros H. depth H. Qed.

Lemma iaload_depth w f' w' :
  iaload f w = Ok (Running f' w') -> depth_change m f f' (-1).
Proof using Hms Hsi Hlen. unfold iaload. intros H. depth H. Qed.


Lemma invokestatic_depth exec class c w f' w' :
  wf_class class ->
  invokestatic exec class c f w = Ok (Running f' w') ->
  exists (i : Z) (callee : method_t) (ls : list Z) (val : optional_value_t) (w0 : world),
    find_method_from_index class i = Some callee
    /\ exec callee ls w = Ok (val, w0)
    /\ depth_change m f f'
         ((if has_value val then 1 else 0) - get_number_of_parameters callee).
Proof using Hms Hsi Hlen.
  intros Hc H. unfold invokestatic in H.
  apply bind_Ok in H as (hi & _ & H). apply bind_Ok in H as (lo & _ & H).
  apply bind_Ok in H as (callee & Hfind & H). apply defined_Ok in Hfind.
  pose proof (Hc _ _ Hfind) as HP.
  rewrite (to_int16_small (get_number_of_parameters callee)) in H by lia.
  apply bind_Ok in H as (ls & Hcopy & H). apply defined_Ok in Hcopy.
  apply bind_Ok in H as ([val w0] & Hexec & H).
  eexists _, callee, ls, val, w0. split; [exact Hfind|]. split; [exact Hexec|].
  assert (Hle : get_number_of_parameters callee <= stack_index f).
  { destruct (Z.eq_dec (get_number_of_parameters callee) 0) as [->|Hnz]; [lia|].
    pose proof (copy_parameters_reads _ _ _ _ _ _ _ Hcopy
                  (get_number_of_parameters callee - 1)) as Hr.
    unfold to_size_t in Hr. Z.div_mod_to_equations. lia. }
  destruct (has_value val); depth H.
Qed.

End Depth.

Ltac unfold_opcodes :=
  unfold between,
    i_nop, i_iconst_m1, i_iconst_0, i_iconst_1, i_iconst_2, i_iconst_3, i_iconst_4,
    i_iconst_5, i_bipush, i_sipush, i_ldc, i_iload, i_aload, i_iload_0, i_iload_3,
    i_aload_0, i_aload_3, i_iaload, i_istore, i_astore, i_istore_0, i_istore_3,
    i_astore_0, i_astore_3, i_iastore, i_dup, i_iadd, i_isub, i_imul, i_idiv, i_irem,
    i_ineg, i_ishl, i_ishr, i_iushr, i_iand, i_ior, i_ixor, i_iinc, i_ifeq, i_ifne,
    i_iflt, i_ifge, i_ifgt, i_ifle, i_if_icmpeq, i_if_icmpne, i_if_icmplt,
    i_if_icmpge, i_if_icmpgt, i_if_icmple, i_goto, i_ireturn, i_areturn, i_return,
    i_getstatic, i_invokevirtual, i_invokestatic, i_newarray, i_arraylength in *.

(** [stack_effect] of the fetched instruction, from the outcomes of the
    tests of the dispatch chain. *)
Ltac effect :=
  first
  [ match goal with
    | E : (?i =? ?c) = true |- _ =>
        apply Z.eqb_eq in E; subst i; lazy; reflexivity
    end
  | match goal with
    | E : between ?lo ?i ?hi = true |- _ =>
        apply between_spec in E;
        repeat match goal with E' : _ = false |- _ => clear E' end;
        unfold stack_effect; cbn [existsb]; unfold_opcodes;
        repeat match goal with
        | |- context [Z.eqb i ?c] => replace (Z.eqb i c) with false by lia
        | |- context [(?a <=? i) && (i <=? ?b)] =>
            first [ replace ((a <=? i) && (i <=? b)) with true by lia
                  | replace ((a <=? i) && (i <=? b)) with false by lia ]
        end; lazy; reflexivity
    end
  | unfold stack_effect; cbn [existsb];
    repeat match goal with
    | E : ?t = false |- context [?t] => rewrite E
    end; lazy; reflexivity ].

Lemma step_depth exec class method f w instruction f' w' :
  wf_method method = true ->
  wf_frame method f = true ->
  wf_class class ->
  load (code (method_code method)) (pc f) = Some instruction ->
  step exec class method f w = Ok (Running f' w') ->
  (instruction <> i_invokestatic
   /\ depth_change method f f' (stack_effect instruction))
  \/ (instruction = i_invokestatic
      /\ exists (i : Z) (callee : method_t) (ls : list Z) (val : optional_value_t)
           (w0 : world),
           find_method_from_index class i = Some callee
           /\ exec callee ls w = Ok (val, w0)
           /\ depth_change method f f'
                ((if has_value val then 1 else 0) - get_number_of_parameters callee)).
Proof.
  intros Hm Hf Hc Hi H.
  apply wf_method_inv in Hm as (Hms & _).
  apply wf_frame_inv in Hf as (Hsi & Hlen).
  unfold step in H. rewrite Hi in H. cbn [defined bind] in H. revert H.
  repeat match goal with
  | |- (if ?b then _ else _) = Ok _ -> _ => destruct b eqn:?
  end; intros H.
  1: discriminate.
  1: bind_inv H; discriminate.
  1: { right. split; [lia|].
       exact (invokestatic_depth method f Hms Hsi Hlen _ _ _ _ _ _ Hc H). }
  all: left; split; [apply Z.eqb_neq; assumption|].
  all: try (bind_inv H; discriminate).
  all: match goal with
       | |- depth_change _ _ _ (stack_effect ?i) =>
           first [ replace (stack_effect i) with 0 by (symmetry; effect)
                 | replace (stack_effect i) with 1 by (symmetry; effect)
                 | replace (stack_effect i) with (-1) by (symmetry; effect)
                 | replace (stack_effect i) with (-2) by (symmetry; effect)
                 | replace (stack_effect i) with (-3) by (symmetry; effect) ]
       end.
  all: repeat match goal with
       | E : _ = false |- _ => clear E
       | E : _ = true |- _ => clear E
       end.
  all: first
    [ apply (binary_depth method f Hms Hsi Hlen) in H; exact H
    | apply (if_zero_depth method f Hms Hsi Hlen) in H; exact H
    | apply (if_icmp_depth method f Hms Hsi Hlen) in H; exact H
    | apply (newarray_depth method f Hms Hsi Hlen) in H; exact H
    | apply (arraylength_depth method f Hms Hsi Hlen) in H; exact H
    | apply (iastore_depth method f Hms Hsi Hlen) in H; exact H
    | apply (iaload_depth method f Hms Hsi Hlen) in H; exact H
    | bind_inv H;
      first [ apply (push_depth method f Hms Hsi Hlen) in H; exact H
            | apply (pop_to_local_depth method f Hms Hsi Hlen) in H; exact H ]
    | depth H ].
Qed.

Lemma depth_change_wf (method : method_t) (f f' : frame) (d : Z) :
  depth_change method f f' d -> wf_frame method f' = true.
Proof.
  intros (_ & Hlen & Hsi). unfold wf_frame.
  apply andb_true_iff. split; [apply between_spec; exact Hsi | apply Z.eqb_eq; exact Hlen].
Qed.

Lemma initial_frame_wf (method : method_t) (ls : list Z) :
  wf_method method = true -> wf_frame method (initial_frame method ls) = true.
Proof.
  intros Hm. apply wf_method_inv in Hm as (Hms & _).
  unfold wf_frame, initial_frame, calloc. cbn [stack_index stack].
  rewrite length_replicate.
  apply andb_true_iff. split; [apply between_spec; lia | apply Z.eqb_eq; lia].
Qed.

Lemma reaches_wf exec class method ls w0 f w :
  wf_method method = true -> wf_class class ->
  reaches exec class method ls w0 f w -> wf_frame method f = true.
Proof.
  intros Hm Hc Hr. induction Hr as [|f f' w w' _ IH Hpc Hstep].
  - apply initial_frame_wf. exact Hm.
  - destruct (load (code (method_code method)) (pc f)) as [instruction|] eqn:Hi.
    2:{ unfold step in Hstep. rewrite Hi in Hstep. discriminate. }
    destruct (step_depth _ _ _ _ _ _ _ _ Hm IH Hc Hi Hstep)
      as [[_ Hd]|[_ (i & callee & ls' & val & w1 & _ & _ & Hd)]];
      exact (depth_change_wf _ _ _ _ Hd).
Qed.

(** C8: for every well-formed method, at every iteration the dispatch loop
    reaches from the initial frame, the depth of the operand stack lies in
    [0, max_stack] before the opcode and after it completes, and the change
    of depth is that of the table of instructions: [stack_effect] for an
    opcode other than [invokestatic] (for instance [-1] for [iadd], [-3] for
    [iastore], [+1] for [dup]), and for [invokestatic] the callee's
    parameter count popped and its value, if any, pushed. *)
Theorem stack_depth_invariant
    (exec : method_t -> list Z -> world -> result (optional_value_t * world))
    (class : class_file_t) (method : method_t) (ls : list Z) (w0 : world)
    (f : frame) (w : world) (instruction : Z) (f' : frame) (w' : world) :
  wf_method method = true ->
  wf_class class ->
  reaches exec class method ls w0 f w ->
  load (code (method_code method)) (pc f) = Some instruction ->
  step exec class method f w = Ok (Running f' w') ->
  0 <= stack_index f <= max_stack (method_code method)
  /\ 0 <= stack_index f' <= max_stack (method_code method)
  /\ (instruction <> i_invokestatic ->
      stack_index f' - stack_index f = stack_effect instruction)
  /\ (instruction = i_invokestatic ->
      exists (i : Z) (callee : method_t) (ls' : list Z) (val : optional_value_t)
        (w1 : world),
        find_method_from_index class i = Some callee
        /\ exec callee ls' w = Ok (val, w1)
        /\ stack_index f' - stack_index f
           = (if has_value val then 1 else 0) - get_number_of_parameters callee)
  /\ stack_effect i_iadd = -1
  /\ stack_effect i_iastore = -3
  /\ stack_effect i_dup = 1.
Proof.
  intros Hm Hc Hr Hi Hstep.
  pose proof (reaches_wf _ _ _ _ _ _ _ Hm Hc Hr) as Hf.
  pose proof (wf_frame_inv _ _ Hf) as [Hsi _].
  split; [exact Hsi|].
  destruct (step_depth _ _ _ _ _ _ _ _ Hm Hf Hc Hi Hstep)
    as [[Hne (Hd & _ & Hb)]|[He (i & callee & ls' & val & w1 & Hfind & Hexec & Hd & _ & Hb)]].
  - split; [exact Hb|]. split; [intros _; lia|].
    split; [intros He; contradiction|]. repeat split.
  - split; [exact Hb|]. split; [intros Hne; contradiction|].
    split; [|repeat split].
    intros _. exists i, callee, ls', val, w1.
    split; [exact Hfind|]. split; [exact Hexec|]. lia.
Qed.

(** In [iconst_1; iconst_2; iadd] the loop reaches [iadd] with depth 2 and
    leaves it with depth 1. *)
Lemma stack_depth_invariant_witness :
  stack_index after_add - stack_index before_add = stack_effect i_iadd.
Proof.
  refine (proj1 (proj2 (proj2
    (stack_depth_invariant no_call empty_class add_program [] empty_world
       before_add empty_world i_iadd after_add empty_world _ _ _ _ _))) _);
    try reflexivity.
  - intros i callee H. discriminate H.
  - apply (reaches_step no_call empty_class add_program [] empty_world
             {| pc := 1; stack_index := 1; stack := [1; 0]; locals := [] |}
             before_add empty_world empty_world);
      [|simpl; lia|reflexivity].
    apply (reaches_step no_call empty_class add_program [] empty_world
             (initial_frame add_program []) _ empty_world empty_world);
      [|simpl; lia|reflexivity].
    apply reaches_start.
  - unfold i_iadd, i_invokestatic. lia.
Defined.

(** * Wrap-around arithmetic *)

Lemma to_int32_congruent (z : Z) :
  to_int32 z mod 4294967296 = z mod 4294967296.
Proof.
  unfold to_int32.
  replace ((z + 2147483648) mod 4294967296 - 2147483648)
    with ((z + 2147483648) mod 4294967296 + 2147483648 + (-1) * 4294967296) by lia.
  rewrite Z.mod_add by lia. rewrite Z.add_mod_idemp_l by lia.
  replace (z + 2147483648 + 2147483648) with (z + 1 * 4294967296) by lia.
  apply Z.mod_add. lia.
Qed.

(** X1: [iadd], [isub] and [imul] pop [b] then [a] and push the sum, the
    difference and the product wrapped to 32 bits: the pushed value is a
    32-bit integer congruent to the exact result modulo [2^32]. *)
Theorem arithmetic_wraps
    (exec : method_t -> list Z -> world -> result (optional_value_t * world))
    (class : class_file_t) (method : method_t) (f : frame) (w : world) (a b : Z) :
  wf_method method = true ->
  wf_frame method f = true ->
  load (stack f) (stack_index f - 2) = Some a ->
  load (stack f) (stack_index f - 1) = Some b ->
  (load (code (method_code method)) (pc f) = Some i_iadd ->
   step exec class method f w
   = Ok (Running (binary_result f (to_int32 (a + b))) w))
  /\ (load (code (method_code method)) (pc f) = Some i_isub ->
      step exec class method f w
      = Ok (Running (binary_result f (to_int32 (a - b))) w))
  /\ (load (code (method_code method)) (pc f) = Some i_imul ->
      step exec class method f w
      = Ok (Running (binary_result f (to_int32 (a * b))) w))
  /\ (forall z : Z,
        is_int32 (to_int32 z) /\ to_int32 z mod 4294967296 = z mod 4294967296).
Proof.
  intros Hm Hf Ha Hb.
  split; [|split; [|split]].
  - intros Hi. dispatch Hi.
    apply (binary_ok _ _ method f w i_iadd a b _ Hm Hf Hi Ha Hb); [discriminate|].
    reflexivity.
  - intros Hi. dispatch Hi.
    apply (binary_ok _ _ method f w i_isub a b _ Hm Hf Hi Ha Hb); [discriminate|].
    reflexivity.
  - intros Hi. dispatch Hi.
    apply (binary_ok _ _ method f w i_imul a b _ Hm Hf Hi Ha Hb); [discriminate|].
    reflexivity.
  - intros z. split; [apply to_int32_range | apply to_int32_congruent].
Qed.

(** [iadd] of [INT32_MAX] and 1 wraps to [INT32_MIN]. *)
Lemma arithmetic_wraps_witness :
  step no_call empty_class (one_instruction i_iadd) (two_operands INT32_MAX 1)
    empty_world
  = Ok (Running {| pc := 1; stack_index := 1; stack := [INT32_MIN; 1]; locals := [] |}
          empty_world).
Proof.
  refine (proj1
    (arithmetic_wraps no_call empty_class (one_instruction i_iadd)
       (two_operands INT32_MAX 1) empty_world INT32_MAX 1 _ _ _ _) _);
    reflexivity.
Defined.

(** * Fuel

    A result other than [OutOfFuel] does not depend on the fuel: more fuel
    gives the same result. *)

Lemma invokestatic_fuel
    (exec exec' : method_t -> list Z -> world -> result (optional_value_t * world))
    (class : class_file_t) (c : list Z) (f : frame) (w : world) :
  (forall m ls w0, exec m ls w0 <> OutOfFuel -> exec' m ls w0 = exec m ls w0) ->
  invokestatic exec class c f w <> OutOfFuel ->
  invokestatic exec' class c f w = invokestatic exec class c f w.
Proof.
  intros Hexec. unfold invokestatic.
  destruct (defined (load c (to_size_t (pc f + 1)))) as [hi| | |];
    cbn [bind]; try reflexivity.
  destruct (defined (load c (to_size_t (pc f + 2)))) as [lo| | |];
    cbn [bind]; try reflexivity.
  destruct (defined (find_method_from_index class _)) as [m| | |];
    cbn [bind]; try reflexivity.
  destruct (defined (copy_parameters _ _ _ _ _ _)) as [ls| | |];
    cbn [bind]; try reflexivity.
  intros H.
  rewrite Hexec; [reflexivity|].
  intros Hout. rewrite Hout in H. apply H. reflexivity.
Qed.

Lemma step_fuel
    (exec exec' : method_t -> list Z -> world -> result (optional_value_t * world))
    (class : class_file_t) (method : method_t) (f : frame) (w : world) :
  (forall m ls w0, exec m ls w0 <> OutOfFuel -> exec' m ls w0 = exec m ls w0) ->
  step exec class method f w <> OutOfFuel ->
  step exec' class method f w = step exec class method f w.
Proof.
  intros Hexec. unfold step.
  destruct (defined (load (code (method_code method)) (pc f))) as [i| | |];
    cbn [bind]; try reflexivity.
  destruct (i =? i_return); [reflexivity|].
  destruct (i =? i_ireturn); [reflexivity|].
  destruct (i =? i_invokestatic); [|reflexivity].
  apply invokestatic_fuel. exact Hexec.
Qed.

Lemma run_fuel (fuel : nat) (class : class_file_t) (method : method_t)
    (f : frame) (w : world) :
  run fuel class method f w <> OutOfFuel ->
  run (S fuel) class method f w = run fuel class method f w.
Proof.
  revert method f w. induction fuel as [|fuel IH]; intros method f w H.
  - exfalso. apply H. reflexivity.
  - rewrite (run_unfold (S fuel)). rewrite (run_unfold fuel) in H |- *.
    destruct (pc f <? code_length (method_code method)); [|reflexivity].
    assert (Hstep : step (fun m ls w1 => execute fuel m ls class w1) class method f w
                    <> OutOfFuel).
    { intros Hout. rewrite Hout in H. apply H. reflexivity. }
    rewrite (step_fuel (fun m ls w1 => execute fuel m ls class w1)
               (fun m ls w1 => execute (S fuel) m ls class w1));
      [|intros m ls w0 Hne; apply IH; exact Hne | exact Hstep].
    destruct (step (fun m ls w1 => execute fuel m ls class w1) class method f w)
      as [[f' w'|r w']| | |]; cbn [bind] in *; try reflexivity.
    apply IH. exact H.
Qed.

(** * Whole programs *)

(** Recursion, the calling convention, arrays and the two right shifts, end
    to end: [main] prints 120, 7, 42, 3, -4 and 2147483644 and returns
    void, leaving one array on the heap. *)
Example program_main_runs :
  execute 100 program_main [0; 0] program_class empty_world
  = Ok (void, {| heap := [[3; 42; 0; 0]];
                 stdout := [120; 7; 42; 3; -4; 2147483644] |}).
Proof. vm_compute. reflexivity. Qed.

(** The loop with a backward [goto] ends through its conditional branch and
    prints 55. *)
Example sum_loop_runs :
  execute 100 sum_loop [0; 0; 0] program_class empty_world
  = Ok (void, {| heap := []; stdout := [55] |}).
Proof. vm_compute. reflexivity. Qed.

(** A method with [max_stack = 0] and body [return] completes with a void
    result. *)
Example just_return_runs :
  execute 1 just_return [0] empty_class empty_world = Ok (void, empty_world).
Proof. vm_compute. reflexivity. Qed.

(** * Constants *)

Lemma push_ok (method : method_t) (f : frame) (w : world) (i v n : Z) :
  wf_method method = true ->
  wf_frame method f = true ->
  load (code (method_code method)) (pc f) = Some i ->
  stack_index f < max_stack (method_code method) ->
  0 <= n <= 3 ->
  push f w v n = Ok (Running (after_push f v n) w).
Proof.
  intros Hm Hf Hi Hroom Hn.
  destruct (code_byte _ _ _ Hm Hi) as [Hpc _].
  apply wf_method_inv in Hm as (Hms & _).
  apply wf_frame_inv in Hf as (Hsi & Hlen).
  unfold push. rewrite store_in by lia. cbn [defined bind].
  rewrite !to_size_t_small by lia. reflexivity.
Qed.

Lemma push_full (method : method_t) (f : frame) (w : world) (v n : Z) :
  wf_frame method f = true ->
  stack_index f = max_stack (method_code method) ->
  push f w v n = Undefined.
Proof.
  intros Hf Hfull. apply wf_frame_inv in Hf as (Hsi & Hlen).
  unfold push, store.
  replace (stack_index f <? Z.of_nat (length (stack f))) with false by lia.
  rewrite andb_false_r. reflexivity.
Qed.

Lemma pop_to_local_ok (method : method_t) (f : frame) (w : world) (i k v n : Z) :
  wf_method method = true ->
  wf_frame method f = true ->
  load (code (method_code method)) (pc f) = Some i ->
  load (stack f) (stack_index f - 1) = Some v ->
  0 <= k < Z.of_nat (length (locals f)) ->
  0 <= n <= 3 ->
  pop_to_local f w k n = Ok (Running (after_store f k v n) w).
Proof.
  intros Hm Hf Hi Hv Hk Hn.
  destruct (code_byte _ _ _ Hm Hi) as [Hpc _].
  apply wf_method_inv in Hm as (Hms & _).
  apply wf_frame_inv in Hf as (Hsi & Hlen).
  pose proof (load_inv _ _ _ Hv) as [Hin _].
  unfold pop_to_local. rewrite !to_size_t_small by lia.
  rewrite Hv. cbn [defined bind]. rewrite store_in by lia. reflexivity.
Qed.

Lemma to_int8_cases (b : Z) :
  0 <= b <= 255 ->
  -128 <= to_int8 b <= 127
  /\ (b < 128 -> to_int8 b = b)
  /\ (128 <= b -> to_int8 b = b - 256).
Proof.
  intros Hb. unfold to_int8.
  destruct (Z.lt_ge_cases b 128) as [H|H].
  - rewrite Z.mod_small by lia. lia.
  - replace (b + 128) with ((b - 128) + 1 * 256) by lia.
    rewrite Z.mod_add by lia. rewrite Z.mod_small by lia. lia.
Qed.

Lemma sipush_value (hi lo : Z) :
  0 <= hi <= 255 -> 0 <= lo <= 255 ->
  Z.lor (Z.shiftl hi 8) lo = hi * 256 + lo.
Proof.
  intros Hhi Hlo. rewrite Z.shiftl_mul_pow2 by lia. change (2 ^ 8) with 256.
  apply lor_low_byte. exact Hlo.
Qed.

(** X2: the constant instructions push what their bytes encode.
    [iconst_m1] .. [iconst_5] push [instruction - iconst_0], a value in
    [-1, 5]; [bipush] pushes its operand byte sign-extended from 8 bits
    (the byte itself below 128, the byte minus 256 from 128 on); [sipush]
    pushes the big-endian 16-bit value of its two operand bytes
    sign-extended (minus 65536 when the high byte is 128 or more). Each
    advances [pc] by its width. *)
Theorem constants_pushed
    (exec : method_t -> list Z -> world -> result (optional_value_t * world))
    (class : class_file_t) (method : method_t) (f : frame) (w : world)
    (instruction : Z) :
  wf_method method = true ->
  wf_frame method f = true ->
  load (code (method_code method)) (pc f) = Some instruction ->
  stack_index f < max_stack (method_code method) ->
  (i_iconst_m1 <= instruction <= i_iconst_5 ->
   step exec class method f w
   = Ok (Running (after_push f (instruction - i_iconst_0) 1) w)
   /\ -1 <= instruction - i_iconst_0 <= 5)
  /\ (instruction = i_bipush ->
      forall b : Z,
        load (code (method_code method)) (pc f + 1) = Some b ->
        step exec class method f w = Ok (Running (after_push f (to_int8 b) 2) w)
        /\ -128 <= to_int8 b <= 127
        /\ (b < 128 -> to_int8 b = b)
        /\ (128 <= b -> to_int8 b = b - 256))
  /\ (instruction = i_sipush ->
      forall hi lo : Z,
        load (code (method_code method)) (pc f + 1) = Some hi ->
        load (code (method_code method)) (pc f + 2) = Some lo ->
        step exec class method f w
        = Ok (Running (after_push f (to_int16 (hi * 256 + lo)) 3) w)
        /\ -32768 <= to_int16 (hi * 256 + lo) <= 32767
        /\ (hi < 128 -> to_int16 (hi * 256 + lo) = hi * 256 + lo)
        /\ (128 <= hi -> to_int16 (hi * 256 + lo) = hi * 256 + lo - 65536)).
Proof.
  intros Hm Hf Hi Hroom.
  destruct (code_byte _ _ _ Hm Hi) as [Hpc _].
  split; [|split].
  - intros Hr. split; [|unfold i_iconst_m1, i_iconst_0, i_iconst_5 in *; lia].
    unfold step. rewrite Hi. cbn [defined bind].
    unfold_opcodes.
    repeat match goal with
    | |- context [Z.eqb instruction ?c] =>
        replace (Z.eqb instruction c) with false by lia
    end.
    replace ((2 <=? instruction) && (instruction <=? 8)) with true by lia.
    cbv iota.
    apply (push_ok method f w instruction _ 1 Hm Hf Hi Hroom). lia.
  - intros -> b Hb. destruct (code_byte _ _ _ Hm Hb) as [_ Hbr].
    split; [|apply to_int8_cases; exact Hbr].
    dispatch Hi. rewrite to_size_t_small by lia. rewrite Hb. cbn [defined bind].
    apply (push_ok method f w i_bipush _ 2 Hm Hf Hi Hroom). lia.
  - intros -> hi lo Hhi Hlo.
    destruct (code_byte _ _ _ Hm Hhi) as [_ Hh].
    destruct (code_byte _ _ _ Hm Hlo) as [_ Hl].
    split; [|split; [apply to_int16_range|]].
    + dispatch Hi. rewrite !to_size_t_small by lia. rewrite Hhi, Hlo.
      cbn [defined bind]. rewrite sipush_value by assumption.
      apply (push_ok method f w i_sipush _ 3 Hm Hf Hi Hroom). lia.
    + split; intros H; unfold to_int16.
      * rewrite Z.mod_small by lia. lia.
      * replace (hi * 256 + lo + 32768) with ((hi * 256 + lo - 32768) + 1 * 65536) by lia.
        rewrite Z.mod_add by lia. rewrite Z.mod_small by lia. lia.
Qed.

(** [bipush 0xFF] pushes [-1]. *)
Lemma constants_pushed_witness :
  step no_call empty_class (method_of 1 0 [i_bipush; 255] 0) (frame_of 0 [0] [])
    empty_world
  = Ok (Running {| pc := 2; stack_index := 1; stack := [-1]; locals := [] |}
          empty_world).
Proof.
  refine (proj1 (proj1 (proj2
    (constants_pushed no_call empty_class (method_of 1 0 [i_bipush; 255] 0)
       (frame_of 0 [0] []) empty_world i_bipush _ _ _ _)) _ 255 _));
    reflexivity.
Defined.

(** * Locals *)

(** Evaluation of the dispatch chain on an opcode known by its range. *)
Ltac dispatch_range Hi :=
  unfold step; rewrite Hi; cbn [defined bind]; unfold_opcodes;
  repeat match goal with
  | |- context [Z.eqb ?i ?c] =>
      first [ replace (Z.eqb i c) with false by lia
            | replace (Z.eqb i c) with true by lia ]
  | |- context [(?a <=? ?i) && (?i <=? ?b)] =>
      first [ replace ((a <=? i) && (i <=? b)) with false by lia
            | replace ((a <=? i) && (i <=? b)) with true by lia ]
  end; cbv iota.

Lemma short_store_index_inv (s k : Z) :
  short_store_index s = Some k ->
  0 <= k <= 3 /\ (s = i_istore_0 + k \/ s = i_astore_0 + k).
Proof.
  unfold short_store_index.
  destruct (between i_istore_0 s i_istore_3) eqn:E1.
  - intros H. injection H as <-. apply between_spec in E1. unfold_opcodes. lia.
  - destruct (between i_astore_0 s i_astore_3) eqn:E2; [|discriminate].
    intros H. injection H as <-. apply between_spec in E2. unfold_opcodes. lia.
Qed.

Lemma short_load_index_inv (l k : Z) :
  short_load_index l = Some k ->
  0 <= k <= 3 /\ (l = i_iload_0 + k \/ l = i_aload_0 + k).
Proof.
  unfold short_load_index.
  destruct (between i_iload_0 l i_iload_3) eqn:E1.
  - intros H. injection H as <-. apply between_spec in E1. unfold_opcodes. lia.
  - destruct (between i_aload_0 l i_aload_3) eqn:E2; [|discriminate].
    intros H. injection H as <-. apply between_spec in E2. unfold_opcodes. lia.
Qed.

Lemma step_short_store exec class method f w s k :
  load (code (method_code method)) (pc f) = Some s ->
  short_store_index s = Some k ->
  step exec class method f w = pop_to_local f w k 1.
Proof.
  intros Hi Hs. apply short_store_index_inv in Hs as [Hk Hs].
  destruct Hs as [-> | ->].
  - dispatch_range Hi. f_equal. lia.
  - dispatch_range Hi. f_equal. lia.
Qed.

Lemma step_short_load exec class method f w l k :
  load (code (method_code method)) (pc f) = Some l ->
  short_load_index l = Some k ->
  step exec class method f w
  = (v <- defined (load (locals f) k) ;; push f w v 1).
Proof.
  intros Hi Hs. apply short_load_index_inv in Hs as [Hk Hs].
  destruct Hs as [-> | ->].
  - dispatch_range Hi. replace (26 + k - 26) with k by lia. reflexivity.
  - dispatch_range Hi. replace (42 + k - 42) with k by lia. reflexivity.
Qed.

Lemma step_long_store exec class method f w s :
  load (code (method_code method)) (pc f) = Some s ->
  s = i_istore \/ s = i_astore ->
  step exec class method f w
  = (i <- defined (load (code (method_code method)) (to_size_t (pc f + 1))) ;;
     pop_to_local f w i 2).
Proof. intros Hi [-> | ->]; dispatch Hi; reflexivity. Qed.

Lemma step_long_load exec class method f w l :
  load (code (method_code method)) (pc f) = Some l ->
  l = i_iload \/ l = i_aload ->
  step exec class method f w
  = (i <- defined (load (code (method_code method)) (to_size_t (pc f + 1))) ;;
     v <- defined (load (locals f) i) ;;
     push f w v 2).
Proof. intros Hi [-> | ->]; dispatch Hi; reflexivity. Qed.

Lemma after_store_wf (method : method_t) (f : frame) (k v n : Z) :
  wf_frame method f = true -> 1 <= stack_index f ->
  wf_frame method (after_store f k v n) = true.
Proof.
  intros Hf Hsi. apply wf_frame_inv in Hf as (Hsi0 & Hlen).
  unfold wf_frame, after_store. cbn [stack_index stack].
  apply andb_true_iff. split; [apply between_spec; lia | apply Z.eqb_eq; exact Hlen].
Qed.

Lemma load_back (method : method_t) (f : frame) (w : world) (i k v n m : Z) :
  wf_method method = true ->
  wf_frame method f = true ->
  load (code (method_code method)) (pc f + n) = Some i ->
  load (stack f) (stack_index f - 1) = Some v ->
  0 <= k < Z.of_nat (length (locals f)) ->
  0 <= n <= 3 -> 0 <= m <= 3 ->
  (x <- defined (load (locals (after_store f k v n)) k) ;;
   push (after_store f k v n) w x m)
  = Ok (Running (after_load_back f k v (n + m)) w).
Proof.
  intros Hm Hf Hi Hv Hk Hn Hmm.
  pose proof (load_inv _ _ _ Hv) as [Hin Hlook].
  pose proof (wf_frame_inv _ _ Hf) as (Hsi & Hlen).
  assert (Hl : load (locals (after_store f k v n)) k = Some v).
  { cbn [after_store locals]. apply (load_store_same (locals f)).
    apply store_in. exact Hk. }
  rewrite Hl. cbn [defined bind].
  rewrite (push_ok method (after_store f k v n) w i v m Hm); try assumption.
  - unfold after_push, after_load_back, after_store. cbn [pc stack_index stack locals].
    rewrite list_insert_id by exact Hlook.
    replace (pc f + n + m) with (pc f + (n + m)) by lia.
    replace (stack_index f - 1 + 1) with (stack_index f) by lia.
    reflexivity.
  - apply after_store_wf; [exact Hf | lia].
  - cbn [after_store stack_index]. lia.
Qed.

(** X3: a value stored into a local and loaded back. With [v] on top
    of the stack and [k] an index of the locals, [istore k] (or [astore k])
    followed by [iload k] (or [aload k]), in the long forms or in the
    one-byte forms [*store_<k>], [*load_<k>], leaves the stack and its depth
    as they were and [locals[k] = v]. *)
Theorem store_load_round_trip
    (exec : method_t -> list Z -> world -> result (optional_value_t * world))
    (class : class_file_t) (method : method_t) (f : frame) (w : world)
    (s l k v : Z) :
  wf_method method = true ->
  wf_frame method f = true ->
  load (code (method_code method)) (pc f) = Some s ->
  load (stack f) (stack_index f - 1) = Some v ->
  0 <= k < Z.of_nat (length (locals f)) ->
  ((s = i_istore \/ s = i_astore) ->
   (l = i_iload \/ l = i_aload) ->
   load (code (method_code method)) (pc f + 1) = Some k ->
   load (code (method_code method)) (pc f + 2) = Some l ->
   load (code (method_code method)) (pc f + 3) = Some k ->
   step exec class method f w = Ok (Running (after_store f k v 2) w)
   /\ step exec class method (after_store f k v 2) w
      = Ok (Running (after_load_back f k v 4) w))
  /\ (short_store_index s = Some k ->
      short_load_index l = Some k ->
      load (code (method_code method)) (pc f + 1) = Some l ->
      step exec class method f w = Ok (Running (after_store f k v 1) w)
      /\ step exec class method (after_store f k v 1) w
         = Ok (Running (after_load_back f k v 2) w)).
Proof.
  intros Hm Hf Hi Hv Hk.
  destruct (code_byte _ _ _ Hm Hi) as [Hpc _].
  split.
  - intros Hs Hl Hk1 Hl2 Hk3.
    destruct (code_byte _ _ _ Hm Hl2) as [Hpc2 _].
    split.
    + rewrite (step_long_store _ _ _ _ _ s Hi Hs).
      rewrite to_size_t_small by lia. rewrite Hk1. cbn [defined bind].
      apply (pop_to_local_ok method f w s k v 2 Hm Hf Hi Hv Hk). lia.
    + rewrite (step_long_load _ _ _ _ _ l); [|exact Hl2|exact Hl].
      cbn [after_store pc]. rewrite to_size_t_small by lia.
      replace (pc f + 2 + 1) with (pc f + 3) by lia. rewrite Hk3.
      cbn [defined bind].
      apply (load_back method f w l k v 2 2 Hm Hf Hl2 Hv Hk); lia.
  - intros Hs Hl Hl1. split.
    + rewrite (step_short_store _ _ _ _ _ s k Hi Hs).
      apply (pop_to_local_ok method f w s k v 1 Hm Hf Hi Hv Hk). lia.
    + rewrite (step_short_load _ _ _ _ _ l k); [|exact Hl1|exact Hl].
      apply (load_back method f w l k v 1 1 Hm Hf Hl1 Hv Hk); lia.
Qed.

(** [istore_1; iload_1] with 7 on the stack. *)
Lemma store_load_round_trip_witness :
  step no_call empty_class (method_of 1 2 [0x3c; 0x1b] 0) (frame_of 1 [7] [0; 0])
    empty_world
  = Ok (Running {| pc := 1; stack_index := 0; stack := [7]; locals := [0; 7] |}
          empty_world)
  /\ step no_call empty_class (method_of 1 2 [0x3c; 0x1b] 0)
       {| pc := 1; stack_index := 0; stack := [7]; locals := [0; 7] |} empty_world
     = Ok (Running {| pc := 2; stack_index := 1; stack := [7]; locals := [0; 7] |}
             empty_world).
Proof.
  refine (proj2
    (store_load_round_trip no_call empty_class (method_of 1 2 [0x3c; 0x1b] 0)
       (frame_of 1 [7] [0; 0]) empty_world 0x3c 0x1b 1 7 _ _ _ _ _) _ _ _);
    try reflexivity.
  simpl. lia.
Defined.

Lemma load_none {A : Type} (a : list A) (i : Z) :
  ~ (0 <= i < Z.of_nat (length a)) -> load a i = None.
Proof.
  intros H. unfold load.
  destruct (0 <=? i) eqn:H0; [|reflexivity].
  destruct (i <? Z.of_nat (length a)) eqn:H1; [|reflexivity].
  lia.
Qed.

Lemma store_none {A : Type} (a : list A) (i : Z) (v : A) :
  ~ (0 <= i < Z.of_nat (length a)) -> store a i v = None.
Proof.
  intros H. unfold store.
  destruct (0 <=? i) eqn:H0; [|reflexivity].
  destruct (i <? Z.of_nat (length a)) eqn:H1; [|reflexivity].
  lia.
Qed.

(** A read below the bottom of the stack: the index wraps around in
    [size_t] and falls outside the array. *)
Lemma load_below (method : method_t) (f : frame) (k : Z) :
  wf_method method = true ->
  wf_frame method f = true ->
  0 < k <= 65536 ->
  stack_index f < k ->
  load (stack f) (to_size_t (stack_index f - k)) = None.
Proof.
  intros Hm Hf Hk Hlt.
  apply wf_method_inv in Hm as (Hms & _).
  apply wf_frame_inv in Hf as (Hsi & Hlen).
  apply load_none. unfold to_size_t.
  replace (stack_index f - k)
    with ((stack_index f - k + 18446744073709551616) + (-1) * 18446744073709551616)
    by lia.
  rewrite Z.mod_add by lia. rewrite Z.mod_small by lia. lia.
Qed.

Lemma pop_to_local_out (f : frame) (w : world) (k n : Z) :
  ~ (0 <= k < Z.of_nat (length (locals f))) ->
  pop_to_local f w k n = Undefined.
Proof.
  intros Hk. unfold pop_to_local.
  destruct (load (stack f) (to_size_t (stack_index f - 1))); cbn [defined bind];
    [|reflexivity].
  rewrite store_none by exact Hk. reflexivity.
Qed.

(** X4: the code checks no index of a local. [iload], [aload],
    [istore], [astore] and [iinc] with an operand byte [k], and the one-byte
    forms with their index [k], access [locals[k]] outside the array when
    [k] is not below the number of locals: undefined behaviour, no
    [assert]. *)
Theorem local_index_out_of_range
    (exec : method_t -> list Z -> world -> result (optional_value_t * world))
    (class : class_file_t) (method : method_t) (f : frame) (w : world)
    (instruction k : Z) :
  wf_method method = true ->
  load (code (method_code method)) (pc f) = Some instruction ->
  Z.of_nat (length (locals f)) <= k ->
  (In instruction [i_iload; i_aload; i_istore; i_astore; i_iinc] ->
   load (code (method_code method)) (pc f + 1) = Some k ->
   step exec class method f w = Undefined)
  /\ (short_load_index instruction = Some k ->
      step exec class method f w = Undefined)
  /\ (short_store_index instruction = Some k ->
      step exec class method f w = Undefined).
Proof.
  intros Hm Hi Hk.
  destruct (code_byte _ _ _ Hm Hi) as [Hpc _].
  assert (Hout : ~ (0 <= k < Z.of_nat (length (locals f)))) by lia.
  split; [|split].
  - intros Hin Hk1. simpl in Hin.
    destruct Hin as [<-|[<-|[<-|[<-|[<-|[]]]]]].
    + rewrite (step_long_load _ _ _ _ _ i_iload Hi (or_introl eq_refl)).
      rewrite to_size_t_small by lia. rewrite Hk1. cbn [defined bind].
      rewrite load_none by exact Hout. reflexivity.
    + rewrite (step_long_load _ _ _ _ _ i_aload Hi (or_intror eq_refl)).
      rewrite to_size_t_small by lia. rewrite Hk1. cbn [defined bind].
      rewrite load_none by exact Hout. reflexivity.
    + rewrite (step_long_store _ _ _ _ _ i_istore Hi (or_introl eq_refl)).
      rewrite to_size_t_small by lia. rewrite Hk1. cbn [defined bind].
      apply pop_to_local_out. exact Hout.
    + rewrite (step_long_store _ _ _ _ _ i_astore Hi (or_intror eq_refl)).
      rewrite to_size_t_small by lia. rewrite Hk1. cbn [defined bind].
      apply pop_to_local_out. exact Hout.
    + dispatch Hi. rewrite to_size_t_small by lia. rewrite Hk1. cbn [defined bind].
      destruct (load (code (method_code method)) (to_size_t (pc f + 2)));
        cbn [defined bind]; try reflexivity.
      rewrite load_none by exact Hout. reflexivity.
  - intros Hs. rewrite (step_short_load _ _ _ _ _ instruction k Hi Hs).
    rewrite load_none by exact Hout. reflexivity.
  - intros Hs. rewrite (step_short_store _ _ _ _ _ instruction k Hi Hs).
    apply pop_to_local_out. exact Hout.
Qed.

(** [iload 5] in a frame of two locals. *)
Lemma local_index_out_of_range_witness :
  step no_call empty_class (method_of 1 2 [i_iload; 5] 0) (frame_of 0 [0] [0; 0])
    empty_world
  = Undefined.
Proof.
  refine (proj1
    (local_index_out_of_range no_call empty_class (method_of 1 2 [i_iload; 5] 0)
       (frame_of 0 [0] [0; 0]) empty_world i_iload 5 _ _ _) _ _);
    try reflexivity.
  - simpl. lia.
  - left. reflexivity.
Defined.

Lemma to_int32_add_idemp (x y : Z) : to_int32 (to_int32 x + y) = to_int32 (x + y).
Proof.
  unfold to_int32.
  replace ((x + 2147483648) mod 4294967296 - 2147483648 + y + 2147483648)
    with ((x + 2147483648) mod 4294967296 + y) by lia.
  rewrite Z.add_mod_idemp_l by lia. f_equal. f_equal. lia.
Qed.

(** X5: [iinc k d] sets [locals[k]] to the sum of its value and the
    operand byte [d] read as an [int8_t], wrapped to 32 bits; the stack is
    untouched and [pc] advances by 3. Two [iinc] of the same local in a row
    add the sum of their two signed bytes. *)
Theorem iinc_adds
    (exec : method_t -> list Z -> world -> result (optional_value_t * world))
    (class : class_file_t) (method : method_t) (f : frame) (w : world)
    (k d v : Z) :
  wf_method method = true ->
  load (code (method_code method)) (pc f) = Some i_iinc ->
  load (code (method_code method)) (pc f + 1) = Some k ->
  load (code (method_code method)) (pc f + 2) = Some d ->
  load (locals f) k = Some v ->
  step exec class method f w
  = Ok (Running (with_locals f 3 (<[Z.to_nat k := to_int32 (v + to_int8 d)]> (locals f))) w)
  /\ is_int32 (to_int32 (v + to_int8 d))
  /\ (forall d2 : Z,
        load (code (method_code method)) (pc f + 3) = Some i_iinc ->
        load (code (method_code method)) (pc f + 4) = Some k ->
        load (code (method_code method)) (pc f + 5) = Some d2 ->
        step exec class method
          (with_locals f 3 (<[Z.to_nat k := to_int32 (v + to_int8 d)]> (locals f))) w
        = Ok (Running
                (with_locals f 6
                   (<[Z.to_nat k := to_int32 (v + (to_int8 d + to_int8 d2))]> (locals f)))
                w)).
Proof.
  intros Hm Hi Hk Hd Hv.
  destruct (code_byte _ _ _ Hm Hi) as [Hpc _].
  pose proof (load_inv _ _ _ Hv) as [Hkr _].
  assert (Hfirst : forall g : frame, forall p kk dd vv,
            load (code (method_code method)) (pc g) = Some i_iinc ->
            load (code (method_code method)) (pc g + 1) = Some kk ->
            load (code (method_code method)) (pc g + 2) = Some dd ->
            load (locals g) kk = Some vv ->
            p = pc g + 3 ->
            step exec class method g w
            = Ok (Running {| pc := p; stack_index := stack_index g; stack := stack g;
                             locals := <[Z.to_nat kk := to_int32 (vv + to_int8 dd)]>
                                         (locals g) |} w)).
  { intros g p kk dd vv Hgi Hgk Hgd Hgv ->.
    destruct (code_byte _ _ _ Hm Hgi) as [Hgpc _].
    pose proof (load_inv _ _ _ Hgv) as [Hgkr _].
    dispatch Hgi. rewrite !to_size_t_small by lia.
    rewrite Hgk, Hgd. cbn [defined bind]. rewrite Hgv. cbn [defined bind].
    rewrite store_in by lia. reflexivity. }
  split; [|split].
  - apply Hfirst; try assumption. reflexivity.
  - apply to_int32_range.
  - intros d2 Hi2 Hk2 Hd2.
    rewrite (Hfirst _ (pc f + 6) k d2 (to_int32 (v + to_int8 d))).
    + unfold with_locals. cbn [pc stack_index stack locals].
      rewrite list_insert_insert_eq. rewrite to_int32_add_idemp.
      rewrite Z.add_assoc. reflexivity.
    + exact Hi2.
    + cbn [with_locals pc]. replace (pc f + 3 + 1) with (pc f + 4) by lia. exact Hk2.
    + cbn [with_locals pc]. replace (pc f + 3 + 2) with (pc f + 5) by lia. exact Hd2.
    + cbn [with_locals locals]. apply (load_store_same (locals f)).
      apply store_in. exact Hkr.
    + cbn [with_locals pc]. lia.
Qed.

(** [iinc 0, -1] on a local holding [INT32_MIN] wraps to [INT32_MAX]. *)
Lemma iinc_adds_witness :
  step no_call empty_class (method_of 0 1 [i_iinc; 0; 255] 0)
    (frame_of 0 [] [INT32_MIN]) empty_world
  = Ok (Running {| pc := 3; stack_index := 0; stack := []; locals := [INT32_MAX] |}
          empty_world).
Proof.
  refine (proj1
    (iinc_adds no_call empty_class (method_of 0 1 [i_iinc; 0; 255] 0)
       (frame_of 0 [] [INT32_MIN]) empty_world 0 255 INT32_MIN _ _ _ _ _));
    reflexivity.
Defined.

(** * [ineg], [dup] and [ldc] *)

Lemma to_int32_neg_neg (a : Z) : to_int32 (to_int32 (a * -1) * -1) = to_int32 a.
Proof.
  unfold to_int32.
  replace (((a * -1 + 2147483648) mod 4294967296 - 2147483648) * -1 + 2147483648)
    with (4294967296 - (a * -1 + 2147483648) mod 4294967296) by lia.
  pose proof (Z.mod_pos_bound (a * -1 + 2147483648) 4294967296) as Hb.
  pose proof (Z.div_mod (a * -1 + 2147483648) 4294967296) as Hd.
  set (q := (a * -1 + 2147483648) / 4294967296) in *.
  set (r := (a * -1 + 2147483648) mod 4294967296) in *.
  replace (4294967296 - r) with ((a + 2147483648) + q * 4294967296) by lia.
  rewrite Z.mod_add by lia. reflexivity.
Qed.

Lemma with_top_wf (method : method_t) (f : frame) (n v : Z) :
  wf_frame method f = true -> wf_frame method (with_top f n v) = true.
Proof.
  intros Hf. apply wf_frame_inv in Hf as (Hsi & Hlen).
  unfold wf_frame, with_top. cbn [stack_index stack]. rewrite length_insert.
  apply andb_true_iff. split; [apply between_spec; lia | apply Z.eqb_eq; exact Hlen].
Qed.

(** X6: [ineg] replaces the top [a] by [a * -1] wrapped to 32 bits:
    [-a] for every [a] other than [INT32_MIN], and [INT32_MIN] itself for
    [INT32_MIN]; two [ineg] in a row restore the stack. *)
Theorem ineg_wraps
    (exec : method_t -> list Z -> world -> result (optional_value_t * world))
    (class : class_file_t) (method : method_t) (f : frame) (w : world) (a : Z) :
  wf_method method = true ->
  wf_frame method f = true ->
  load (code (method_code method)) (pc f) = Some i_ineg ->
  load (stack f) (stack_index f - 1) = Some a ->
  is_int32 a ->
  step exec class method f w = Ok (Running (with_top f 1 (to_int32 (- a))) w)
  /\ (a <> INT32_MIN -> to_int32 (- a) = - a)
  /\ (a = INT32_MIN -> to_int32 (- a) = INT32_MIN)
  /\ (load (code (method_code method)) (pc f + 1) = Some i_ineg ->
      step exec class method (with_top f 1 (to_int32 (- a))) w
      = Ok (Running {| pc := pc f + 2; stack_index := stack_index f;
                       stack := stack f; locals := locals f |} w)).
Proof.
  intros Hm Hf Hi Ha Hra.
  assert (Hstep : forall (g : frame) (x : Z),
            wf_frame method g = true ->
            load (code (method_code method)) (pc g) = Some i_ineg ->
            load (stack g) (stack_index g - 1) = Some x ->
            step exec class method g w
            = Ok (Running (with_top g 1 (to_int32 (x * -1))) w)).
  { intros g x Hg Hgi Hgx.
    destruct (code_byte _ _ _ Hm Hgi) as [Hpc _].
    pose proof (wf_method_inv _ Hm) as (Hms & _).
    apply wf_frame_inv in Hg as (Hsi & Hlen).
    pose proof (load_inv _ _ _ Hgx) as [Hin _].
    dispatch Hgi. rewrite !to_size_t_small by lia.
    rewrite Hgx. cbn [defined bind]. rewrite store_in by lia. reflexivity. }
  replace (- a) with (a * -1) by lia.
  pose proof (load_inv _ _ _ Ha) as [Hin Hlook].
  split; [apply Hstep; assumption|].
  unfold is_int32, INT32_MIN, INT32_MAX in *.
  split; [|split].
  - intros Hne. unfold to_int32. rewrite Z.mod_small by lia. lia.
  - intros ->. reflexivity.
  - intros Hi2.
    rewrite (Hstep _ (to_int32 (a * -1))).
    + unfold with_top. cbn [pc stack_index stack locals].
      rewrite list_insert_insert_eq. rewrite to_int32_neg_neg.
      rewrite to_int32_small by (unfold is_int32, INT32_MIN, INT32_MAX; lia).
      rewrite list_insert_id by exact Hlook.
      replace (pc f + 1 + 1) with (pc f + 2) by lia. reflexivity.
    + apply with_top_wf. exact Hf.
    + exact Hi2.
    + cbn [with_top stack stack_index]. apply (load_store_same (stack f)).
      apply store_in. exact Hin.
Qed.

(** [ineg] of [INT32_MIN] is [INT32_MIN]. *)
Lemma ineg_wraps_witness :
  step no_call empty_class (one_cell i_ineg) (one_operand INT32_MIN) empty_world
  = Ok (Running {| pc := 1; stack_index := 1; stack := [INT32_MIN]; locals := [] |}
          empty_world).
Proof.
  refine (proj1
    (ineg_wraps no_call empty_class (one_cell i_ineg) (one_operand INT32_MIN)
       empty_world INT32_MIN _ _ _ _ _));
    try reflexivity.
  unfold is_int32, INT32_MIN, INT32_MAX. lia.
Defined.

(** X7: [dup] copies the top of the stack into the next cell and
    advances [pc] by 1. On an empty stack it reads [stack[-1]], and on a
    full stack it writes past the last cell: undefined behaviour in both
    cases, no [assert]. *)
Theorem dup_duplicates
    (exec : method_t -> list Z -> world -> result (optional_value_t * world))
    (class : class_file_t) (method : method_t) (f : frame) (w : world) :
  wf_method method = true ->
  wf_frame method f = true ->
  load (code (method_code method)) (pc f) = Some i_dup ->
  (forall v : Z,
     load (stack f) (stack_index f - 1) = Some v ->
     stack_index f < max_stack (method_code method) ->
     step exec class method f w = Ok (Running (after_push f v 1) w)
     /\ load (stack (after_push f v 1)) (stack_index f) = Some v
     /\ load (stack (after_push f v 1)) (stack_index f - 1) = Some v)
  /\ (stack_index f = 0 -> step exec class method f w = Undefined)
  /\ (stack_index f = max_stack (method_code method) ->
      step exec class method f w = Undefined).
Proof.
  intros Hm Hf Hi.
  destruct (code_byte _ _ _ Hm Hi) as [Hpc _].
  pose proof (wf_method_inv _ Hm) as (Hms & _).
  pose proof (wf_frame_inv _ _ Hf) as (Hsi & Hlen).
  split; [|split].
  - intros v Hv Hroom. pose proof (load_inv _ _ _ Hv) as [Hin _].
    assert (Hst : store (stack f) (stack_index f) v
                  = Some (<[Z.to_nat (stack_index f) := v]> (stack f)))
      by (apply store_in; lia).
    split; [|split].
    + dispatch Hi. rewrite to_size_t_small by lia. rewrite Hv. cbn [defined bind].
      apply (push_ok method f w i_dup v 1 Hm Hf Hi Hroom). lia.
    + cbn [after_push stack]. apply (load_store_same _ _ _ _ Hst).
    + cbn [after_push stack]. rewrite (load_store_other _ _ _ _ _ Hst) by lia.
      exact Hv.
  - intros H0. dispatch Hi.
    rewrite (load_below method f 1 Hm Hf) by lia. reflexivity.
  - intros Hfull. dispatch Hi.
    destruct (load (stack f) (to_size_t (stack_index f - 1))); cbn [defined bind];
      [|reflexivity].
    apply (push_full method). exact Hf. exact Hfull.
Qed.

(** [dup] of 9 on a two-cell stack. *)
Lemma dup_duplicates_witness :
  step no_call empty_class (one_instruction i_dup) (frame_of 1 [9; 0] []) empty_world
  = Ok (Running {| pc := 1; stack_index := 2; stack := [9; 9]; locals := [] |}
          empty_world).
Proof.
  refine (proj1 (proj1
    (dup_duplicates no_call empty_class (one_instruction i_dup) (frame_of 1 [9; 0] [])
       empty_world _ _ _) 9 _ _));
    reflexivity.
Defined.

(** X8: [ldc b] pushes entry [b - 1] of the constant pool (the
    operand is 1-based) and advances [pc] by 2; an operand of 0 or beyond
    the size of the pool reads outside it: undefined behaviour. *)
Theorem ldc_reads_pool
    (exec : method_t -> list Z -> world -> result (optional_value_t * world))
    (class : class_file_t) (method : method_t) (f : frame) (w : world) (b : Z) :
  wf_method method = true ->
  wf_frame method f = true ->
  load (code (method_code method)) (pc f) = Some i_ldc ->
  load (code (method_code method)) (pc f + 1) = Some b ->
  (forall v : Z,
     load (constant_pool class) (b - 1) = Some v ->
     stack_index f < max_stack (method_code method) ->
     step exec class method f w = Ok (Running (after_push f v 2) w))
  /\ (b = 0 \/ Z.of_nat (length (constant_pool class)) < b ->
      step exec class method f w = Undefined).
Proof.
  intros Hm Hf Hi Hb.
  destruct (code_byte _ _ _ Hm Hi) as [Hpc _].
  split.
  - intros v Hv Hroom. dispatch Hi. rewrite to_size_t_small by lia.
    rewrite Hb. cbn [defined bind]. rewrite Hv. cbn [defined bind].
    apply (push_ok method f w i_ldc v 2 Hm Hf Hi Hroom). lia.
  - intros Hbad. dispatch Hi. rewrite to_size_t_small by lia.
    rewrite Hb. cbn [defined bind]. rewrite load_none by lia. reflexivity.
Qed.

(** [ldc #1] over a pool whose first entry is [INT32_MIN]. *)
Lemma ldc_reads_pool_witness :
  step no_call min_class (method_of 1 0 [i_ldc; 1] 0) (frame_of 0 [0] []) empty_world
  = Ok (Running {| pc := 2; stack_index := 1; stack := [INT32_MIN]; locals := [] |}
          empty_world).
Proof.
  refine (proj1
    (ldc_reads_pool no_call min_class (method_of 1 0 [i_ldc; 1] 0) (frame_of 0 [0] [])
       empty_world 1 _ _ _ _) INT32_MIN _ _);
    reflexivity.
Defined.

(** * Bitwise instructions and assertions *)

Lemma int32_sign (a : Z) :
  is_int32 a <-> (Z.shiftr a 31 = 0 \/ Z.shiftr a 31 = -1).
Proof.
  rewrite Z.shiftr_div_pow2 by lia. change (2 ^ 31) with 2147483648.
  unfold is_int32, INT32_MIN, INT32_MAX.
  pose proof (Z.div_mod a 2147483648) as Hd.
  pose proof (Z.mod_pos_bound a 2147483648) as Hb.
  split; intros H; lia.
Qed.

Lemma bitwise_range (op : Z -> Z -> Z) (a b : Z) :
  (forall x y n, Z.shiftr (op x y) n = op (Z.shiftr x n) (Z.shiftr y n)) ->
  (op 0 0 = 0 \/ op 0 0 = -1) -> (op 0 (-1) = 0 \/ op 0 (-1) = -1) ->
  (op (-1) 0 = 0 \/ op (-1) 0 = -1) -> (op (-1) (-1) = 0 \/ op (-1) (-1) = -1) ->
  is_int32 a -> is_int32 b -> is_int32 (op a b).
Proof.
  intros Hshift H00 H01 H10 H11 Ha Hb.
  apply int32_sign in Ha, Hb. apply int32_sign. rewrite Hshift.
  destruct Ha as [-> | ->], Hb as [-> | ->]; assumption.
Qed.

Lemma to_uint32_land (x : Z) : to_uint32 x = Z.land x (Z.ones 32).
Proof. unfold to_uint32. rewrite Z.land_ones by lia. reflexivity. Qed.

Lemma bitwise_unsigned (a b : Z) :
  to_uint32 (Z.land a b) = Z.land (to_uint32 a) (to_uint32 b)
  /\ to_uint32 (Z.lor a b) = Z.lor (to_uint32 a) (to_uint32 b)
  /\ to_uint32 (Z.lxor a b) = Z.lxor (to_uint32 a) (to_uint32 b).
Proof.
  rewrite !to_uint32_land.
  repeat split; apply Z.bits_inj'; intros n Hn;
    rewrite ?Z.land_spec, ?Z.lor_spec, ?Z.lxor_spec, ?Z.land_spec;
    destruct (Z.testbit a n), (Z.testbit b n), (Z.testbit (Z.ones 32) n);
    reflexivity.
Qed.

(** X9: [iand], [ior] and [ixor] pop [b] then [a] and push the
    bitwise and, or and exclusive or of the two; the result of each is a
    32-bit integer, whose unsigned 32-bit representation is the operation
    on the unsigned representations of [a] and [b]. *)
Theorem bitwise_ops
    (exec : method_t -> list Z -> world -> result (optional_value_t * world))
    (class : class_file_t) (method : method_t) (f : frame) (w : world) (a b : Z) :
  wf_method method = true ->
  wf_frame method f = true ->
  load (stack f) (stack_index f - 2) = Some a ->
  load (stack f) (stack_index f - 1) = Some b ->
  is_int32 a ->
  is_int32 b ->
  (load (code (method_code method)) (pc f) = Some i_iand ->
   step exec class method f w = Ok (Running (binary_result f (Z.land a b)) w))
  /\ (load (code (method_code method)) (pc f) = Some i_ior ->
      step exec class method f w = Ok (Running (binary_result f (Z.lor a b)) w))
  /\ (load (code (method_code method)) (pc f) = Some i_ixor ->
      step exec class method f w = Ok (Running (binary_result f (Z.lxor a b)) w))
  /\ (is_int32 (Z.land a b) /\ is_int32 (Z.lor a b) /\ is_int32 (Z.lxor a b))
  /\ (to_uint32 (Z.land a b) = Z.land (to_uint32 a) (to_uint32 b)
      /\ to_uint32 (Z.lor a b) = Z.lor (to_uint32 a) (to_uint32 b)
      /\ to_uint32 (Z.lxor a b) = Z.lxor (to_uint32 a) (to_uint32 b)).
Proof.
  intros Hm Hf Ha Hb Hra Hrb.
  split; [|split; [|split; [|split]]].
  - intros Hi. dispatch Hi.
    apply (binary_ok _ _ method f w i_iand a b _ Hm Hf Hi Ha Hb); [discriminate|].
    reflexivity.
  - intros Hi. dispatch Hi.
    apply (binary_ok _ _ method f w i_ior a b _ Hm Hf Hi Ha Hb); [discriminate|].
    reflexivity.
  - intros Hi. dispatch Hi.
    apply (binary_ok _ _ method f w i_ixor a b _ Hm Hf Hi Ha Hb); [discriminate|].
    reflexivity.
  - split; [|split].
    + apply (bitwise_range Z.land); auto using Z.shiftr_land.
    + apply (bitwise_range Z.lor); auto using Z.shiftr_lor.
    + apply (bitwise_range Z.lxor); auto using Z.shiftr_lxor.
  - apply bitwise_unsigned.
Qed.

(** [ixor] of [-1] and 5 is [-6]. *)
Lemma bitwise_ops_witness :
  step no_call empty_class (one_instruction i_ixor) (two_operands (-1) 5) empty_world
  = Ok (Running {| pc := 1; stack_index := 1; stack := [-6; 5]; locals := [] |}
          empty_world).
Proof.
  refine (proj1 (proj2 (proj2
    (bitwise_ops no_call empty_class (one_instruction i_ixor) (two_operands (-1) 5)
       empty_world (-1) 5 _ _ _ _ _ _))) _);
    try reflexivity;
    unfold is_int32, INT32_MIN, INT32_MAX; lia.
Defined.

(** X10: which violations the code asserts. The arithmetic, shift
    and bitwise instructions and [if_icmp*] with fewer than two values on
    the stack, [ifeq] .. [ifle] and [invokevirtual] on an empty stack, and
    [idiv] and [irem] with a zero divisor fail an [assert]. [ireturn],
    [areturn], [ineg], [dup], [newarray], [arraylength], [iaload] and
    [iastore] assert nothing: on an empty stack they read below the stack,
    which is undefined behaviour. *)
Theorem asserts_abort
    (exec : method_t -> list Z -> world -> result (optional_value_t * world))
    (class : class_file_t) (method : method_t) (f : frame) (w : world)
    (instruction : Z) :
  wf_method method = true ->
  wf_frame method f = true ->
  load (code (method_code method)) (pc f) = Some instruction ->
  (In instruction
      [i_iadd; i_isub; i_imul; i_idiv; i_irem; i_ishl; i_ishr; i_iushr;
       i_iand; i_ior; i_ixor;
       i_if_icmpeq; i_if_icmpne; i_if_icmplt; i_if_icmpge; i_if_icmpgt; i_if_icmple] ->
   stack_index f < 2 ->
   step exec class method f w = AssertFail)
  /\ (In instruction
        [i_ifeq; i_ifne; i_iflt; i_ifge; i_ifgt; i_ifle; i_invokevirtual] ->
      stack_index f = 0 ->
      step exec class method f w = AssertFail)
  /\ (In instruction [i_idiv; i_irem] ->
      load (stack f) (stack_index f - 1) = Some 0 ->
      2 <= stack_index f ->
      step exec class method f w = AssertFail)
  /\ (In instruction
        [i_ireturn; i_areturn; i_ineg; i_dup; i_newarray; i_arraylength;
         i_iaload; i_iastore] ->
      stack_index f = 0 ->
      step exec class method f w = Undefined).
Proof.
  intros Hm Hf Hi.
  destruct (code_byte _ _ _ Hm Hi) as [Hpc _].
  pose proof (wf_method_inv _ Hm) as (Hms & _).
  pose proof (wf_frame_inv _ _ Hf) as (Hsi & Hlen).
  split; [|split; [|split]].
  - intros Hin Hlt. simpl in Hin.
    repeat (destruct Hin as [<-|Hin]; [dispatch Hi; unfold binary, if_icmp;
      replace (2 <=? stack_index f) with false by lia; reflexivity|]).
    contradiction.
  - intros Hin H0. simpl in Hin.
    repeat (destruct Hin as [<-|Hin]; [dispatch Hi; unfold if_zero;
      replace (0 <? stack_index f) with false by lia; reflexivity|]).
    contradiction.
  - intros Hin Hz H2. simpl in Hin.
    repeat (destruct Hin as [<-|Hin]; [dispatch Hi; unfold binary;
      replace (2 <=? stack_index f) with true by lia; cbn [c_assert bind];
      rewrite to_size_t_small by lia; rewrite Hz; reflexivity|]).
    contradiction.
  - intros Hin H0. simpl in Hin.
    pose proof (load_below method f 1 Hm Hf) as H1.
    pose proof (load_below method f 2 Hm Hf) as H2.
    pose proof (load_below method f 3 Hm Hf) as H3.
    repeat (destruct Hin as [<-|Hin]; [dispatch Hi;
      unfold newarray, arraylength, iaload, iastore;
      rewrite ?H1, ?H2, ?H3 by lia; reflexivity|]).
    contradiction.
Qed.

(** [iadd] with one operand on the stack. *)
Lemma asserts_abort_witness :
  step no_call empty_class (one_instruction i_iadd) (frame_of 1 [4; 0] []) empty_world
  = AssertFail.
Proof.
  refine (proj1
    (asserts_abort no_call empty_class (one_instruction i_iadd) (frame_of 1 [4; 0] [])
       empty_world i_iadd _ _ _) _ _);
    try reflexivity.
  left. reflexivity.
Defined.

(** * The heap and the output *)

Ltac same_world H :=
  bind_inv H; injection H as <-; reflexivity.

Lemma push_world f w v n s : push f w v n = Ok s -> world_of s = w.
Proof. unfold push. intros H. same_world H. Qed.

Lemma pop_to_local_world f w i n s : pop_to_local f w i n = Ok s -> world_of s = w.
Proof. unfold pop_to_local. intros H. same_world H. Qed.

Lemma binary_world op nz f w s : binary op nz f w = Ok s -> world_of s = w.
Proof. unfold binary. intros H. same_world H. Qed.

Lemma if_zero_world t c f w s : if_zero t c f w = Ok s -> world_of s = w.
Proof. unfold if_zero. intros H. same_world H. Qed.

Lemma if_icmp_world t c f w s : if_icmp t c f w = Ok s -> world_of s = w.
Proof. unfold if_icmp. intros H. same_world H. Qed.

Lemma arraylength_world f w s : arraylength f w = Ok s -> world_of s = w.
Proof. unfold arraylength. intros H. same_world H. Qed.

Lemma iaload_world f w s : iaload f w = Ok s -> world_of s = w.
Proof. unfold iaload. intros H. same_world H. Qed.

Lemma newarray_world f w s :
  newarray f w = Ok s ->
  exists arr : list Z,
    world_of s = {| heap := heap w ++ [arr]; stdout := stdout w |}.
Proof.
  unfold newarray, heap_add. intros H. bind_inv H. injection H as <-.
  eexists. reflexivity.
Qed.

Lemma iastore_world f w s :
  iastore f w = Ok s ->
  exists (r : Z) (arr arr' : list Z),
    load (heap w) r = Some arr
    /\ length arr' = length arr
    /\ store (heap w) r arr' = Some (heap (world_of s))
    /\ stdout (world_of s) = stdout w.
Proof.
  unfold iastore, heap_get, heap_set. intros H.
  apply bind_Ok in H as (r & _ & H).
  apply bind_Ok in H as (arr & Harr & H). apply defined_Ok in Harr.
  apply bind_Ok in H as (i & _ & H).
  apply bind_Ok in H as (v & _ & H).
  apply bind_Ok in H as (arr' & Harr' & H). apply defined_Ok in Harr'.
  apply bind_Ok in H as (heap' & Hheap & H). apply defined_Ok in Hheap.
  injection H as <-. exists r, arr, arr'. cbn [world_of heap stdout].
  split; [exact Harr|]. split; [|split; [exact Hheap | reflexivity]].
  apply store_inv in Harr' as [_ ->]. apply length_insert.
Qed.

Lemma invokestatic_world exec class c f w s :
  invokestatic exec class c f w = Ok s ->
  exists (callee : method_t) (ls : list Z) (val : optional_value_t),
    exec callee ls w = Ok (val, world_of s).
Proof.
  unfold invokestatic. intros H.
  apply bind_Ok in H as (hi & _ & H). apply bind_Ok in H as (lo & _ & H).
  apply bind_Ok in H as (callee & _ & H).
  apply bind_Ok in H as (ls & _ & H).
  apply bind_Ok in H as ([val w1] & Hexec & H).
  exists callee, ls, val.
  destruct (has_value val).
  - bind_inv H. injection H as <-. exact Hexec.
  - injection H as <-. exact Hexec.
Qed.

(** What one iteration does to the world, by instruction. *)
Lemma step_world exec class method f w instruction s :
  load (code (method_code method)) (pc f) = Some instruction ->
  step exec class method f w = Ok s ->
  (instruction = i_invokestatic
   /\ exists (callee : method_t) (ls : list Z) (val : optional_value_t),
        exec callee ls w = Ok (val, world_of s))
  \/ (instruction = i_invokevirtual
      /\ exists v : Z,
           load (stack f) (to_size_t (stack_index f - 1)) = Some v
           /\ world_of s = {| heap := heap w; stdout := stdout w ++ [v] |})
  \/ (instruction = i_newarray
      /\ exists arr : list Z,
           world_of s = {| heap := heap w ++ [arr]; stdout := stdout w |})
  \/ (instruction = i_iastore
      /\ exists (r : Z) (arr arr' : list Z),
           load (heap w) r = Some arr
           /\ length arr' = length arr
           /\ store (heap w) r arr' = Some (heap (world_of s))
           /\ stdout (world_of s) = stdout w)
  \/ (touches_world instruction = false /\ world_of s = w).
Proof.
  intros Hi H. unfold step in H. rewrite Hi in H. cbn [defined bind] in H.
  revert H.
  repeat match goal with
  | |- (if ?b then _ else _) = Ok _ -> _ => destruct b eqn:?
  end; intros H.
  (* invokestatic *)
  3: { left. split; [apply Z.eqb_eq; assumption|].
       apply (invokestatic_world _ _ _ _ _ _ H). }
  (* the instructions that touch the world *)
  all: try match goal with
       | E : (_ =? i_invokevirtual) = true |- _ =>
           right; left; split; [apply Z.eqb_eq; exact E|];
           bind_inv H; injection H as <-;
           match goal with Hv : defined (load _ _) = Ok ?v |- _ =>
             apply defined_Ok in Hv; exists v; split; [exact Hv | reflexivity] end
       | E : (_ =? i_newarray) = true |- _ =>
           right; right; left; split; [apply Z.eqb_eq; exact E|];
           apply (newarray_world _ _ _ H)
       | E : (_ =? i_iastore) = true |- _ =>
           right; right; right; left; split; [apply Z.eqb_eq; exact E|];
           apply (iastore_world _ _ _ H)
       end.
  all: right; right; right; right.
  all: split;
    [ unfold touches_world;
      first
      [ match goal with
        | E : (?i =? ?c) = true |- _ => apply Z.eqb_eq in E; subst i; reflexivity
        end
      | match goal with
        | E : between ?lo ?i ?hi = true |- _ =>
            apply between_spec in E;
            repeat match goal with E' : _ = false |- _ => clear E' end;
            unfold_opcodes;
            repeat match goal with
            | |- context [Z.eqb i ?c] => replace (Z.eqb i c) with false by lia
            end; reflexivity
        end
      | repeat match goal with
        | E : ?t = false |- context [?t] => rewrite E
        end; reflexivity ]
    | ].
  all: first
    [ apply push_world in H; exact H
    | apply pop_to_local_world in H; exact H
    | apply binary_world in H; exact H
    | apply if_zero_world in H; exact H
    | apply if_icmp_world in H; exact H
    | apply arraylength_world in H; exact H
    | apply iaload_world in H; exact H
    | bind_inv H;
      first [ apply push_world in H; exact H
            | apply pop_to_local_world in H; exact H
            | injection H as <-; reflexivity ] ].
Qed.

Lemma extends_refl (w : world) : extends w w.
Proof.
  split; [exists []; rewrite app_nil_r; reflexivity|].
  intros r arr H. exists arr. split; [exact H | reflexivity].
Qed.

Lemma extends_trans (w1 w2 w3 : world) :
  extends w1 w2 -> extends w2 w3 -> extends w1 w3.
Proof.
  intros [[o1 H1] K1] [[o2 H2] K2]. split.
  - exists (o1 ++ o2). rewrite H2, H1, app_assoc. reflexivity.
  - intros r arr H. destruct (K1 r arr H) as (a1 & Ha1 & L1).
    destruct (K2 r a1 Ha1) as (a2 & Ha2 & L2).
    exists a2. split; [exact Ha2 | congruence].
Qed.

Lemma step_extends exec class method f w s :
  (forall m ls w0 r w1, exec m ls w0 = Ok (r, w1) -> extends w0 w1) ->
  step exec class method f w = Ok s ->
  extends w (world_of s).
Proof.
  intros Hexec H.
  destruct (load (code (method_code method)) (pc f)) as [instruction|] eqn:Hi.
  2:{ unfold step in H. rewrite Hi in H. discriminate. }
  destruct (step_world _ _ _ _ _ _ _ Hi H)
    as [[_ (callee & ls & val & Hc)]
       |[[_ (v & _ & ->)]
       |[[_ (arr & ->)]
       |[[_ (r & arr & arr' & Harr & Hlen & Hst & Hout)]
       |[_ ->]]]]].
  - exact (Hexec _ _ _ _ _ Hc).
  - split; [exists [v]; reflexivity|].
    intros r arr Ha. exists arr. split; [exact Ha | reflexivity].
  - split; [exists []; cbn [stdout]; rewrite app_nil_r; reflexivity|].
    intros r a Ha. exists a. split; [|reflexivity].
    cbn [heap]. apply load_app_l. exact Ha.
  - split; [exists []; rewrite Hout, app_nil_r; reflexivity|].
    intros r0 a Ha. destruct (Z.eq_dec r r0) as [<-|Hne].
    + exists arr'. split; [apply (load_store_same _ _ _ _ Hst)|congruence].
    + exists a. split; [|reflexivity].
      rewrite (load_store_other _ _ _ _ _ Hst) by exact Hne. exact Ha.
  - apply extends_refl.
Qed.

Lemma run_extends (fuel : nat) (class : class_file_t) (method : method_t)
    (f : frame) (w : world) (r : optional_value_t) (w' : world) :
  run fuel class method f w = Ok (r, w') -> extends w w'.
Proof.
  revert method f w r w'. induction fuel as [|fuel IH]; intros method f w r w' H;
    [discriminate|].
  rewrite run_unfold in H.
  destruct (pc f <? code_length (method_code method)).
  - apply bind_Ok in H as (s & Hs & H).
    assert (He : extends w (world_of s)).
    { apply (step_extends _ _ _ _ _ _ (fun m ls w0 r0 w1 Hr => IH m _ w0 r0 w1 Hr) Hs). }
    destruct s as [f' w0|r0 w0]; cbn [world_of] in He.
    + apply (extends_trans _ _ _ He). exact (IH _ _ _ _ _ H).
    + injection H as <- <-. exact He.
  - injection H as <- <-. apply extends_refl.
Qed.

(** A heap that keeps its references holds as many arrays or more. *)
Lemma extends_length (w w' : world) :
  extends w w' -> (length (heap w) <= length (heap w'))%nat.
Proof.
  intros [_ Hheap].
  destruct (le_lt_dec (length (heap w)) (length (heap w'))) as [Hle|Hlt];
    [exact Hle|].
  exfalso.
  destruct (load_in (heap w) (Z.of_nat (length (heap w')))) as [arr Ha]; [lia|].
  destruct (Hheap _ _ Ha) as (arr' & Ha' & _).
  apply load_inv in Ha' as [Hr _]. lia.
Qed.

(** X12: what [execute] leaves in place. When [execute] returns,
    whatever the method and the calls it made, the output is the output at
    entry with lines appended, the heap holds at least as many arrays, and
    every reference valid at entry still designates an array of as many
    cells. *)
Theorem execute_only_extends (fuel : nat) (method : method_t) (ls : list Z)
    (class : class_file_t) (w : world) (r : optional_value_t) (w' : world) :
  execute fuel method ls class w = Ok (r, w') ->
  (exists out : list Z, stdout w' = stdout w ++ out)
  /\ (length (heap w) <= length (heap w'))%nat
  /\ (forall (ref : Z) (arr : list Z),
        load (heap w) ref = Some arr ->
        exists arr' : list Z,
          load (heap w') ref = Some arr' /\ length arr' = length arr).
Proof.
  intros H. apply run_extends in H.
  split; [exact (proj1 H)|]. split; [exact (extends_length _ _ H) | exact (proj2 H)].
Qed.

(** [sum_loop] run over a heap of two arrays prints 55 and keeps both. *)
Lemma execute_only_extends_witness :
  (exists out : list Z, [55] = stdout two_arrays ++ out)
  /\ (length (heap two_arrays) <= length (heap two_arrays))%nat
  /\ (forall (ref : Z) (arr : list Z),
        load (heap two_arrays) ref = Some arr ->
        exists arr' : list Z,
          load (heap two_arrays) ref = Some arr' /\ length arr' = length arr).
Proof.
  refine (execute_only_extends 100 sum_loop [0; 0; 0] program_class two_arrays void
            {| heap := heap two_arrays; stdout := [55] |} _).
  vm_compute. reflexivity.
Defined.

Ltac absurd_op :=
  let H := fresh in intros H; vm_compute in H; discriminate H.

(** X11: the instructions that touch the heap or the output. An
    iteration on an instruction other than [invokestatic], [invokevirtual],
    [newarray] and [iastore] leaves both as they were; [invokevirtual]
    appends the top of the stack to the output and nothing else;
    [newarray] appends one array to the heap; [iastore] keeps the number of
    arrays and the output; [invokestatic] leaves the world its callee
    returned. *)
Theorem world_effects
    (exec : method_t -> list Z -> world -> result (optional_value_t * world))
    (class : class_file_t) (method : method_t) (f : frame) (w : world)
    (instruction : Z) (s : status) :
  load (code (method_code method)) (pc f) = Some instruction ->
  step exec class method f w = Ok s ->
  (touches_world instruction = false -> world_of s = w)
  /\ (instruction = i_invokevirtual ->
      exists v : Z,
        load (stack f) (to_size_t (stack_index f - 1)) = Some v
        /\ stdout (world_of s) = stdout w ++ [v]
        /\ heap (world_of s) = heap w)
  /\ (instruction = i_newarray ->
      stdout (world_of s) = stdout w
      /\ exists arr : list Z, heap (world_of s) = heap w ++ [arr])
  /\ (instruction = i_iastore ->
      stdout (world_of s) = stdout w
      /\ length (heap (world_of s)) = length (heap w))
  /\ (instruction = i_invokestatic ->
      exists (callee : method_t) (ls : list Z) (val : optional_value_t),
        exec callee ls w = Ok (val, world_of s)).
Proof.
  intros Hi H.
  destruct (step_world _ _ _ _ _ _ _ Hi H)
    as [[E (callee & ls & val & Hc)]
       |[[E (v & Hv & Hw)]
       |[[E (arr & Hw)]
       |[[E (r & arr & arr' & Harr & Hlen & Hst & Hout)]
       |[E Hw]]]]].
  - subst instruction.
    split; [absurd_op|]. split; [absurd_op|]. split; [absurd_op|].
    split; [absurd_op|]. intros _. exists callee, ls, val. exact Hc.
  - subst instruction.
    split; [absurd_op|]. split; [|split; [absurd_op|split; absurd_op]].
    intros _. exists v. rewrite Hw. cbn [heap stdout]. auto.
  - subst instruction.
    split; [absurd_op|]. split; [absurd_op|]. split; [|split; absurd_op].
    intros _. rewrite Hw. cbn [heap stdout]. split; [reflexivity|].
    exists arr. reflexivity.
  - subst instruction.
    split; [absurd_op|]. split; [absurd_op|]. split; [absurd_op|].
    split; [|absurd_op].
    intros _. split; [exact Hout|].
    apply store_inv in Hst as [_ Hst]. rewrite Hst. apply length_insert.
  - split; [intros _; exact Hw|].
    split; [|split; [|split]];
      intros He; subst instruction; vm_compute in E; discriminate E.
Qed.

(** [invokevirtual] with 42 on the stack prints 42. *)
Lemma world_effects_witness :
  exists v : Z,
    load [42] (to_size_t (1 - 1)) = Some v
    /\ [42] = stdout empty_world ++ [v]
    /\ heap_init = heap empty_world.
Proof.
  refine (proj1 (proj2
    (world_effects no_call empty_class (method_of 1 0 [i_invokevirtual; 0; 0] 0)
       (one_operand 42) empty_world i_invokevirtual
       (Running {| pc := 3; stack_index := 0; stack := [42]; locals := [] |}
          {| heap := heap_init; stdout := [42] |}) _ _)) _);
    reflexivity.
Defined.

(** * Array bounds *)

Lemma to_int32_succ_max : to_int32 (INT32_MAX + 1) = INT32_MIN.
Proof. reflexivity. Qed.

Lemma index_cell (j : Z) :
  is_int32 j ->
  (j <> INT32_MAX /\ to_int32 (j + 1) = j + 1)
  \/ (j = INT32_MAX /\ to_int32 (j + 1) = INT32_MIN).
Proof.
  intros Hj. destruct (Z.eq_dec j INT32_MAX) as [->|Hne].
  - right. split; reflexivity.
  - left. split; [exact Hne|]. apply to_int32_small.
    unfold is_int32, INT32_MIN, INT32_MAX in *. lia.
Qed.

(** [iaload] at an index outside the array. *)
Lemma iaload_outside
    (exec : method_t -> list Z -> world -> result (optional_value_t * world))
    (class : class_file_t) (method : method_t) (f : frame) (w : world)
    (r j : Z) (arr : list Z) :
  wf_method method = true ->
  wf_frame method f = true ->
  load (heap w) r = Some arr ->
  Z.of_nat (length arr) <= INT32_MAX ->
  is_int32 j ->
  load (code (method_code method)) (pc f) = Some i_iaload ->
  load (stack f) (stack_index f - 2) = Some r ->
  load (stack f) (stack_index f - 1) = Some j ->
  j < -1 \/ Z.of_nat (length arr) - 1 <= j ->
  step exec class method f w = Undefined.
Proof.
  intros Hm Hf Harr Hlen Hj Hi Hr Hjj Hout.
  pose proof (wf_method_inv _ Hm) as (Hms & _).
  pose proof (wf_frame_inv _ _ Hf) as (Hsi & Hslen).
  unfold INT32_MAX in Hlen.
  destruct (code_byte _ _ _ Hm Hi) as [Hpc _].
  pose proof (load_inv _ _ _ Hr) as [Hir _].
  dispatch Hi. unfold iaload, heap_get.
  rewrite !to_size_t_small by lia.
  rewrite Hr. cbn [defined bind]. rewrite Harr. cbn [defined bind].
  rewrite Hjj. cbn [defined bind].
  destruct (index_cell j Hj) as [[Hne ->]|[-> ->]];
    (rewrite load_none; [reflexivity|]);
    unfold INT32_MIN, INT32_MAX in *; lia.
Qed.

(** X13: the bounds of an array access. For an array of the heap
    with [n] elements (stored with the length in cell 0), [iaload] and
    [iastore] at index [j] access cell [j + 1]: they complete exactly for
    [-1 <= j < n], and are undefined behaviour for every other 32-bit
    index; the code checks no index. *)
Theorem array_index_bounds
    (exec : method_t -> list Z -> world -> result (optional_value_t * world))
    (class : class_file_t) (method : method_t) (f : frame) (w : world)
    (r j : Z) (arr : list Z) :
  wf_method method = true ->
  wf_frame method f = true ->
  load (heap w) r = Some arr ->
  Z.of_nat (length arr) <= INT32_MAX ->
  is_int32 j ->
  (load (code (method_code method)) (pc f) = Some i_iaload ->
   load (stack f) (stack_index f - 2) = Some r ->
   load (stack f) (stack_index f - 1) = Some j ->
   (-1 <= j < Z.of_nat (length arr) - 1 ->
    exists v : Z,
      load arr (j + 1) = Some v
      /\ step exec class method f w = Ok (Running (binary_result f v) w))
   /\ (j < -1 \/ Z.of_nat (length arr) - 1 <= j ->
       step exec class method f w = Undefined))
  /\ (forall v : Z,
        load (code (method_code method)) (pc f) = Some i_iastore ->
        load (stack f) (stack_index f - 3) = Some r ->
        load (stack f) (stack_index f - 2) = Some j ->
        load (stack f) (stack_index f - 1) = Some v ->
        (-1 <= j < Z.of_nat (length arr) - 1 ->
         step exec class method f w
         = Ok (Running (after_iastore f)
                 {| heap := <[Z.to_nat r := <[Z.to_nat (j + 1) := v]> arr]> (heap w);
                    stdout := stdout w |}))
        /\ (j < -1 \/ Z.of_nat (length arr) - 1 <= j ->
            step exec class method f w = Undefined)).
Proof.
  intros Hm Hf Harr Hlen Hj.
  pose proof (wf_method_inv _ Hm) as (Hms & _).
  pose proof (wf_frame_inv _ _ Hf) as (Hsi & Hslen).
  unfold INT32_MAX in Hlen.
  split.
  - intros Hi Hr Hjj.
    destruct (code_byte _ _ _ Hm Hi) as [Hpc _].
    pose proof (load_inv _ _ _ Hr) as [Hir _].
    split.
    + intros Hin. destruct (load_in arr (j + 1)) as [v Hv]; [lia|].
      exists v. split; [exact Hv|]. dispatch Hi.
      apply (iaload_ok method f w _ r j v arr Hm Hf Hi Hr Hjj Harr); [|exact Hv].
      unfold is_int32, INT32_MIN, INT32_MAX in *. lia.
    + intros Hout.
      apply (iaload_outside exec class method f w r j arr Hm Hf Harr); assumption.
  - intros v Hi Hr Hjj Hv.
    destruct (code_byte _ _ _ Hm Hi) as [Hpc _].
    pose proof (load_inv _ _ _ Hr) as [Hir _].
    split.
    + intros Hin. dispatch Hi.
      apply (iastore_ok method f w _ r j v arr Hm Hf Hi Hr Hjj Hv Harr); [|lia].
      unfold is_int32, INT32_MIN, INT32_MAX in *. lia.
    + intros Hout. dispatch Hi. unfold iastore, heap_get.
      rewrite !to_size_t_small by lia.
      rewrite Hr. cbn [defined bind]. rewrite Harr. cbn [defined bind].
      rewrite Hjj. cbn [defined bind]. rewrite Hv. cbn [defined bind].
      destruct (index_cell j Hj) as [[Hne ->]|[-> ->]];
        (rewrite store_none; [reflexivity|]);
        unfold INT32_MIN, INT32_MAX in *; lia.
Qed.

(** [iaload] at index 3 of an array of 3 elements. *)
Lemma array_index_bounds_witness :
  step no_call empty_class (one_instruction i_iaload) (two_operands 0 3) two_arrays
  = Undefined.
Proof.
  refine (proj2 (proj1
    (array_index_bounds no_call empty_class (one_instruction i_iaload)
       (two_operands 0 3) two_arrays 0 3 [3; 0; 0; 0] _ _ _ _ _) _ _ _) _);
    try reflexivity.
  - unfold INT32_MAX. simpl. lia.
  - unfold is_int32, INT32_MIN, INT32_MAX. lia.
  - right. simpl. lia.
Defined.

(** X14: the length of an array is a cell of the array. [iastore] at
    index [-1] overwrites the length stored in cell 0, and [arraylength] on
    that reference yields the stored value from then on. *)
Theorem length_cell_writable
    (exec : method_t -> list Z -> world -> result (optional_value_t * world))
    (class : class_file_t) (method : method_t) (f : frame) (w : world)
    (r L v : Z) (elems : list Z) :
  wf_method method = true ->
  wf_frame method f = true ->
  load (heap w) r = Some (L :: elems) ->
  load (code (method_code method)) (pc f) = Some i_iastore ->
  load (stack f) (stack_index f - 3) = Some r ->
  load (stack f) (stack_index f - 2) = Some (-1) ->
  load (stack f) (stack_index f - 1) = Some v ->
  exists w1 : world,
    step exec class method f w = Ok (Running (after_iastore f) w1)
    /\ load (heap w1) r = Some (v :: elems)
    /\ (forall exec2 method2 f2,
          wf_method method2 = true -> wf_frame method2 f2 = true ->
          load (code (method_code method2)) (pc f2) = Some i_arraylength ->
          load (stack f2) (stack_index f2 - 1) = Some r ->
          step exec2 class method2 f2 w1
          = Ok (Running (after_arraylength f2 v) w1)).
Proof.
  intros Hm Hf Harr Hi Hr Hj Hv.
  pose proof (load_inv _ _ _ Harr) as [Hir _].
  set (w1 := {| heap := <[Z.to_nat r := v :: elems]> (heap w); stdout := stdout w |}).
  assert (Hnew : load (heap w1) r = Some (v :: elems)).
  { apply (load_store_same (heap w)). apply store_in. exact Hir. }
  exists w1. split; [|split; [exact Hnew|]].
  - dispatch Hi.
    rewrite (iastore_ok method f w _ r (-1) v _ Hm Hf Hi Hr Hj Hv Harr).
    + reflexivity.
    + unfold is_int32, INT32_MIN, INT32_MAX. lia.
    + simpl. lia.
  - intros exec2 method2 f2 Hm2 Hf2 Hi2 Hr2. dispatch Hi2.
    exact (arraylength_ok method2 f2 w1 _ r v _ Hm2 Hf2 Hi2 Hr2 Hnew).
Qed.

(** [iastore] of 9 at index [-1] of the first of two arrays. *)
Lemma length_cell_writable_witness :
  exists w1 : world,
    step no_call empty_class (method_of 3 0 [i_iastore] 0) (frame_of 3 [0; -1; 9] [])
      two_arrays
    = Ok (Running {| pc := 1; stack_index := 0; stack := [0; -1; 9]; locals := [] |} w1)
    /\ load (heap w1) 0 = Some [9; 0; 0; 0].
Proof.
  destruct (length_cell_writable no_call empty_class (method_of 3 0 [i_iastore] 0)
              (frame_of 3 [0; -1; 9] []) two_arrays 0 3 9 [0; 0; 0]
              eq_refl eq_refl eq_refl eq_refl eq_refl eq_refl eq_refl)
    as (w1 & H1 & H2 & _).
  exists w1. split; [exact H1 | exact H2].
Defined.

(** X15: the lengths [newarray] cannot allocate. A negative length,
    and [INT32_MAX] (for which [length + 1] overflows), are undefined
    behaviour; length 0 allocates the one-cell array [[0]], every
    non-negative index of which is outside it. *)
Theorem newarray_lengths
    (exec : method_t -> list Z -> world -> result (optional_value_t * world))
    (class : class_file_t) (method : method_t) (f : frame) (w : world) (n : Z) :
  wf_method method = true ->
  wf_frame method f = true ->
  load (code (method_code method)) (pc f) = Some i_newarray ->
  load (stack f) (stack_index f - 1) = Some n ->
  is_int32 n ->
  (n < 0 \/ n = INT32_MAX -> step exec class method f w = Undefined)
  /\ (n = 0 ->
      step exec class method f w
      = Ok (Running (after_newarray f (Z.of_nat (length (heap w))))
              {| heap := heap w ++ [[0]]; stdout := stdout w |})
      /\ forall exec2 method2 f2 w2 j,
           wf_method method2 = true -> wf_frame method2 f2 = true ->
           load (heap w2) (Z.of_nat (length (heap w))) = Some [0] ->
           load (code (method_code method2)) (pc f2) = Some i_iaload ->
           load (stack f2) (stack_index f2 - 2) = Some (Z.of_nat (length (heap w))) ->
           load (stack f2) (stack_index f2 - 1) = Some j ->
           0 <= j <= INT32_MAX ->
           step exec2 class method2 f2 w2 = Undefined).
Proof.
  intros Hm Hf Hi Hn Hr.
  destruct (code_byte _ _ _ Hm Hi) as [Hpc _].
  pose proof (wf_method_inv _ Hm) as (Hms & _).
  pose proof (wf_frame_inv _ _ Hf) as (Hsi & Hlen).
  pose proof (load_inv _ _ _ Hn) as [Hin _].
  split.
  - intros Hbad. dispatch Hi. unfold newarray.
    rewrite !to_size_t_small by lia. rewrite Hn. cbn [defined bind].
    assert (Hcount : to_int32 (n + 1) <= 0).
    { destruct Hbad as [Hneg | ->].
      - rewrite to_int32_small; unfold is_int32, INT32_MIN, INT32_MAX in *; lia.
      - rewrite to_int32_succ_max. unfold INT32_MIN. lia. }
    unfold calloc.
    replace (Z.to_nat (to_int32 (n + 1) - 1)) with 0%nat by lia.
    replace (Z.to_nat (to_int32 (n + 1))) with 0%nat by lia.
    reflexivity.
  - intros ->. split.
    + dispatch Hi.
      rewrite (newarray_ok method f w _ 0 Hm Hf Hi Hn); [reflexivity|].
      unfold INT32_MAX. lia.
    + intros exec2 method2 f2 w2 j Hm2 Hf2 Harr Hi2 Hr2 Hj Hjr.
      apply (iaload_outside exec2 class method2 f2 w2
               (Z.of_nat (length (heap w))) j [0] Hm2 Hf2 Harr); try assumption.
      * simpl. unfold INT32_MAX. lia.
      * unfold is_int32, INT32_MIN, INT32_MAX in *. lia.
      * right. simpl. lia.
Qed.

(** [newarray] asked for [-1] cells. *)
Lemma newarray_lengths_witness :
  step no_call empty_class newarray_method (one_operand (-1)) empty_world = Undefined.
Proof.
  refine (proj1
    (newarray_lengths no_call empty_class newarray_method (one_operand (-1))
       empty_world (-1) _ _ _ _ _) _);
    try reflexivity.
  - unfold is_int32, INT32_MIN, INT32_MAX. lia.
  - left. lia.
Defined.

(** * Failures of [invokestatic] *)

Lemma copy_parameters_underflow (method : method_t) (f : frame)
    (n : nat) (i P : Z) (lt : list Z) :
  wf_method method = true ->
  wf_frame method f = true ->
  0 <= i <= stack_index f ->
  stack_index f < i + Z.of_nat n ->
  copy_parameters n i P (stack f) (stack_index f) lt = None.
Proof.
  intros Hm Hf. revert i lt. induction n as [|n IH]; intros i lt Hi Hn; [lia|].
  cbn [copy_parameters].
  destruct (Z.eq_dec i (stack_index f)) as [->|Hne].
  - replace (stack_index f - stack_index f - 1) with (stack_index f - (stack_index f + 1))
      by lia.
    pose proof (wf_method_inv _ Hm) as (Hms & _).
    pose proof (wf_frame_inv _ _ Hf) as (Hsi & Hlen).
    rewrite (load_below method f (stack_index f + 1) Hm Hf) by lia. reflexivity.
  - destruct (load (stack f) (to_size_t (stack_index f - i - 1))); [|reflexivity].
    destruct (store lt (P - i - 1) z); [|reflexivity].
    apply IH; lia.
Qed.

(** X16: how [invokestatic] fails. A constant-pool index that
    resolves to no method, fewer values on the stack than the callee has
    parameters, and a callee with fewer locals than parameters are
    undefined behaviour; a failed [assert] or an undefined behaviour in the
    callee is that of the caller; and the value of a callee without
    parameters, returned onto a full stack, is written past its last
    cell. *)
Theorem invokestatic_faults
    (exec : method_t -> list Z -> world -> result (optional_value_t * world))
    (class : class_file_t) (method : method_t) (f : frame) (w : world)
    (hi lo : Z) :
  wf_method method = true ->
  wf_frame method f = true ->
  load (code (method_code method)) (pc f) = Some i_invokestatic ->
  load (code (method_code method)) (pc f + 1) = Some hi ->
  load (code (method_code method)) (pc f + 2) = Some lo ->
  (find_method_from_index class (to_int16 (hi * 256 + lo)) = None ->
   step exec class method f w = Undefined)
  /\ (forall callee : method_t,
        find_method_from_index class (to_int16 (hi * 256 + lo)) = Some callee ->
        0 <= get_number_of_parameters callee <= 32767 ->
        (stack_index f < get_number_of_parameters callee ->
         step exec class method f w = Undefined)
        /\ (0 <= max_locals (method_code callee) < get_number_of_parameters callee ->
            step exec class method f w = Undefined)
        /\ (get_number_of_parameters callee <= stack_index f ->
            get_number_of_parameters callee <= max_locals (method_code callee) ->
            (exec callee (callee_locals f callee) w = AssertFail ->
             step exec class method f w = AssertFail)
            /\ (exec callee (callee_locals f callee) w = Undefined ->
                step exec class method f w = Undefined)
            /\ (exec callee (callee_locals f callee) w = OutOfFuel ->
                step exec class method f w = OutOfFuel)
            /\ (forall (val : optional_value_t) (w' : world),
                  exec callee (callee_locals f callee) w = Ok (val, w') ->
                  has_value val = true ->
                  get_number_of_parameters callee = 0 ->
                  stack_index f = max_stack (method_code method) ->
                  step exec class method f w = Undefined))).
Proof.
  intros Hm Hf Hi Hhi Hlo.
  destruct (code_byte _ _ _ Hm Hi) as [Hpc _].
  destruct (code_byte _ _ _ Hm Hhi) as [_ Hh].
  destruct (code_byte _ _ _ Hm Hlo) as [_ Hl].
  pose proof (wf_method_inv _ Hm) as (Hms & _).
  pose proof (wf_frame_inv _ _ Hf) as (Hsi0 & Hlen).
  assert (Hstep : step exec class method f w
                  = (m <- defined (find_method_from_index class (to_int16 (hi * 256 + lo))) ;;
                     let parameters := to_int16 (get_number_of_parameters m) in
                     local_temp <- defined
                       (copy_parameters (Z.to_nat parameters) 0 parameters
                          (stack f) (stack_index f) (calloc (max_locals (method_code m)))) ;;
                     val <- exec m local_temp w ;;
                     let '(val, w') := val in
                     if has_value val then
                       st <- defined (store (stack f)
                                        (to_size_t (stack_index f - parameters))
                                        (value val)) ;;
                       Ok (Running {| pc := to_size_t (pc f + 3);
                                      stack_index :=
                                        to_size_t (to_size_t (stack_index f - parameters) + 1);
                                      stack := st;
                                      locals := locals f |} w')
                     else
                       Ok (Running {| pc := to_size_t (pc f + 3);
                                      stack_index := to_size_t (stack_index f - parameters);
                                      stack := stack f;
                                      locals := locals f |} w'))).
  { dispatch Hi. unfold invokestatic. rewrite !to_size_t_small by lia.
    rewrite Hhi, Hlo. cbn [defined bind].
    rewrite s16_big_endian by assumption.
    rewrite (to_int16_small (to_int16 _)) by apply to_int16_range.
    reflexivity. }
  rewrite Hstep. clear Hstep.
  split.
  - intros ->. reflexivity.
  - intros callee -> HP. cbn [defined bind].
    rewrite (to_int16_small (get_number_of_parameters callee)) by lia.
    split; [|split].
    + intros Hlt.
      rewrite (copy_parameters_underflow method f _ 0 _ _ Hm Hf) by lia.
      reflexivity.
    + intros Hml.
      destruct (Z.to_nat (get_number_of_parameters callee)) as [|n] eqn:En; [lia|].
      cbn [copy_parameters].
      destruct (load (stack f) (to_size_t (stack_index f - 0 - 1)));
        [|reflexivity].
      rewrite store_none; [reflexivity|].
      unfold calloc. rewrite length_replicate. lia.
    + intros Hle Hml.
      rewrite copy_parameters_locals by lia. cbn [defined bind].
      split; [|split; [|split]].
      * intros ->. reflexivity.
      * intros ->. reflexivity.
      * intros ->. reflexivity.
      * intros val w' -> Hv HP0 Hfull. cbn [bind]. rewrite Hv.
        rewrite HP0, Z.sub_0_r. rewrite to_size_t_small by lia.
        rewrite store_none by lia. reflexivity.
Qed.

(** [invokestatic] of a two-parameter method with one value on the stack. *)
Lemma invokestatic_faults_witness :
  step no_call caller_class caller (frame_of 1 [10; 0] []) empty_world = Undefined.
Proof.
  refine (proj1 (proj2
    (invokestatic_faults no_call caller_class caller (frame_of 1 [10; 0] [])
       empty_world 0 2 _ _ _ _ _) first_of_two _ _) _);
    try reflexivity.
  simpl. lia.
Defined.

(** * The process entry *)

(** X17: how [main] ends. With an argument count other than 2 it
    prints the usage line, runs nothing and returns 1. With 2 it returns
    only if the file opened and closed, [find_method] resolved [main] with
    its descriptor, and [execute], started on [max_locals] zeroed locals in
    an empty heap, returned void; it then returns 0, having printed what
    [execute] printed, and every such run returns so. A value returned by
    the main method, a file that did not open or close, and a class without
    [main] fail an [assert]. *)
Theorem main_exit_code (fuel : nat) (argc : Z) (h : host) :
  (argc <> 2 ->
   main fuel argc h = Ok {| exit_code := 1; usage := true; printed := [] |})
  /\ (forall p : process,
        argc = 2 ->
        main fuel argc h = Ok p ->
        fopen h = true
        /\ fclose h = 0
        /\ exists (m : method_t) (w : world),
             find_method h MAIN_METHOD MAIN_DESCRIPTOR (get_class h) = Some m
             /\ execute fuel m (replicate (Z.to_nat (max_locals (method_code m))) 0)
                  (get_class h) empty_world
                = Ok (void, w)
             /\ p = {| exit_code := 0; usage := false; printed := stdout w |})
  /\ (forall (m : method_t) (r : optional_value_t) (w : world),
        argc = 2 -> fopen h = true -> fclose h = 0 ->
        find_method h MAIN_METHOD MAIN_DESCRIPTOR (get_class h) = Some m ->
        execute fuel m (replicate (Z.to_nat (max_locals (method_code m))) 0)
          (get_class h) empty_world
        = Ok (r, w) ->
        (has_value r = false ->
         main fuel argc h
         = Ok {| exit_code := 0; usage := false; printed := stdout w |})
        /\ (has_value r = true -> main fuel argc h = AssertFail))
  /\ (argc = 2 ->
      fopen h = false
      \/ fclose h <> 0
      \/ find_method h MAIN_METHOD MAIN_DESCRIPTOR (get_class h) = None ->
      main fuel argc h = AssertFail).
Proof.
  split; [|split; [|split]].
  - intros Hne. unfold main.
    replace (argc =? 2) with false by lia. reflexivity.
  - intros p -> H. unfold main in H. cbn [Z.eqb Pos.eqb negb] in H.
    apply bind_Ok in H as (u1 & Hopen & H). apply c_assert_Ok in Hopen.
    apply bind_Ok in H as (u2 & Hclose & H). apply c_assert_Ok in Hclose.
    apply bind_Ok in H as (m & Hfind & H).
    destruct (find_method h MAIN_METHOD MAIN_DESCRIPTOR (get_class h)) as [m0|] eqn:Hf;
      [|discriminate].
    injection Hfind as ->.
    apply bind_Ok in H as ([r w] & Hexec & H).
    apply bind_Ok in H as (u3 & Hvoid & H). apply c_assert_Ok in Hvoid.
    injection H as <-.
    split; [exact Hopen|]. split; [lia|].
    exists m, w. split; [reflexivity|]. split; [|reflexivity].
    fold empty_world in Hexec. unfold heap_init in *.
    destruct (run_result _ _ _ _ _ _ _ Hexec) as [-> | Hv]; [exact Hexec|].
    rewrite Hv in Hvoid. discriminate.
  - intros m r w -> Hopen Hclose Hfind Hexec.
    assert (Hmain : main fuel 2 h
                    = (_ <- c_assert (negb (has_value r)) ;;
                       Ok {| exit_code := 0; usage := false; printed := stdout w |})).
    { unfold main. cbn [Z.eqb Pos.eqb negb]. rewrite Hopen, Hclose, Hfind.
      cbn [c_assert bind Z.eqb].
      unfold empty_world in Hexec. rewrite Hexec. reflexivity. }
    rewrite Hmain. split; intros ->; reflexivity.
  - intros -> Hbad. unfold main. cbn [Z.eqb Pos.eqb negb].
    destruct (fopen h); [|reflexivity]. cbn [c_assert bind].
    destruct (fclose h =? 0) eqn:Hc; [|reflexivity]. cbn [c_assert bind].
    destruct Hbad as [Hb|[Hb|Hb]]; [discriminate | lia |].
    rewrite Hb. reflexivity.
Qed.

(** [main] on a host that resolves [program_main] returns 0 after
    [execute] printed six lines. *)
Lemma main_exit_code_witness :
  fopen program_host = true
  /\ fclose program_host = 0
  /\ exists (m : method_t) (w : world),
       find_method program_host MAIN_METHOD MAIN_DESCRIPTOR (get_class program_host)
       = Some m
       /\ execute 100 m (replicate (Z.to_nat (max_locals (method_code m))) 0)
            (get_class program_host) empty_world
          = Ok (void, w)
       /\ {| exit_code := 0; usage := false;
             printed := [120; 7; 42; 3; -4; 2147483644] |}
          = {| exit_code := 0; usage := false; printed := stdout w |}.
Proof.
  refine (proj1 (proj2 (main_exit_code 100 2 program_host))
            {| exit_code := 0; usage := false;
               printed := [120; 7; 42; 3; -4; 2147483644] |} _ _).
  - reflexivity.
  - vm_compute. reflexivity.
Defined.

(** A main method without locals runs: [bipush 42], print, [return] with
    [max_locals = 0] prints 42 and [main] returns 0. *)
Example main_without_locals :
  main 10 2
    {| fopen := true; get_class := empty_class; fclose := 0;
       find_method := fun _ _ _ =>
         Some (method_of 1 0
                 [i_bipush; 42; i_getstatic; 0; 0; i_invokevirtual; 0; 0; i_return] 1) |}
  = Ok {| exit_code := 0; usage := false; printed := [42] |}.
Proof. vm_compute. reflexivity. Qed.

(** * The footprint of an instruction *)

(** The value of a table of instructions at the fetched one, from the
    outcomes of the tests of the dispatch chain. *)
Ltac table :=
  first
  [ match goal with
    | E : (?i =? ?c) = true |- _ =>
        apply Z.eqb_eq in E; subst i; lazy; reflexivity
    end
  | match goal with
    | E : between ?lo ?i ?hi = true |- _ =>
        apply between_spec in E;
        repeat match goal with E' : _ = false |- _ => clear E' end;
        unfold instruction_width, is_branch, writes_local, supported;
        cbn [existsb]; unfold_opcodes;
        repeat match goal with
        | |- context [Z.eqb i ?c] => replace (Z.eqb i c) with false by lia
        | |- context [(?a <=? i) && (i <=? ?b)] =>
            first [ replace ((a <=? i) && (i <=? b)) with true by lia
                  | replace ((a <=? i) && (i <=? b)) with false by lia ]
        end; lazy; reflexivity
    end
  | unfold instruction_width, is_branch, writes_local, supported; cbn [existsb];
    repeat match goal with
    | E : ?t = false |- context [?t] => rewrite E
    end; lazy; reflexivity ].

Ltac tabulate fn :=
  match goal with
  | |- context [fn ?i] =>
      first [ replace (fn i) with false by (symmetry; table)
            | replace (fn i) with true by (symmetry; table)
            | replace (fn i) with 0 by (symmetry; table)
            | replace (fn i) with 1 by (symmetry; table)
            | replace (fn i) with 2 by (symmetry; table)
            | replace (fn i) with 3 by (symmetry; table) ]
  end.

(** X18: the footprint of an instruction. An iteration that goes on
    to a next one moved [pc] by the width of the instruction (1, 2 or 3
    bytes; 0 for an instruction no test matches) unless the instruction is
    a branch; it left the locals as they were unless the instruction is
    [istore], [astore], [iinc] or a one-byte store, and never changed their
    number; and it wrote no cell of the stack other than the one that is
    the top afterwards. *)
Theorem instruction_footprint
    (exec : method_t -> list Z -> world -> result (optional_value_t * world))
    (class : class_file_t) (method : method_t) (f f' : frame) (w w' : world)
    (instruction : Z) :
  wf_method method = true ->
  wf_frame method f = true ->
  load (code (method_code method)) (pc f) = Some instruction ->
  step exec class method f w = Ok (Running f' w') ->
  (is_branch instruction = false -> pc f' = pc f + instruction_width instruction)
  /\ (writes_local instruction = false -> locals f' = locals f)
  /\ length (locals f') = length (locals f)
  /\ (forall j : nat,
        Z.of_nat j <> stack_index f' - 1 -> stack f' !! j = stack f !! j).
Proof.
  intros Hm Hf Hi H.
  assert (Hpc : 0 <= pc f < 4294967295).
  { apply wf_method_inv in Hm as (_ & _ & Hcl & Hlen & _).
    apply load_inv in Hi as [Hi _]. lia. }
  apply wf_method_inv in Hm as (Hms & _).
  apply wf_frame_inv in Hf as (Hsi & Hlen).
  unfold step in H. rewrite Hi in H. cbn [defined bind] in H. clear Hi. revert H.
  repeat match goal with
  | |- (if ?b then _ else _) = Ok _ -> _ => destruct b eqn:?
  end; intros H.
  all: try discriminate.
  all: try (bind_inv H; discriminate).
  all: tabulate instruction_width; tabulate is_branch; tabulate writes_local.
  all: repeat match goal with
       | E : _ = false |- _ => clear E
       | E : _ = true |- _ => clear E
       end.
  all: unfold invokestatic, push, pop_to_local, binary, if_zero, if_icmp,
         newarray, arraylength, iastore, iaload in H.
  all: bind_inv H.
  all: try (unfold push, pop_to_local in H; bind_inv H).
  all: injection H as <- <-; facts; cbn [pc locals stack stack_index set_pc].
  all: rewrite ?length_insert.
  all: split; [intros E; try discriminate E; clear E;
               try (rewrite to_size_t_small by lia; reflexivity); lia
              | split; [intros E; try discriminate E; reflexivity
                       | split; [reflexivity|] ] ].
  all: intros j Hj; try reflexivity.
  all: apply list_lookup_insert_ne.
  all: unfold to_size_t in *; Z.div_mod_to_equations; lia.
Qed.

(** [iadd] moves [pc] by one byte, keeps the locals and writes the new top
    of the stack only. *)
Lemma instruction_footprint_witness :
  (is_branch i_iadd = false -> 1 = 0 + instruction_width i_iadd)
  /\ (writes_local i_iadd = false -> @nil Z = [])
  /\ length (@nil Z) = length (@nil Z)
  /\ (forall j : nat, Z.of_nat j <> 1 - 1 -> [3; 2] !! j = [1; 2] !! j).
Proof.
  refine (instruction_footprint no_call empty_class (one_instruction i_iadd)
            (two_operands 1 2)
            {| pc := 1; stack_index := 1; stack := [3; 2]; locals := [] |}
            empty_world empty_world i_iadd _ _ _ _);
    reflexivity.
Defined.

(** * 32-bit values *)

Lemma load_Forall {A : Type} (P : A -> Prop) (a : list A) (i : Z) (v : A) :
  Forall P a -> load a i = Some v -> P v.
Proof.
  intros Ha H. apply load_inv in H as [_ H].
  rewrite Forall_lookup in Ha. exact (Ha _ _ H).
Qed.

Lemma store_Forall {A : Type} (P : A -> Prop) (a a' : list A) (i : Z) (v : A) :
  Forall P a -> P v -> store a i v = Some a' -> Forall P a'.
Proof.
  intros Ha Hv H. apply store_inv in H as [_ ->].
  apply Forall_insert; assumption.
Qed.

Lemma calloc_int32 (n : Z) : Forall is_int32 (calloc n).
Proof.
  unfold calloc. apply Forall_replicate.
  unfold is_int32, INT32_MIN, INT32_MAX. lia.
Qed.

Lemma zero_fill_int32 (k : nat) (i : Z) (arr arr' : list Z) :
  Forall is_int32 arr -> zero_fill k i arr = Some arr' -> Forall is_int32 arr'.
Proof.
  revert i arr. induction k as [|k IH]; intros i arr Ha H; cbn [zero_fill] in H.
  - injection H as <-. exact Ha.
  - destruct (store arr i 0) as [arr0|] eqn:Hs; [|discriminate].
    apply (IH (i + 1) arr0); [|exact H].
    apply (store_Forall _ _ _ _ _ Ha) in Hs; [exact Hs|].
    unfold is_int32, INT32_MIN, INT32_MAX. lia.
Qed.

Lemma copy_parameters_int32 (n : nat) (i P : Z) (st : list Z) (si : Z)
    (lt lt' : list Z) :
  Forall is_int32 st -> Forall is_int32 lt ->
  copy_parameters n i P st si lt = Some lt' -> Forall is_int32 lt'.
Proof.
  intros Hst. revert i lt. induction n as [|n IH]; intros i lt Hlt H;
    cbn [copy_parameters] in H.
  - injection H as <-. exact Hlt.
  - destruct (load st (to_size_t (si - i - 1))) as [v|] eqn:Hv; [|discriminate].
    destruct (store lt (P - i - 1) v) as [lt0|] eqn:Hs; [|discriminate].
    apply (IH (i + 1) lt0); [|exact H].
    apply (store_Forall _ _ _ _ _ Hlt) in Hs; [exact Hs|].
    exact (load_Forall _ _ _ _ Hst Hv).
Qed.

Lemma small_int32 (z : Z) : -32768 <= z <= 32767 -> is_int32 z.
Proof. unfold is_int32, INT32_MIN, INT32_MAX. lia. Qed.

Lemma to_int8_range (z : Z) : -128 <= to_int8 z <= 127.
Proof. unfold to_int8. pose proof (Z.mod_pos_bound (z + 128) 256). lia. Qed.

Lemma c_div_int32 (a b c : Z) :
  is_int32 a -> is_int32 b -> c_div a b = Some c -> is_int32 c.
Proof.
  intros Ha Hb. unfold c_div.
  destruct (b =? 0) eqn:E0; [discriminate|].
  destruct ((a =? INT32_MIN) && (b =? -1)) eqn:E1; [discriminate|].
  cbn [orb]. intros [= <-].
  apply quot_range; [exact Ha | exact Hb | lia |].
  intros [-> ->]. discriminate E1.
Qed.

Lemma c_rem_int32 (a b c : Z) :
  is_int32 a -> is_int32 b -> c_rem a b = Some c -> is_int32 c.
Proof.
  intros Ha Hb. unfold c_rem.
  destruct (b =? 0) eqn:E0; [discriminate|]. cbn [orb].
  destruct ((a =? INT32_MIN) && (b =? -1)); [discriminate|].
  intros [= <-].
  assert (Hnz : b <> 0) by lia.
  pose proof (Z.rem_bound_abs a b Hnz) as Hr.
  unfold is_int32, INT32_MIN, INT32_MAX in *. lia.
Qed.

Lemma c_shl_int32 (a b c : Z) : c_shl a b = Some c -> is_int32 c.
Proof.
  unfold c_shl. intros [= <-]. apply to_int32_range.
Qed.

Lemma c_ushr_int32 (a b c : Z) : c_ushr a b = Some c -> is_int32 c.
Proof.
  unfold c_ushr. intros [= <-]. apply to_int32_range.
Qed.

Lemma c_shr_int32 (a b c : Z) : is_int32 a -> c_shr a b = Some c -> is_int32 c.
Proof.
  intros Ha. unfold c_shr. intros [= <-].
  pose proof (shift_count_range b) as Hn.
  rewrite Z.shiftr_div_pow2 by lia. apply shr_range; [exact Ha | lia].
Qed.

Lemma land_int32 (a b : Z) : is_int32 a -> is_int32 b -> is_int32 (Z.land a b).
Proof.
  apply (bitwise_range Z.land); try (right; reflexivity); try (left; reflexivity).
  intros. apply Z.shiftr_land.
Qed.

Lemma lor_int32 (a b : Z) : is_int32 a -> is_int32 b -> is_int32 (Z.lor a b).
Proof.
  apply (bitwise_range Z.lor); try (right; reflexivity); try (left; reflexivity).
  intros. apply Z.shiftr_lor.
Qed.

Lemma lxor_int32 (a b : Z) : is_int32 a -> is_int32 b -> is_int32 (Z.lxor a b).
Proof.
  apply (bitwise_range Z.lxor); try (right; reflexivity); try (left; reflexivity).
  intros. apply Z.shiftr_lxor.
Qed.

Section Int32.

Variables (f : frame) (w : world).
Hypothesis Hf : int32_frame f.
Hypothesis Hw : int32_world w.

Lemma top_int32 (i v : Z) : load (stack f) i = Some v -> is_int32 v.
Proof. exact (load_Forall _ _ _ _ (proj1 Hf)). Qed.

Lemma local_int32 (i v : Z) : load (locals f) i = Some v -> is_int32 v.
Proof. exact (load_Forall _ _ _ _ (proj2 Hf)). Qed.

Lemma push_int32 (v n : Z) (s : status) :
  is_int32 v -> push f w v n = Ok s -> int32_status s.
Proof.
  intros Hv H. unfold push in H. bind_inv H. injection H as <-.
  apply defined_Ok in Hx.
  split; [|exact Hw]. split; cbn [stack locals]; [|exact (proj2 Hf)].
  exact (store_Forall _ _ _ _ _ (proj1 Hf) Hv Hx).
Qed.

Lemma pop_to_local_int32 (i n : Z) (s : status) :
  pop_to_local f w i n = Ok s -> int32_status s.
Proof.
  intros H. unfold pop_to_local in H. bind_inv H. injection H as <-.
  apply defined_Ok in Hx, Hx0.
  split; [|exact Hw]. split; cbn [stack locals]; [exact (proj1 Hf)|].
  exact (store_Forall _ _ _ _ _ (proj2 Hf) (top_int32 _ _ Hx) Hx0).
Qed.

Lemma binary_int32 (op : Z -> Z -> option Z) (nz : bool) (s : status) :
  (forall a b c, is_int32 a -> is_int32 b -> op a b = Some c -> is_int32 c) ->
  binary op nz f w = Ok s -> int32_status s.
Proof.
  intros Hop H. unfold binary in H. bind_inv H. injection H as <-.
  repeat match goal with E : defined _ = Ok _ |- _ => apply defined_Ok in E end.
  split; [|exact Hw]. split; cbn [stack locals]; [|exact (proj2 Hf)].
  match goal with
  | E : store _ _ ?c = Some _ |- _ =>
      apply (store_Forall _ _ _ _ _ (proj1 Hf)) in E; [exact E|]
  end.
  match goal with
  | E : op ?a ?b = Some _ |- _ => apply (Hop a b); [| |exact E]
  end; eapply top_int32; eassumption.
Qed.

Lemma if_zero_int32 t c (s : status) : if_zero t c f w = Ok s -> int32_status s.
Proof.
  intros H. unfold if_zero in H. bind_inv H. injection H as <-.
  split; [exact Hf | exact Hw].
Qed.

Lemma if_icmp_int32 t c (s : status) : if_icmp t c f w = Ok s -> int32_status s.
Proof.
  intros H. unfold if_icmp in H. bind_inv H. injection H as <-.
  split; [exact Hf | exact Hw].
Qed.

Lemma heap_get_int32 (r : Z) (arr : list Z) :
  heap_get (heap w) r = Some arr -> Forall is_int32 arr.
Proof. exact (load_Forall _ _ _ _ (proj1 Hw)). Qed.

Lemma arraylength_int32 (s : status) : arraylength f w = Ok s -> int32_status s.
Proof.
  intros H. unfold arraylength in H. bind_inv H. injection H as <-.
  repeat match goal with E : defined _ = Ok _ |- _ => apply defined_Ok in E end.
  split; [|exact Hw]. split; cbn [stack locals]; [|exact (proj2 Hf)].
  match goal with
  | E : store (stack f) _ _ = Some _ |- _ =>
      apply (store_Forall _ _ _ _ _ (proj1 Hf)) in E; [exact E|]
  end.
  match goal with
  | E : load ?arr 0 = Some _, E' : heap_get _ _ = Some ?arr |- _ =>
      exact (load_Forall _ _ _ _ (heap_get_int32 _ _ E') E)
  end.
Qed.

Lemma iaload_int32 (s : status) : iaload f w = Ok s -> int32_status s.
Proof.
  intros H. unfold iaload in H. bind_inv H. injection H as <-.
  repeat match goal with E : defined _ = Ok _ |- _ => apply defined_Ok in E end.
  split; [|exact Hw]. split; cbn [stack locals]; [|exact (proj2 Hf)].
  match goal with
  | E : store (stack f) _ _ = Some _ |- _ =>
      apply (store_Forall _ _ _ _ _ (proj1 Hf)) in E; [exact E|]
  end.
  match goal with
  | E : load ?arr (to_int32 _) = Some _, E' : heap_get _ _ = Some ?arr |- _ =>
      exact (load_Forall _ _ _ _ (heap_get_int32 _ _ E') E)
  end.
Qed.

Lemma iastore_int32 (s : status) : iastore f w = Ok s -> int32_status s.
Proof.
  intros H. unfold iastore in H. bind_inv H. injection H as <-.
  repeat match goal with E : defined _ = Ok _ |- _ => apply defined_Ok in E end.
  split; [exact Hf|]. split; cbn [heap stdout]; [|exact (proj2 Hw)].
  match goal with
  | E : heap_set _ _ _ = Some _ |- _ =>
      unfold heap_set in E;
      apply (store_Forall _ _ _ _ _ (proj1 Hw)) in E; [exact E|]
  end.
  match goal with
  | E : store ?arr _ ?v = Some _, E' : heap_get _ _ = Some ?arr |- _ =>
      apply (store_Forall _ _ _ _ _ (heap_get_int32 _ _ E')) in E; [exact E|]
  end.
  eapply top_int32; eassumption.
Qed.

Lemma newarray_int32 (s : status) :
  newarray f w = Ok s -> references_fit (world_of s) -> int32_status s.
Proof.
  intros H. unfold newarray, heap_add in H. bind_inv H. injection H as <-.
  repeat match goal with E : defined _ = Ok _ |- _ => apply defined_Ok in E end.
  unfold references_fit. cbn [world_of heap]. rewrite length_app. cbn [length].
  intros Hfit.
  split; [split|split]; cbn [stack locals heap stdout];
    [ | exact (proj2 Hf) | | exact (proj2 Hw)].
  - match goal with
    | E : store (stack f) _ _ = Some _ |- _ =>
        apply (store_Forall _ _ _ _ _ (proj1 Hf)) in E; [exact E|]
    end.
    unfold is_int32, INT32_MIN, INT32_MAX in *. lia.
  - apply Forall_app. split; [exact (proj1 Hw)|].
    apply Forall_cons. split; [|apply Forall_nil_2].
    match goal with
    | E : store _ 0 ?n = Some _ |- _ =>
        apply (store_Forall is_int32) in E; [exact E| |eapply top_int32; eassumption]
    end.
    match goal with
    | E : zero_fill _ _ _ = Some _ |- _ =>
        exact (zero_fill_int32 _ _ _ _ (calloc_int32 _) E)
    end.
Qed.

Lemma invokestatic_int32 exec class c (s : status) :
  (forall m ls r w1,
     Forall is_int32 ls -> exec m ls w = Ok (r, w1) -> references_fit w1 ->
     is_int32 (value r) /\ int32_world w1) ->
  invokestatic exec class c f w = Ok s -> references_fit (world_of s) ->
  int32_status s.
Proof.
  intros Hexec H. unfold invokestatic in H.
  apply bind_Ok in H as (hi & _ & H). apply bind_Ok in H as (lo & _ & H).
  apply bind_Ok in H as (callee & _ & H).
  apply bind_Ok in H as (ls & Hcopy & H). apply defined_Ok in Hcopy.
  apply bind_Ok in H as ([val w1] & Hcall & H).
  apply (copy_parameters_int32 _ _ _ _ _ _ _ (proj1 Hf) (calloc_int32 _)) in Hcopy.
  destruct (has_value val).
  - apply bind_Ok in H as (st & Hst & H). apply defined_Ok in Hst.
    injection H as <-. cbn [world_of]. intros Hfit.
    destruct (Hexec _ _ _ _ Hcopy Hcall Hfit) as [Hv Hw1].
    split; [|exact Hw1]. split; cbn [stack locals]; [|exact (proj2 Hf)].
    exact (store_Forall _ _ _ _ _ (proj1 Hf) Hv Hst).
  - injection H as <-. cbn [world_of]. intros Hfit.
    destruct (Hexec _ _ _ _ Hcopy Hcall Hfit) as [_ Hw1].
    split; [|exact Hw1]. split; cbn [stack locals]; [exact (proj1 Hf) | exact (proj2 Hf)].
Qed.

End Int32.

Lemma step_int32
    (exec : method_t -> list Z -> world -> result (optional_value_t * world))
    (class : class_file_t) (method : method_t) (f : frame) (w : world) (s : status) :
  Forall is_int32 (constant_pool class) ->
  int32_frame f -> int32_world w ->
  (forall m ls r w1,
     Forall is_int32 ls -> exec m ls w = Ok (r, w1) -> references_fit w1 ->
     is_int32 (value r) /\ int32_world w1) ->
  step exec class method f w = Ok s ->
  references_fit (world_of s) ->
  int32_status s.
Proof.
  intros Hpool Hf Hw Hexec H Hfit.
  unfold step in H. apply bind_Ok in H as (instruction & _ & H). revert H.
  repeat match goal with
  | |- (if ?b then _ else _) = Ok _ -> _ => destruct b eqn:?
  end; intros H.
  all: try match goal with
       | E : between _ _ _ = true |- _ => apply between_spec in E
       end.
  all: repeat match goal with
       | E : _ = false |- _ => clear E
       | E : (_ =? _) = true |- _ => clear E
       end.
  all: first
    [ eapply invokestatic_int32; [exact Hf | exact Hexec | exact H | exact Hfit]
    | exact (newarray_int32 f w Hf Hw _ H Hfit)
    | exact (arraylength_int32 f w Hf Hw _ H)
    | exact (iaload_int32 f w Hf Hw _ H)
    | exact (iastore_int32 f w Hf Hw _ H)
    | exact (if_zero_int32 f w Hf Hw _ _ _ H)
    | exact (if_icmp_int32 f w Hf Hw _ _ _ H)
    | exact (pop_to_local_int32 f w Hf Hw _ _ _ H)
    | apply (binary_int32 f w Hf Hw _ _ _) in H; [exact H|];
      intros a b c Ha Hb Hc;
      first [ exact (c_div_int32 _ _ _ Ha Hb Hc)
            | exact (c_rem_int32 _ _ _ Ha Hb Hc)
            | exact (c_shl_int32 _ _ _ Hc)
            | exact (c_shr_int32 _ _ _ Ha Hc)
            | exact (c_ushr_int32 _ _ _ Hc)
            | injection Hc as <-;
              first [ apply to_int32_range | apply land_int32; assumption
                    | apply lor_int32; assumption | apply lxor_int32; assumption ] ]
    | bind_inv H;
      repeat match goal with E : defined _ = Ok _ |- _ => apply defined_Ok in E end;
      first
        [ apply (push_int32 f w Hf Hw) in H; [exact H|];
          first [ eapply (top_int32 f Hf); eassumption
                | eapply (local_int32 f Hf); eassumption
                | eapply load_Forall; [exact Hpool|eassumption]
                | match goal with
                  | |- is_int32 (to_int8 ?b) =>
                      apply small_int32; pose proof (to_int8_range b); lia
                  end
                | apply small_int32; apply to_int16_range
                | unfold is_int32, INT32_MIN, INT32_MAX; unfold_opcodes; lia ]
        | exact (pop_to_local_int32 f w Hf Hw _ _ _ H)
        | injection H as <-; cbn [int32_status value];
          first
            [ split; [eapply (top_int32 f Hf); eassumption | exact Hw]
            | split; [exact Hf | exact Hw]
            | split; [unfold void, is_int32, INT32_MIN, INT32_MAX; cbn [value]; lia | exact Hw]
            | split; [|exact Hw]; split; cbn [stack locals set_pc];
              first [ exact (proj1 Hf) | exact (proj2 Hf)
                    | eapply store_Forall; cycle 2;
                      [ eassumption
                      | first [exact (proj1 Hf) | exact (proj2 Hf)]
                      | apply to_int32_range ] ]
            | split; [exact Hf|]; split; cbn [heap stdout];
              [exact (proj1 Hw)|];
              apply Forall_app; split; [exact (proj2 Hw)|];
              apply Forall_cons; split; [|apply Forall_nil_2];
              eapply (top_int32 f Hf); eassumption ] ] ].
Qed.

Lemma initial_frame_int32 (m : method_t) (ls : list Z) :
  Forall is_int32 ls -> int32_frame (initial_frame m ls).
Proof. intros Hls. split; [apply calloc_int32 | exact Hls]. Qed.

Lemma run_int32 (fuel : nat) (class : class_file_t) (method : method_t)
    (f : frame) (w : world) (r : optional_value_t) (w' : world) :
  Forall is_int32 (constant_pool class) ->
  int32_frame f -> int32_world w ->
  run fuel class method f w = Ok (r, w') ->
  references_fit w' ->
  is_int32 (value r) /\ int32_world w'.
Proof.
  intros Hpool. revert method f w r w'.
  induction fuel as [|fuel IH]; intros method f w r w' Hf Hw H Hfit; [discriminate|].
  rewrite run_unfold in H.
  destruct (pc f <? code_length (method_code method)).
  - apply bind_Ok in H as (s & Hs & H).
    assert (Hfit0 : references_fit (world_of s)).
    { destruct s as [f' w0|r0 w0]; cbn [world_of].
      - apply run_extends, extends_length in H.
        unfold references_fit in *. lia.
      - injection H as _ <-. exact Hfit. }
    assert (Hs32 : int32_status s).
    { apply (step_int32 _ _ _ _ _ _ Hpool Hf Hw) in Hs; [exact Hs| |exact Hfit0].
      intros m ls r1 w1 Hls Hr Hfit1.
      exact (IH _ _ _ _ _ (initial_frame_int32 m ls Hls) Hw Hr Hfit1). }
    destruct s as [f' w0|r0 w0]; cbn [int32_status] in Hs32.
    + exact (IH _ _ _ _ _ (proj1 Hs32) (proj2 Hs32) H Hfit).
    + injection H as <- <-. exact Hs32.
  - injection H as <- <-. split; [|exact Hw].
    unfold void, is_int32, INT32_MIN, INT32_MAX. cbn [value]. lia.
Qed.

(** X19: 32-bit values stay 32-bit. If the constants of the pool,
    the locals [execute] starts with, the heap and the output hold 32-bit
    integers, then so do the value [execute] returns, the heap and the
    output it leaves, as long as the references handed out fit [int32_t]:
    no arithmetic, shift, conversion or array instruction produces a value
    outside [INT32_MIN, INT32_MAX]. *)
Theorem values_stay_int32 (fuel : nat) (method : method_t) (ls : list Z)
    (class : class_file_t) (w : world) (r : optional_value_t) (w' : world) :
  Forall is_int32 (constant_pool class) ->
  Forall is_int32 ls ->
  int32_world w ->
  execute fuel method ls class w = Ok (r, w') ->
  references_fit w' ->
  is_int32 (value r) /\ int32_world w'.
Proof.
  intros Hpool Hls Hw H Hfit.
  exact (run_int32 _ _ _ _ _ _ _ Hpool (initial_frame_int32 method ls Hls) Hw H Hfit).
Qed.

Ltac int32_list :=
  repeat first [ apply Forall_nil_2 | apply List.Forall_cons ];
  unfold is_int32, INT32_MIN, INT32_MAX; lia.

(** The values [program_main] prints and stores are 32-bit. *)
Lemma values_stay_int32_witness :
  is_int32 (value void)
  /\ int32_world {| heap := [[3; 42; 0; 0]];
                    stdout := [120; 7; 42; 3; -4; 2147483644] |}.
Proof.
  refine (values_stay_int32 100 program_main [0; 0] program_class empty_world void
            {| heap := [[3; 42; 0; 0]]; stdout := [120; 7; 42; 3; -4; 2147483644] |}
            _ _ _ _ _).
  - apply Forall_nil_2.
  - int32_list.
  - split; apply Forall_nil_2.
  - vm_compute. reflexivity.
  - unfold references_fit, INT32_MAX. simpl. lia.
Defined.

(** * [goto] outside the code *)

Lemma set_pc_same (f : frame) : set_pc f (pc f) = f.
Proof. destruct f. reflexivity. Qed.

(** X20: [goto] is not checked against the code. A [goto] whose
    target [pc + s16] is negative (the sum wraps in [size_t]) or not below
    [code_length] ends the loop, and [execute] returns void; a [goto] with
    offset 0 is fetched again forever, so [execute] never returns. *)
Theorem goto_outside_or_self
    (class : class_file_t) (method : method_t) (f : frame) (w : world)
    (hi lo : Z) :
  wf_method method = true ->
  load (code (method_code method)) (pc f) = Some i_goto ->
  load (code (method_code method)) (pc f + 1) = Some hi ->
  load (code (method_code method)) (pc f + 2) = Some lo ->
  let s16 := to_int16 (hi * 256 + lo) in
  (pc f + s16 < 0 \/ code_length (method_code method) <= pc f + s16 ->
   forall fuel : nat, run (S (S fuel)) class method f w = Ok (void, w))
  /\ (s16 = 0 -> forall fuel : nat, run fuel class method f w = OutOfFuel).
Proof.
  intros Hm Hi Hhi Hlo s16.
  destruct (jump_ok method f _ hi lo Hm Hi Hhi Hlo) as [_ Hj]. fold s16 in Hj.
  pose proof (to_int16_range (hi * 256 + lo)) as Hr. fold s16 in Hr.
  pose proof (load_inv _ _ _ Hi) as [Hpc _].
  pose proof (wf_method_inv _ Hm) as (_ & _ & Hcl & Hlen & _).
  assert (Hstep : forall exec,
            step exec class method f w
            = Ok (Running (set_pc f (to_size_t (pc f + s16))) w)).
  { intros exec. dispatch Hi. rewrite Hj. reflexivity. }
  split.
  - intros Hout fuel. rewrite run_unfold.
    replace (pc f <? code_length (method_code method)) with true by lia.
    rewrite Hstep. cbn [bind]. rewrite run_unfold. cbn [set_pc pc].
    replace (to_size_t (pc f + s16) <? code_length (method_code method))
      with false; [reflexivity|].
    symmetry. apply Z.ltb_ge. unfold to_size_t.
    destruct Hout as [Hneg|Hbig].
    + replace (pc f + s16) with ((pc f + s16 + 18446744073709551616)
                                 + (-1) * 18446744073709551616) by lia.
      rewrite Z.mod_add by lia. rewrite Z.mod_small by lia. lia.
    + rewrite Z.mod_small by lia. exact Hbig.
  - intros H0 fuel. rewrite H0, Z.add_0_r in Hstep.
    rewrite to_size_t_small, set_pc_same in Hstep by lia.
    induction fuel as [|fuel IH]; [reflexivity|].
    rewrite run_unfold.
    replace (pc f <? code_length (method_code method)) with true by lia.
    rewrite Hstep. cbn [bind]. exact IH.
Qed.

(** [goto -1] at [pc = 0] ends the method with the void result. *)
Lemma goto_outside_or_self_witness :
  run 2 empty_class (method_of 0 0 [i_goto; 0xFF; 0xFF] 0) (frame_of 0 [] [])
    empty_world
  = Ok (void, empty_world).
Proof.
  refine (proj1
    (goto_outside_or_self empty_class (method_of 0 0 [i_goto; 0xFF; 0xFF] 0)
       (frame_of 0 [] []) empty_world 0xFF 0xFF _ _ _ _) _ 0%nat);
    try reflexivity.
  left. reflexivity.
Defined.
